(** * GitHub issues sync plugin: a shallow embedding of its core

    The development follows the TypeScript sources of the plugin:
    - [github/client.ts]: the retrying query client and the
      current-iteration resolver;
    - [files/issue-files.ts]: the identity codec (front matter), the index
      renderer and the archiver;
    - [files/images.ts]: the image pipeline of push and pull;
    - [types.ts]: file-name sanitisation;
    - [sync/sync.ts]: the push flow that derives the remote title, and the
      files that a sync writes and archives;
    - [github/auth.ts]: the addresses of the service.

    JavaScript strings are modelled as lists of characters ([list ascii],
    one [ascii] per code unit below 256).  Regular expressions are written
    with small backtracking combinators in continuation-passing style, so
    that each pattern of the source is spelled out piece by piece, in the
    priority order of a backtracking matcher. *)

From Stdlib Require Import Ascii String List ZArith NArith Lia Bool.
From Stdlib Require Import Decimal DecimalString DecimalN DecimalFacts.
From stdpp Require Import base decidable countable gmap strings.
Import ListNotations.

Local Open Scope list_scope.
Local Open Scope bool_scope.

(** ** Strings *)

Module Str.

Abbreviation str := (list ascii).

(** A literal of the source. *)
Definition lit (s : string) : str := list_ascii_of_string s.

Definition nl : ascii := Ascii.ascii_of_nat 10.
Definition dq : ascii := Ascii.ascii_of_nat 34.

Definition ch (c d : ascii) : bool := Ascii.eqb c d.

(** [s.startsWith(p)], returning what follows the prefix. *)
Fixpoint strip_prefix (p s : str) : option str :=
  match p with
  | [] => Some s
  | c :: p' =>
      match s with
      | [] => None
      | d :: s' => if ch c d then strip_prefix p' s' else None
      end
  end.

Definition startsWith (s p : str) : bool :=
  match strip_prefix p s with Some _ => true | None => false end.

(** [s.includes(p)]. *)
Fixpoint includes (s p : str) : bool :=
  startsWith s p ||
  match s with
  | [] => false
  | _ :: s' => includes s' p
  end.

(** [s.split(sep)] for a one-character separator. *)
Fixpoint split (sep : ascii) (s : str) : list str :=
  match s with
  | [] => [[]]
  | c :: s' =>
      if ch c sep then [] :: split sep s'
      else match split sep s' with
           | [] => [[c]]
           | l :: ls => (c :: l) :: ls
           end
  end.

(** [lines.join(sep)]. *)
Fixpoint join (sep : str) (ls : list str) : str :=
  match ls with
  | [] => []
  | [l] => l
  | l :: ls' => l ++ sep ++ join sep ls'
  end.

(** Character classes of the patterns. *)
Definition is_digit (c : ascii) : bool :=
  let n := Ascii.nat_of_ascii c in (48 <=? n)%nat && (n <=? 57)%nat.

(** [\s], and the characters removed by [trim], among code units below 256. *)
Definition is_space (c : ascii) : bool :=
  let n := Ascii.nat_of_ascii c in
  ((9 <=? n)%nat && (n <=? 13)%nat) || (n =? 32)%nat || (n =? 160)%nat.

Definition any_char (_ : ascii) : bool := true.
Definition is_not (d : ascii) (c : ascii) : bool := negb (ch c d).

(** [s.trim()]. *)
Fixpoint trimStart (s : str) : str :=
  match s with
  | c :: s' => if is_space c then trimStart s' else s
  | [] => []
  end.

Definition trimEnd (s : str) : str := rev (trimStart (rev s)).
Definition trim (s : str) : str := trimEnd (trimStart s).

(** Decimal rendering of a number, as a template literal does, and
    [parseInt(digits, 10)] on a run of digits. *)
Definition decimal (n : N) : str :=
  list_ascii_of_string (NilEmpty.string_of_uint (N.to_uint n)).

Definition parseInt (ds : str) : option N :=
  option_map N.of_uint (NilEmpty.uint_of_string (string_of_list_ascii ds)).

End Str.

Import Str.

(** ** Backtracking pattern combinators

    Each combinator takes the continuation [k] that matches the rest of the
    pattern; [None] makes the matcher backtrack to the next alternative. *)

Module Re.

Section Combinators.
Context {R : Type}.

  (** [p*] (greedy): longest run first, then shorter ones. *)
Fixpoint star (p : ascii -> bool) (k : str -> str -> option R) (s : str)
    : option R :=
    match s with
    | c :: s' =>
        if p c then
          match star p (fun cap r => k (c :: cap) r) s' with
          | Some x => Some x
          | None => k [] s
          end
        else k [] s
    | [] => k [] []
    end.

  (** [p+] (greedy). *)
Definition plus (p : ascii -> bool) (k : str -> str -> option R) (s : str)
    : option R :=
    match s with
    | c :: s' => if p c then star p (fun cap r => k (c :: cap) r) s' else None
    | [] => None
    end.

  (** [p*?] (lazy): shortest run first. *)
Fixpoint lazy_star (p : ascii -> bool) (k : str -> str -> option R) (s : str)
    : option R :=
    match k [] s with
    | Some x => Some x
    | None =>
        match s with
        | c :: s' =>
            if p c then lazy_star p (fun cap r => k (c :: cap) r) s' else None
        | [] => None
        end
    end.

  (** [c?] (greedy): with the character first, then without. *)
Definition opt (c : ascii) (k : str -> option R) (s : str) : option R :=
    match s with
    | d :: s' =>
        if ch d c then
          match k s' with
          | Some x => Some x
          | None => k s
          end
        else k s
    | [] => k []
    end.

  (** A literal. *)
Definition exact (l : str) (k : str -> option R) (s : str) : option R :=
    match strip_prefix l s with
    | Some r => k r
    | None => None
    end.

  (** [$]. *)
Definition eos (x : R) (s : str) : option R :=
    match s with [] => Some x | _ :: _ => None end.

  (** An unanchored pattern: the leftmost position where [m] matches. *)
Fixpoint search (m : str -> option R) (s : str) : option R :=
    match m s with
    | Some x => Some x
    | None =>
        match s with
        | [] => None
        | _ :: s' => search m s'
        end
    end.
End Combinators.

End Re.

(** ** The identity codec ([files/issue-files.ts]) *)

Record GitHubIssue := {
  number : N;
  title : str;
  body : str;
  repository : str;
  url : str;
  status : str;
  assignees : list str;
  labels : list str
}.

Record IssueFrontmatter := {
  fm_url : str;
  fm_repo : str;
  fm_issue_number : N
}.

(** [generateFrontmatter]: three lines joined by a line break. *)
Definition generateFrontmatter (issue : GitHubIssue) : str :=
  join [nl] [lit "---"; lit "url: " ++ [dq] ++ url issue ++ [dq]; lit "---"].

(** The header pattern: [^---\n], a lazy run of any characters (the
    captured group), then [\n---]. *)
Definition match_frontmatter (content : str) : option str :=
  Re.exact (lit "---" ++ [nl])
    (Re.lazy_star any_char
       (fun cap r => Re.exact (nl :: lit "---") (fun _ => Some cap) r))
    content.

(** The line pattern: [^url:], [\s*], an optional double quote, the
    captured run of characters other than the double quote (greedy), an
    optional double quote, [\s*], and [$]. *)
Definition match_url_line (line : str) : option str :=
  Re.exact (lit "url:")
    (Re.star is_space (fun _ =>
       Re.opt dq (
         Re.star (is_not dq) (fun cap =>
           Re.opt dq (
             Re.star is_space (fun _ => Re.eos cap))))))
    line.

(** The URL pattern at one position: a slash, a run of non-slash
    characters (the owner), a slash, another such run (the repository),
    [/issues/] and a run of digits (the number); all three runs are [+]. *)
Definition match_issue_url_at (s : str) : option (str * str * str) :=
  Re.exact (lit "/")
    (Re.plus (is_not "/"%char) (fun owner =>
       Re.exact (lit "/")
         (Re.plus (is_not "/"%char) (fun repo =>
            Re.exact (lit "/issues/")
              (Re.plus is_digit (fun num _ => Some (owner, repo, num)))))))
    s.

Definition match_issue_url (u : str) : option (str * str * str) :=
  Re.search match_issue_url_at u.

(** The loop over the lines: the first line that matches wins. *)
Fixpoint first_url (lines : list str) : option str :=
  match lines with
  | [] => None
  | line :: rest =>
      match match_url_line line with
      | Some u => Some u
      | None => first_url rest
      end
  end.

Definition parseFrontmatter (content : str) : option IssueFrontmatter :=
  match match_frontmatter content with
  | None => None
  | Some yamlContent =>
      match first_url (split nl yamlContent) with
      | None => None
      | Some [] => None
      | Some u =>
          match match_issue_url u with
          | None => None
          | Some (owner, repoName, issueNum) =>
              match parseInt issueNum with
              | Some n =>
                  Some {| fm_url := u;
                          fm_repo := owner ++ lit "/" ++ repoName;
                          fm_issue_number := n |}
              | None => None
              end
          end
      end
  end.


(** ** The query client ([github/client.ts]) *)

Module Client.

Definition MAX_RETRIES : nat := 5.
Definition INITIAL_DELAY_MS : N := 1000.
Definition RETRYABLE_STATUS_CODES : list N := [502; 503; 504; 429]%N.

(** A thrown value: an [Error] with its message, or anything else. *)
Inductive thrown :=
| JsError (message : str)
| NonError.

Section Request.
  (** The payload type [T] of the query. *)
Context {T : Type}.

  (** What [response.json] gives: the parsed object with its [errors] array
      (empty when the field is absent) and its [data], or the exception of a
      body that cannot be parsed. *)
Inductive json :=
  | Parsed (errors : list str) (data : T)
  | Malformed (message : str).

  (** What one call of [requestUrl] does: it resolves with a status and a
      body, or it rejects. *)
Inductive outcome :=
  | Response (status : N) (payload : json)
  | Rejects (e : thrown).

  (** The state the function leaves behind: the requests issued, the
      delays slept (in ms) and the lines logged, oldest first. *)
Record trace := {
    attempts : nat;
    delays : list N;
    logged : list str
  }.

Inductive completion :=
  | Returned (data : T)          (* the function returns *)
  | Thrown (e : thrown)          (* the function throws *)
  | Proceed (lastError : thrown) (line : str).  (* falls out of try/catch *)

Definition retry_suffix (attempt : nat) : str :=
    lit ", retrying (attempt " ++ decimal (N.of_nat (attempt + 1)) ++ lit "/"
    ++ decimal (N.of_nat MAX_RETRIES) ++ lit ")...".

Definition isRetryable (message : str) : bool :=
    includes message (lit "status 502") ||
    includes message (lit "status 503") ||
    includes message (lit "status 504") ||
    includes message (lit "status 429") ||
    includes message (lit "timeout") ||
    includes message (lit "network").

  (** The [catch] clause. *)
Definition catch_block (attempt : nat) (error : thrown) : completion :=
    match error with
    | JsError message =>
        if isRetryable message && (attempt <? MAX_RETRIES - 1)%nat then
          Proceed error
            (lit "Request failed: " ++ message ++ retry_suffix attempt)
        else Thrown error
    | NonError => Thrown error
    end.

  (** The body of the [try] block on the outcome of the request; what the
      block throws goes through [catch_block]. *)
Definition try_block (attempt : nat) (o : outcome) : completion :=
    match o with
    | Rejects e => catch_block attempt e
    | Response status payload =>
        if (status =? 200)%N then
          match payload with
          | Malformed message => catch_block attempt (JsError message)
          | Parsed errors data =>
              if (0 <? length errors)%nat then
                catch_block attempt
                  (JsError (lit "GraphQL errors: " ++ join (lit ", ") errors))
              else Returned data
          end
        else if existsb (N.eqb status) RETRYABLE_STATUS_CODES then
          Proceed (JsError (lit "Request failed, status " ++ decimal status))
            (lit "GitHub API returned " ++ decimal status
             ++ retry_suffix attempt)
        else
          catch_block attempt
            (JsError (lit "GraphQL request failed: " ++ decimal status))
    end.

  (** The [for] loop from [attempt] on, with [fuel] iterations left;
      [transport n] is the outcome of the request of attempt [n]. *)
Fixpoint attempt_loop (transport : nat -> outcome) (fuel attempt : nat)
      (lastError : option thrown) (tr : trace) : trace * (T + thrown) :=
    match fuel with
    | O =>
        (tr, inr (match lastError with
                  | Some e => e
                  | None => JsError (lit "Request failed after retries")
                  end))
    | S fuel' =>
        let tr1 := {| attempts := S (attempts tr); delays := delays tr;
                      logged := logged tr |} in
        match try_block attempt (transport attempt) with
        | Returned data => (tr1, inl data)
        | Thrown e => (tr1, inr e)
        | Proceed e line =>
            let tr2 :=
              {| attempts := attempts tr1;
                 delays :=
                   if (attempt <? MAX_RETRIES - 1)%nat
                   then delays tr1 ++ [(INITIAL_DELAY_MS * 2 ^ N.of_nat attempt)%N]
                   else delays tr1;
                 logged := logged tr1 ++ [line] |} in
            attempt_loop transport fuel' (S attempt) (Some e) tr2
        end
    end.

Definition graphqlRequest (transport : nat -> outcome)
    : trace * (T + thrown) :=
    attempt_loop transport MAX_RETRIES 0 None
      {| attempts := 0; delays := []; logged := [] |}.

  (** The error an attempt produces, whether it is thrown at once or kept
      in [lastError]. *)
Definition observed_error (o : outcome) : option thrown :=
    match o with
    | Rejects e => Some e
    | Response status payload =>
        if (status =? 200)%N then
          match payload with
          | Malformed message => Some (JsError message)
          | Parsed errors _ =>
              if (0 <? length errors)%nat
              then Some (JsError (lit "GraphQL errors: "
                                  ++ join (lit ", ") errors))
              else None
          end
        else if existsb (N.eqb status) RETRYABLE_STATUS_CODES
        then Some (JsError (lit "Request failed, status " ++ decimal status))
        else Some (JsError (lit "GraphQL request failed: " ++ decimal status))
    end.
End Request.

Arguments json : clear implicits.
Arguments outcome : clear implicits.
Arguments completion : clear implicits.

End Client.

(** ** The current iteration ([fetchProjectMetadata] in [github/client.ts]) *)

Module Resolver.

Record Iteration := {
  id : str;
  it_title : str;
  startDate : str;
  duration : Z
}.

Definition MS_PER_DAY : Z := 86400000.

Section Dates.
  (** [new Date(text).getTime()], with [None] for an invalid date. *)
Variable Date_parse : str -> option Z.
  (** The time zone of the host, as the two conversions of the language:
      [LocalTime t] is the local clock reading, in milliseconds, at the
      instant [t], and [UTC l] is the instant at which the local clock
      reads [l]. *)
Variable LocalTime : Z -> Z.
Variable UTC : Z -> Z.

  (** [end.setDate(end.getDate() + duration)]: the date is read on the
      local clock, the day of the month is moved by [days] with the time
      within the day kept, and the result is taken back to an instant.
      These are calendar days: where the zone offset changes within the
      span, the instant is not [days * 24] hours after [start]. *)
Definition setDate_plus (start days : Z) : Z :=
    UTC (LocalTime start + days * MS_PER_DAY)%Z.

  (** The predicate of [filter]; comparisons with an invalid date are
      false. *)
Definition is_active (now : Z) (iter : Iteration) : bool :=
    match Date_parse (startDate iter) with
    | Some start =>
        let end_ := setDate_plus start (duration iter) in
        (start <=? now)%Z && (now <=? end_)%Z
    | None => false
    end.

Definition time_of (iter : Iteration) : Z :=
    match Date_parse (startDate iter) with Some t => t | None => 0%Z end.

  (** The comparator [(a, b) => time(b) - time(a)]. *)
Definition compare_desc (a b : Iteration) : Z := (time_of b - time_of a)%Z.

  (** [Array.prototype.sort] is stable; a stable insertion sort stands for
      it: [x] goes before the first element the comparator puts strictly
      after it. *)
Fixpoint insert_sorted (x : Iteration) (l : list Iteration) : list Iteration :=
    match l with
    | [] => [x]
    | y :: l' =>
        if (0 <? compare_desc y x)%Z then x :: y :: l'
        else y :: insert_sorted x l'
    end.

Definition sort (l : list Iteration) : list Iteration :=
    fold_left (fun acc x => insert_sorted x acc) l [].

Definition currentIteration (iterationField : option (list Iteration))
      (now : Z) : option Iteration :=
    match iterationField with
    | None => None
    | Some iterations =>
        let activeIterations := List.filter (is_active now) iterations in
        if (0 <? length activeIterations)%nat
        then hd_error (sort activeIterations)
        else None
    end.
End Dates.

End Resolver.

(** ** Settings and the local store ([types.ts], the vault of the host) *)

Record PluginSettings := {
  githubBaseUrl : str;
  syncFolder : str;
  indexFileName : str;
  issuesFolder : str;
  archiveFolder : str;
  imageHostingRepo : str;
  imageHostingBranch : str
}.

(** A file of the vault: the folder it lies in, its name, and what [read]
    or [readBinary] gives. *)
Record TFile := {
  parent : str;
  name : str;
  content : str
}.

(** [file.extension] and [file.basename]: the name is cut at its last dot;
    a name without a dot has an empty extension. *)
Fixpoint until_dot (s : str) : str :=
  match s with
  | c :: s' => if ch c "."%char then [] else c :: until_dot s'
  | [] => []
  end.

Fixpoint after_dot (s : str) : option str :=
  match s with
  | c :: s' => if ch c "."%char then Some s' else after_dot s'
  | [] => None
  end.

Definition extension (f : TFile) : str :=
  match after_dot (rev (name f)) with
  | Some _ => rev (until_dot (rev (name f)))
  | None => []
  end.

Definition basename (f : TFile) : str :=
  match after_dot (rev (name f)) with
  | Some stem => rev stem
  | None => name f
  end.

Inductive TAbstractFile :=
| File (f : TFile)
| Folder (folder_path : str).

Abbreviation Vault := (list TAbstractFile).

Global Instance TFile_eq_dec : EqDecision TFile.
Proof. solve_decision. Defined.

Definition str_eqb (a b : str) : bool := bool_decide (a = b).

Definition path (f : TFile) : str := parent f ++ lit "/" ++ name f.

Module Store.

Definition getFileByPath (v : Vault) (p : str) : option TFile :=
    match List.find (fun n => match n with
                              | File f => str_eqb (path f) p
                              | Folder q => str_eqb q p
                              end) v with
    | Some (File f) => Some f
    | _ => None
    end.

Definition isFolder (v : Vault) (p : str) : bool :=
    match List.find (fun n => match n with
                              | File f => str_eqb (path f) p
                              | Folder q => str_eqb q p
                              end) v with
    | Some (Folder _) => true
    | _ => false
    end.

  (** [folder.children]. *)
Definition children (v : Vault) (folder : str) : Vault :=
    List.filter (fun n => match n with
                          | File f => str_eqb (parent f) folder
                          | Folder _ => false
                          end) v.

  (** [vault.getFiles()]. *)
Fixpoint getFiles (v : Vault) : list TFile :=
    match v with
    | [] => []
    | File f :: v' => f :: getFiles v'
    | Folder _ :: v' => getFiles v'
    end.

  (** [vault.getAbstractFileByPath(p) !== null]: a file or a folder lies
      at the path. *)
Definition taken (v : Vault) (p : str) : bool :=
    match List.find (fun n => match n with
                              | File f => str_eqb (path f) p
                              | Folder q => str_eqb q p
                              end) v with
    | Some _ => true
    | None => false
    end.

  (** [vault.createFolder]. *)
Definition createFolder (v : Vault) (p : str) : Vault := v ++ [Folder p].

  (** The name in a path is what follows its last slash, and the folder
      what precedes that slash. *)
Fixpoint until_slash (s : str) : str :=
    match s with
    | c :: s' => if ch c "/"%char then [] else c :: until_slash s'
    | [] => []
    end.

Fixpoint after_slash (s : str) : option str :=
    match s with
    | c :: s' => if ch c "/"%char then Some s' else after_slash s'
    | [] => None
    end.

Definition name_of (p : str) : str := rev (until_slash (rev p)).

Definition folder_of (p : str) : str :=
    match after_slash (rev p) with
    | Some folder => rev folder
    | None => []
    end.

  (** The file with the content [data] that lies at the path [p]. *)
Definition file_at (p data : str) : TFile :=
    {| parent := folder_of p; name := name_of p; content := data |}.

  (** [vault.create(path, data)]: the new file lies at the path it is
      given. *)
Definition create (v : Vault) (p data : str) : Vault * TFile :=
    (v ++ [File (file_at p data)], file_at p data).

  (** [vault.modify(file, data)]: the file stays where it is. *)
Definition modify (v : Vault) (file : TFile) (data : str) : Vault * TFile :=
    let modified :=
      {| parent := parent file; name := name file; content := data |} in
    (List.map (fun n => match n with
                        | File f => if bool_decide (f = file)
                                    then File modified else n
                        | Folder _ => n
                        end) v,
     modified).

  (** [vault.rename(file, newPath)].  The vault refuses a rename onto a
      path at which a file or a folder lies: the call throws, which [None]
      stands for.  Otherwise the file lies at the new path afterwards, with
      its content. *)
Definition moved (f : TFile) (newPath : str) : TFile :=
    file_at newPath (content f).

Definition rename (v : Vault) (file : TFile) (newPath : str) : option Vault :=
    if taken v newPath then None
    else Some (List.map (fun n => match n with
                                  | File f => if bool_decide (f = file)
                                              then File (moved f newPath)
                                              else n
                                  | Folder _ => n
                                  end) v).

  (** [ensureFolder]. *)
Definition ensureFolder (v : Vault) (p : str) : Vault :=
    if isFolder v p then v else createFolder v p.

End Store.

(** ** File names ([types.ts]) *)

Module Filenames.

(** [INVALID_FILENAME_CHARS]: the listed punctuation and the control
    characters 0x00 to 0x1f. *)
Definition is_invalid_char (c : ascii) : bool :=
  existsb (ch c) (dq :: lit "<>:/\|?*") || (Ascii.nat_of_ascii c <=? 31)%nat.

Definition is_dash (c : ascii) : bool := ch c "-"%char.
Definition is_dash_or_space (c : ascii) : bool := is_dash c || is_space c.

(** [replace(/-+/g, "-")]. *)
Fixpoint collapse_dashes (s : str) : str :=
  match s with
  | [] => []
  | c :: s' =>
      if is_dash c then
        match s' with
        | d :: _ => if is_dash d then collapse_dashes s'
                    else c :: collapse_dashes s'
        | [] => [c]
        end
      else c :: collapse_dashes s'
  end.

Fixpoint drop_while (p : ascii -> bool) (s : str) : str :=
  match s with
  | c :: s' => if p c then drop_while p s' else s
  | [] => []
  end.

(** Removing the run of dashes and spaces at the start and the one at the
    end, as the two alternatives of the third pattern do. *)
Definition strip_ends (s : str) : str :=
  rev (drop_while is_dash_or_space (rev (drop_while is_dash_or_space s))).

Definition upper (c : ascii) : ascii :=
  let n := Ascii.nat_of_ascii c in
  if (97 <=? n)%nat && (n <=? 122)%nat then Ascii.ascii_of_nat (n - 32) else c.

Definition device_numbers : list str :=
  List.map (fun c => [c]) (lit "123456789").

(** [WINDOWS_RESERVED_NAMES], which ignores case. *)
Definition is_reserved (s : str) : bool :=
  existsb (str_eqb (List.map upper s))
    ([lit "CON"; lit "PRN"; lit "AUX"; lit "NUL"]
     ++ List.map (fun d => lit "COM" ++ d) device_numbers
     ++ List.map (fun d => lit "LPT" ++ d) device_numbers).

Definition sanitizeFilename (name : str) : str :=
  let sanitized :=
    List.map (fun c => if is_invalid_char c then "-"%char else c) name in
  let sanitized := collapse_dashes sanitized in
  let sanitized := strip_ends sanitized in
  let sanitized :=
    if is_reserved sanitized then sanitized ++ lit "_" else sanitized in
  let sanitized :=
    match sanitized with [] => lit "untitled" | _ => sanitized end in
  if (200 <? length sanitized)%nat then firstn 200 sanitized else sanitized.

Definition generateIssueFilename (issue : GitHubIssue) : str :=
  sanitizeFilename (title issue) ++ lit " (" ++ decimal (number issue) ++ lit ")".

End Filenames.

(** ** The image pipeline ([files/images.ts]) *)

Module Images.

Definition not_in (cs : str) (c : ascii) : bool := negb (existsb (ch c) cs).

Record image_match := {
  full : str;
  img_path : str;
  alt : str
}.

(** [WIKILINK_IMAGE_REGEX] at one position: [![[], a run (+) of characters
    other than the closing bracket and the bar, an optional group made of a
    bar and a run of characters other than the closing bracket, and []]].
    The result is the path, the optional group and what follows. *)
Definition wikilink_at (s : str) : option (str * option str * str) :=
  Re.exact (lit "![[")
    (Re.plus (not_in (lit "]|")) (fun p r1 =>
       match Re.exact (lit "|")
               (Re.star (is_not "]"%char) (fun a r2 =>
                  Re.exact (lit "]]") (fun rest => Some (p, Some a, rest)) r2))
               r1 with
       | Some x => Some x
       | None => Re.exact (lit "]]") (fun rest => Some (p, None, rest)) r1
       end))
    s.

(** The object pushed for a wiki link: [match[0]], [match[1]] and
    [match[2] || match[1]]. *)
Definition wikilink_match (s : str) : option (image_match * str) :=
  match wikilink_at s with
  | Some (p, group, rest) =>
      Some ({| full := lit "![[" ++ p
                       ++ match group with
                          | Some a => lit "|" ++ a
                          | None => []
                          end ++ lit "]]";
               img_path := p;
               alt := match group with
                      | Some (c :: a) => c :: a
                      | _ => p
                      end |}, rest)
  | None => None
  end.

(** [MARKDOWN_IMAGE_REGEX] at one position: [![], a run of characters other
    than the closing bracket, [](], a run (+) of characters other than the
    closing parenthesis, and the closing parenthesis. *)
Definition markdown_at (s : str) : option (str * str * str) :=
  Re.exact (lit "![")
    (Re.star (is_not "]"%char) (fun a r1 =>
       Re.exact (lit "](")
         (Re.plus (is_not ")"%char) (fun p r2 =>
            Re.exact (lit ")") (fun rest => Some (a, p, rest)) r2))
         r1))
    s.

Definition markdown_match (s : str) : option (image_match * str) :=
  match markdown_at s with
  | Some (a, p, rest) =>
      Some ({| full := lit "![" ++ a ++ lit "](" ++ p ++ lit ")";
               img_path := p; alt := a |}, rest)
  | None => None
  end.

Definition isLocalPath (p : str) : bool :=
  negb (startsWith p (lit "http://")) &&
  negb (startsWith p (lit "https://")) &&
  negb (startsWith p (lit "data:")).

(** The loop [while ((match = REGEX.exec(content)) !== null)] of a global
    pattern: the matches from left to right, each search resuming where
    the previous match ended ([skip] counts the characters of a match that
    are still to be passed). *)
Fixpoint scan {A : Type} (m : str -> option (A * str)) (skip : nat) (s : str)
  : list A :=
  match s with
  | [] => []
  | _ :: s' =>
      match skip with
      | S k => scan m k s'
      | O =>
          match m s with
          | Some (a, rest) => a :: scan m (length s - length rest - 1) s'
          | None => scan m 0 s'
          end
      end
  end.

(** [content.replace(REGEX, callback)] for a global pattern. *)
Fixpoint replace_all (m : str -> option (str * str)) (skip : nat) (s : str)
  : str :=
  match s with
  | [] => []
  | c :: s' =>
      match skip with
      | S k => replace_all m k s'
      | O =>
          match m s with
          | Some (new, rest) =>
              new ++ replace_all m (length s - length rest - 1) s'
          | None => c :: replace_all m 0 s'
          end
      end
  end.

(** The replacement text of [String.prototype.replace] when the pattern is
    a string: a dollar followed by a dollar, an ampersand, a backquote or a
    quote is a substitution; there are no groups, so any other dollar
    stands for itself. *)
Fixpoint expand (matched before after : str) (r : str) : str :=
  match r with
  | [] => []
  | c :: r' =>
      if ch c "$"%char then
        match r' with
        | d :: r'' =>
            if ch d "$"%char then "$"%char :: expand matched before after r''
            else if ch d "&"%char then matched ++ expand matched before after r''
            else if ch d "`"%char then before ++ expand matched before after r''
            else if ch d "'"%char then after ++ expand matched before after r''
            else c :: expand matched before after r'
        | [] => [c]
        end
      else c :: expand matched before after r'
  end.

(** The first occurrence of [pat] in [s]: what precedes and what follows. *)
Fixpoint find_first (pat s : str) : option (str * str) :=
  match strip_prefix pat s with
  | Some after => Some ([], after)
  | None =>
      match s with
      | [] => None
      | c :: s' =>
          match find_first pat s' with
          | Some (before, after) => Some (c :: before, after)
          | None => None
          end
      end
  end.

(** [s.replace(pat, repl)] with two strings. *)
Definition replace_first (s pat repl : str) : str :=
  match find_first pat s with
  | Some (before, after) => before ++ expand pat before after repl ++ after
  | None => s
  end.

(** [toLowerCase] on code units below 256. *)
Definition lower (c : ascii) : ascii :=
  let n := Ascii.nat_of_ascii c in
  if ((65 <=? n)%nat && (n <=? 90)%nat)
     || ((192 <=? n)%nat && (n <=? 222)%nat && negb (n =? 215)%nat)
  then Ascii.ascii_of_nat (n + 32) else c.

Definition or_else (s d : str) : str :=
  match s with [] => d | _ :: _ => s end.

Definition getExtension (filename : str) : str :=
  or_else (List.last (split "."%char (List.map lower filename)) []) (lit "png").

(** [const [owner, repo] = settings.imageHostingRepo.split("/")]; a missing
    component is [undefined] and prints as such. *)
Definition owner_repo (settings : PluginSettings) : str * str :=
  match split "/"%char (imageHostingRepo settings) with
  | o :: r :: _ => (o, r)
  | [o] => (o, lit "undefined")
  | [] => (lit "undefined", lit "undefined")
  end.

Definition branch_of (settings : PluginSettings) : str :=
  or_else (imageHostingBranch settings) (lit "main").

Definition api_base (settings : PluginSettings) : str :=
  match githubBaseUrl settings with
  | [] => lit "https://api.github.com"
  | h => lit "https://" ++ h ++ lit "/api/v3"
  end.

Definition contents_url (settings : PluginSettings) (filename : str) : str :=
  api_base settings ++ lit "/repos/" ++ fst (owner_repo settings) ++ lit "/"
  ++ snd (owner_repo settings) ++ lit "/contents/images/" ++ filename.

Definition blob_url (settings : PluginSettings) (filename : str) : str :=
  lit "https://" ++ or_else (githubBaseUrl settings) (lit "github.com")
  ++ lit "/" ++ fst (owner_repo settings) ++ lit "/"
  ++ snd (owner_repo settings) ++ lit "/blob/" ++ branch_of settings
  ++ lit "/images/" ++ filename ++ lit "?raw=true".

(** *** The asset host

    The contents API of the hosting service, as the plugin uses it: a GET
    answers 200 exactly for an address that exists; a PUT on a branch
    creates the address (201) or updates it (200) when the token may write,
    and is refused (403) otherwise.  An address is the contents URL with
    its [?ref=branch] query.  Every request is recorded with its status. *)
Inductive request :=
| GET (address : str)
| PUT (contents : str) (message content branch : str).

Record Remote := {
  blobs : gset str;
  writable : bool;
  requests : list (request * N)
}.

Definition address_of (contents branch : str) : str :=
  contents ++ lit "?ref=" ++ branch.

Definition respond (r : Remote) (q : request) : N :=
  match q with
  | GET a => if bool_decide (a ∈ blobs r) then 200%N else 404%N
  | PUT u _ _ b =>
      if writable r then
        if bool_decide (address_of u b ∈ blobs r) then 200%N else 201%N
      else 403%N
  end.

Definition requestUrl (r : Remote) (q : request) : Remote * N :=
  ({| blobs := match q with
               | PUT u _ _ b =>
                   if writable r then {[address_of u b]} ∪ blobs r else blobs r
               | GET _ => blobs r
               end;
      writable := writable r;
      requests := requests r ++ [(q, respond r q)] |},
   respond r q).

Definition is_put (q : request * N) : bool :=
  match fst q with PUT _ _ _ _ => true | GET _ => false end.

Section Pipeline.
  (** [normalizePath] of the host, the SHA-256 digest in hexadecimal and the
      base64 encoding of the bytes. *)
Variable normalizePath : str -> str.
Variable sha256_hex : str -> str.
Variable base64 : str -> str.

Definition imageExistsInRepo (settings : PluginSettings) (r : Remote)
      (filename : str) : Remote * bool :=
    let apiUrl := address_of (contents_url settings filename) (branch_of settings) in
    let (r', status) := requestUrl r (GET apiUrl) in
    (r', (status =? 200)%N).

  (** [None] stands for the exception: [requestUrl] rejects a status of 400
      or more, and the function throws on any status but 200 and 201. *)
Definition uploadImageToRepo (settings : PluginSettings) (r : Remote)
      (filename content : str) : Remote * option str :=
    let (r', status) :=
      requestUrl r (PUT (contents_url settings filename)
                        (lit "Upload image " ++ filename) content
                        (branch_of settings)) in
    if (400 <=? status)%N then (r', None)
    else if negb (status =? 200)%N && negb (status =? 201)%N then (r', None)
    else (r', Some (blob_url settings filename)).

Fixpoint first_with_ext (v : Vault) (imagePath : str) (exts : list str)
    : option TFile :=
    match exts with
    | [] => None
    | ext :: exts' =>
        match Store.getFileByPath v
                (normalizePath (imagePath ++ lit "." ++ ext)) with
        | Some f => Some f
        | None => first_with_ext v imagePath exts'
        end
    end.

Definition findImageFile (v : Vault) (imagePath : str) : option TFile :=
    match Store.getFileByPath v (normalizePath imagePath) with
    | Some f => Some f
    | None =>
        match (if negb (includes imagePath (lit "."))
               then first_with_ext v imagePath
                      [lit "png"; lit "jpg"; lit "jpeg"; lit "gif";
                       lit "webp"; lit "svg"]
               else None) with
        | Some f => Some f
        | None =>
            let filename :=
              or_else (List.last (split "/"%char imagePath) []) imagePath in
            List.find (fun file => str_eqb (name file) filename
                                   || str_eqb (basename file) filename)
                      (Store.getFiles v)
        end
    end.

  (** The name under which the bytes of a file are hosted. *)
Definition hosted_name (file : TFile) : str :=
    firstn 16 (sha256_hex (content file)) ++ lit "."
    ++ getExtension (name file).

Definition processLocalImage (v : Vault) (settings : PluginSettings)
      (r : Remote) (imagePath : str) : Remote * option str :=
    match findImageFile v imagePath with
    | None => (r, None)
    | Some file =>
        let buffer := content file in
        let base64Content := base64 buffer in
        let filename := hosted_name file in
        let (r1, exists_) := imageExistsInRepo settings r filename in
        if exists_ then (r1, Some (blob_url settings filename))
        else uploadImageToRepo settings r1 filename base64Content
    end.

Record push_result := {
    pushed : str;
    uploadedCount : nat;
    skippedCount : nat
  }.

Definition marker_and_image (m : image_match) (rawUrl : str) : str :=
    lit "<!-- obsidian-local: " ++ img_path m ++ lit " -->" ++ [nl]
    ++ lit "![" ++ alt m ++ lit "](" ++ rawUrl ++ lit ")".

  (** One turn of either [for] loop over the matches. *)
Definition push_one (v : Vault) (settings : PluginSettings)
      (st : Remote * push_result) (m : image_match) : Remote * push_result :=
    let (r, acc) := st in
    match processLocalImage v settings r (img_path m) with
    | (r', Some rawUrl) =>
        (r', {| pushed := replace_first (pushed acc) (full m)
                            (marker_and_image m rawUrl);
                uploadedCount := S (uploadedCount acc);
                skippedCount := skippedCount acc |})
    | (r', None) =>
        (r', {| pushed := pushed acc;
                uploadedCount := uploadedCount acc;
                skippedCount := S (skippedCount acc) |})
    end.

Definition processImagesOnPush (v : Vault) (settings : PluginSettings)
      (r : Remote) (content : str) : Remote * push_result :=
    match imageHostingRepo settings with
    | [] => (r, {| pushed := content; uploadedCount := 0; skippedCount := 0 |})
    | _ :: _ =>
        let wikiMatches := scan wikilink_match 0 content in
        let st :=
          fold_left (push_one v settings) wikiMatches
            (r, {| pushed := content; uploadedCount := 0; skippedCount := 0 |}) in
        let mdMatches :=
          List.filter (fun m => isLocalPath (img_path m))
            (scan markdown_match 0 content) in
        fold_left (push_one v settings) mdMatches st
    end.
End Pipeline.

(** [LOCAL_IMAGE_COMMENT_REGEX] at one position: the opening of the marker,
    a run (+) of characters other than [>] (the captured path), the closing
    of the marker, a line break, [![], a run of characters other than the
    closing bracket, [](], a run (+) of characters other than the closing
    parenthesis, and the closing parenthesis. *)
Definition local_comment_at (s : str) : option (str * str) :=
  Re.exact (lit "<!-- obsidian-local: ")
    (Re.plus (is_not ">"%char) (fun localPath r1 =>
       Re.exact (lit " -->" ++ [nl] ++ lit "![")
         (Re.star (is_not "]"%char) (fun _ r2 =>
            Re.exact (lit "](")
              (Re.plus (is_not ")"%char) (fun _ r3 =>
                 Re.exact (lit ")") (fun rest => Some (localPath, rest)) r3))
              r2))
         r1))
    s.

Definition restoreLocalImages (content : str) : str :=
  replace_all
    (fun s => match local_comment_at s with
              | Some (localPath, rest) =>
                  Some (lit "![[" ++ trim localPath ++ lit "]]", rest)
              | None => None
              end)
    0 content.

End Images.

(** ** Issue files, the index and the archive ([files/issue-files.ts]) *)

Module IssueFiles.

Import Filenames.

Record StatusOption := {
  option_id : str;
  option_name : str;
  color : option str
}.

Definition generateIssueContent (issue : GitHubIssue) : str :=
  generateFrontmatter issue ++ [nl; nl] ++ Images.restoreLocalImages (body issue).

(** *** The index

    A [Map] keeps its keys in the order of their first insertion; setting a
    key that is present changes the value in place. *)
Abbreviation StatusMap := (list (str * list GitHubIssue)).

Fixpoint map_get (m : StatusMap) (k : str) : option (list GitHubIssue) :=
  match m with
  | [] => None
  | (k', v) :: m' => if str_eqb k' k then Some v else map_get m' k
  end.

Fixpoint map_set (m : StatusMap) (k : str) (v : list GitHubIssue) : StatusMap :=
  match m with
  | [] => [(k, v)]
  | (k', v') :: m' =>
      if str_eqb k' k then (k', v) :: m' else (k', v') :: map_set m' k v
  end.

(** The two loops that fill the map. *)
Definition init_groups (statusOptions : list StatusOption) : StatusMap :=
  map_set
    (fold_left (fun m opt => map_set m (option_name opt) []) statusOptions [])
    (lit "No Status") [].

Definition add_issue (m : StatusMap) (issue : GitHubIssue) : StatusMap :=
  let statusIssues :=
    match map_get m (status issue) with Some l => l | None => [] end in
  map_set m (status issue) (statusIssues ++ [issue]).

Definition issuesByStatus (issues : list GitHubIssue)
    (statusOptions : list StatusOption) : StatusMap :=
  fold_left add_issue issues (init_groups statusOptions).

(** The sections that are written: the groups that are not empty. *)
Definition sections (issues : list GitHubIssue)
    (statusOptions : list StatusOption) : StatusMap :=
  List.filter (fun g => negb (length (snd g) =? 0)%nat)
    (issuesByStatus issues statusOptions).

Definition entry_line (issuesFolder : str) (issue : GitHubIssue) : str :=
  let filename := generateIssueFilename issue in
  let linkPath :=
    match issuesFolder with
    | [] => filename
    | _ :: _ => issuesFolder ++ lit "/" ++ filename
    end in
  lit "- [[" ++ linkPath ++ lit "|" ++ title issue ++ lit "]]".

Definition section_lines (issuesFolder : str) (g : str * list GitHubIssue)
  : list str :=
  [lit "## " ++ fst g; []] ++ List.map (entry_line issuesFolder) (snd g) ++ [[]].

(** [localeNow] is [new Date().toLocaleString()]. *)
Definition header_lines (projectTitle : str) (iterationTitle : option str)
    (localeNow : str) : list str :=
  [lit "# " ++ projectTitle]
  ++ match iterationTitle with
     | Some (c :: t) => [lit "**Current Iteration:** " ++ c :: t]
     | _ => []
     end
  ++ [[]; lit "*Last synced: " ++ localeNow ++ lit "*"; []].

Definition index_lines (issues : list GitHubIssue)
    (statusOptions : list StatusOption) (projectTitle : str)
    (iterationTitle : option str) (issuesFolder localeNow : str) : list str :=
  header_lines projectTitle iterationTitle localeNow
  ++ List.concat (List.map (section_lines issuesFolder)
                    (sections issues statusOptions)).

Definition generateIndexContent (issues : list GitHubIssue)
    (statusOptions : list StatusOption) (projectTitle : str)
    (iterationTitle : option str) (issuesFolder localeNow : str) : str :=
  join [nl] (index_lines issues statusOptions projectTitle iterationTitle
               issuesFolder localeNow).

Section Folders.
Variable normalizePath : str -> str.

Definition getIssuesFolderPath (settings : PluginSettings) : str :=
    normalizePath (syncFolder settings ++ lit "/" ++ issuesFolder settings).

  (** *** Writing an issue file

      The file that exists at the path is modified; otherwise a file is
      created at the path. *)
Definition writeIssueFile (v : Vault) (settings : PluginSettings)
      (issue : GitHubIssue) : Vault * TFile :=
    let folderPath := getIssuesFolderPath settings in
    let v := Store.ensureFolder v (normalizePath folderPath) in
    let filename := generateIssueFilename issue in
    let filePath :=
      normalizePath (folderPath ++ lit "/" ++ filename ++ lit ".md") in
    let content := generateIssueContent issue in
    match Store.getFileByPath v filePath with
    | Some existingFile => Store.modify v existingFile content
    | None => Store.create v filePath content
    end.

  (** *** The archive *)
Definition is_candidate (settings : PluginSettings) (child : TAbstractFile)
    : option TFile :=
    match child with
    | File f =>
        if str_eqb (extension f) (lit "md") then
          if str_eqb (name f) (indexFileName settings ++ lit ".md") then None
          else match parseFrontmatter (content f) with
               | Some _ => Some f
               | None => None
               end
        else None
    | Folder _ => None
    end.

Fixpoint collect (settings : PluginSettings) (l : Vault) : list TFile :=
    match l with
    | [] => []
    | child :: l' =>
        match is_candidate settings child with
        | Some f => f :: collect settings l'
        | None => collect settings l'
        end
    end.

Definition getIssueFiles (v : Vault) (settings : PluginSettings)
    : list TFile :=
    let folderPath := getIssuesFolderPath settings in
    if Store.isFolder v folderPath
    then collect settings (Store.children v folderPath)
    else [].

Definition archivePath (settings : PluginSettings) : str :=
    normalizePath (getIssuesFolderPath settings ++ lit "/"
                   ++ archiveFolder settings).

  (** [newPath] of a file that is archived. *)
Definition newPath (settings : PluginSettings) (file : TFile) : str :=
    normalizePath (archivePath settings ++ lit "/" ++ name file).

  (** The loop [for (const file of issueFiles)] of [archiveOldIssues].
      There is no [try] around the rename: when the vault refuses it, the
      exception leaves the loop and the function, with the files renamed so
      far where they were put.  The result is the vault and the count that
      is returned, or [None] for the exception. *)
Fixpoint archive_files (settings : PluginSettings)
      (currentIssueNumbers : gset N) (issueFiles : list TFile) (v : Vault)
      (archivedCount : nat) : Vault * option nat :=
    match issueFiles with
    | [] => (v, Some archivedCount)
    | file :: rest =>
        match parseFrontmatter (content file) with
        | Some frontmatter =>
            if negb (bool_decide
                       (fm_issue_number frontmatter ∈ currentIssueNumbers))
            then
              let v :=
                Store.ensureFolder v (normalizePath (archivePath settings)) in
              match Store.rename v file (newPath settings file) with
              | Some v' =>
                  archive_files settings currentIssueNumbers rest v'
                    (S archivedCount)
              | None => (v, None)
              end
            else archive_files settings currentIssueNumbers rest v archivedCount
        | None => archive_files settings currentIssueNumbers rest v archivedCount
        end
    end.

Definition archiveOldIssues (v : Vault) (settings : PluginSettings)
      (currentIssueNumbers : gset N) : Vault * option nat :=
    archive_files settings currentIssueNumbers (getIssueFiles v settings) v 0%nat.
End Folders.

End IssueFiles.

(** ** The title that a push sends ([pushCurrentIssue] in [sync/sync.ts]) *)

Module Sync.

(** [replace(/^\(\d+\)\s*/, "")]: an opening parenthesis, a run (+) of
    digits, a closing parenthesis and a run of spaces, at the start. *)
Definition strip_number_prefix (s : str) : str :=
  match Re.exact (lit "(")
          (Re.plus is_digit (fun _ r1 =>
             Re.exact (lit ")")
               (Re.star is_space (fun _ rest => Some rest)) r1)) s with
  | Some rest => rest
  | None => s
  end.

Definition newTitle (file : TFile) : str :=
  trim (strip_number_prefix (basename file)).

End Sync.

(** ** Predicates used in the statements *)

(** A string is free of a character. *)
Definition free_of (c : ascii) (s : str) : bool := forallb (is_not c) s.

(** No character of the class [p] comes next: a run of [p] ends here. *)
Definition stops (p : ascii -> bool) (rest : str) : Prop :=
  match rest with [] => True | c :: _ => p c = false end.

(** The header block of a file: what lies between the opening fence and
    the first closing fence. *)
Definition header_block (content y : str) : Prop :=
  exists rest,
    content = lit "---" ++ [nl] ++ y ++ [nl] ++ lit "---" ++ rest /\
    forall a b, y = a ++ b -> b <> [] ->
      startsWith (b ++ [nl] ++ lit "---" ++ rest) (nl :: lit "---") = false.

Definition has_header_block (content : str) : Prop :=
  exists y rest, content = lit "---" ++ [nl] ++ y ++ [nl] ++ lit "---" ++ rest.

(** No line of the header block starts with the name of the field. *)
Definition url_field_missing (content : str) : Prop :=
  forall y line, header_block content y -> In line (split nl y) ->
    startsWith line (lit "url:") = false.

(** The shape [.../{owner}/{repo}/issues/{number}] somewhere in a URL. *)
Definition issue_url_shape (u : str) : Prop :=
  exists pre owner repo digits rest,
    u = pre ++ lit "/" ++ owner ++ lit "/" ++ repo ++ lit "/issues/"
        ++ digits ++ rest /\
    owner <> [] /\ free_of "/"%char owner = true /\
    repo <> [] /\ free_of "/"%char repo = true /\
    digits <> [] /\ forallb is_digit digits = true.

(** A URL is written on one line and holds no double quote. *)
Definition url_text (u : str) : bool := free_of dq u && free_of nl u.

(** The canonical URL of an issue:
    [scheme://host/{owner}/{repo}/issues/{number}]. *)
Definition canonical_issue_url (scheme host owner repo : str) (n : N) : str :=
  scheme ++ lit "://" ++ host ++ lit "/" ++ owner ++ lit "/" ++ repo
  ++ lit "/issues/" ++ decimal n.

(** ** Sample data *)

Definition sample_issue : GitHubIssue :=
  {| number := 42; title := lit "Fix: crash"; body := [];
     repository := lit "octo/repo";
     url := lit "https://github.com/octo/repo/issues/42";
     status := lit "Todo"; assignees := []; labels := [] |}.

(** The transport reports the HTTP status [s]: in the response, or in the
    exception of a transport that rejects such a status. *)
Definition received_status {T : Type} (o : Client.outcome T) (s : N) : Prop :=
  (exists j, o = Client.Response s j) \/
  o = Client.Rejects (Client.JsError (lit "Request failed, status " ++ decimal s)).

(** A failure of the first kind named by the catch clause is absent from
    a message. *)
Definition plain_message (message : str) : Prop :=
  Client.isRetryable message = false.

(** The failures that are not retried: a status that is neither 200 nor in
    the retry list, a body that cannot be parsed, a 200 with errors, an
    exception of the transport; in the last three cases the message
    names none of the transient conditions. *)
Definition non_retryable {T : Type} (o : Client.outcome T) : Prop :=
  (exists s j, o = Client.Response s j /\ s <> 200%N /\
               ~ In s Client.RETRYABLE_STATUS_CODES) \/
  (exists message, o = Client.Response 200 (Client.Malformed message) /\
                   plain_message message) \/
  (exists errors data, o = Client.Response 200 (Client.Parsed errors data) /\
                       errors <> [] /\
                       plain_message (lit "GraphQL errors: "
                                      ++ join (lit ", ") errors)) \/
  o = Client.Rejects Client.NonError \/
  (exists message, o = Client.Rejects (Client.JsError message) /\
                   plain_message message).

(** A 200 whose error message speaks of a timeout, then a clean 200. *)
Definition flaky_errors : nat -> Client.outcome unit :=
  fun attempt =>
    match attempt with
    | O => Client.Response 200
             (Client.Parsed [lit "Something went wrong: timeout"] tt)
    | S _ => Client.Response 200 (Client.Parsed [] tt)
    end.

(** Four times 503, then a clean 200; and a transport that answers 404. *)
Definition four_503_then_200 : nat -> Client.outcome unit :=
  fun attempt =>
    if (attempt <? 4)%nat then Client.Response 503 (Client.Malformed [])
    else Client.Response 200 (Client.Parsed [] tt).

Definition always_404 : nat -> Client.outcome unit :=
  fun _ => Client.Response 404 (Client.Malformed []).


(** The local clock of the host is never more than a day away from
    universal time, in either conversion.  (Zone offsets lie between -12
    and +14 hours.) *)
Definition offset_within_a_day (LocalTime UTC : Z -> Z) : Prop :=
  forall t : Z,
    (Z.abs (LocalTime t - t) <= Resolver.MS_PER_DAY)%Z /\
    (Z.abs (UTC t - t) <= Resolver.MS_PER_DAY)%Z.

(** A zone five hours behind universal time until the instant [change]
    and four hours behind from then on: the clock is put forward by an
    hour, and the local hour that is skipped is read with the offset
    before the change. *)
Definition HOUR : Z := 3600000.

Definition spring_LocalTime (change t : Z) : Z :=
  if (t <? change)%Z then (t - 5 * HOUR)%Z else (t - 4 * HOUR)%Z.

Definition spring_UTC (change l : Z) : Z :=
  if (l <? change - 4 * HOUR)%Z then (l + 5 * HOUR)%Z else (l + 4 * HOUR)%Z.

(** A zone with a constant offset. *)
Definition fixed_LocalTime (offset t : Z) : Z := (t + offset)%Z.
Definition fixed_UTC (offset l : Z) : Z := (l - offset)%Z.

(** A calendar that reads two names as the days 10 and 17 of some month,
    in milliseconds. *)
Definition toy_calendar (text : str) : option Z :=
  if str_eqb text (lit "day-10") then Some (10 * Resolver.MS_PER_DAY)%Z
  else if str_eqb text (lit "day-17") then Some (17 * Resolver.MS_PER_DAY)%Z
  else None.

Definition sprint_a : Resolver.Iteration :=
  {| Resolver.id := lit "A"; Resolver.it_title := lit "Sprint A";
     Resolver.startDate := lit "day-10"; Resolver.duration := 14 |}.



(** A string starts with a parenthesised number: the pattern that
    [strip_number_prefix] removes. *)
Definition has_number_prefix (s : str) : bool :=
  match Re.exact (lit "(")
          (Re.plus is_digit (fun _ r1 =>
             Re.exact (lit ")") (fun _ => Some tt) r1)) s with
  | Some _ => true
  | None => false
  end.

(** The names of the files of a vault hold no slash. *)
Definition proper_names (v : Vault) : Prop :=
  forall f, In f (Store.getFiles v) -> free_of "/"%char (name f) = true.

(** A host whose [normalizePath] writes a space for a no-break space (the
    character 160), and an issue with that character in its title. *)
Definition spaced_path (p : str) : str :=
  List.map (fun c => if ch c (Ascii.ascii_of_nat 160) then " "%char else c) p.

Definition nbsp_issue : GitHubIssue :=
  {| number := 7;
     title := lit "Fix" ++ [Ascii.ascii_of_nat 160] ++ lit "crash";
     body := []; repository := lit "octo/repo";
     url := lit "https://github.com/octo/repo/issues/7";
     status := lit "Todo"; assignees := []; labels := [] |}.

(** [DEFAULT_SETTINGS]. *)
Definition DEFAULT_SETTINGS : PluginSettings :=
  {| githubBaseUrl := []; syncFolder := lit "GitHub Issues";
     indexFileName := lit "Board"; issuesFolder := lit "_issues";
     archiveFolder := lit "_archive"; imageHostingRepo := [];
     imageHostingBranch := lit "main" |}.

(** A host whose [normalizePath] leaves these paths as they are. *)
Definition plain_path (p : str) : str := p.

(** The keys of a list in the order of their first occurrence. *)
Definition add_key (keys : list str) (k : str) : list str :=
  if existsb (str_eqb k) keys then keys else keys ++ [k].

Definition keys_of (l : list str) : list str := fold_left add_key l [].

(** The issues of one status, in the order of the list. *)
Definition with_status (issues : list GitHubIssue) (k : str)
  : str * list GitHubIssue :=
  (k, List.filter (fun issue => str_eqb (status issue) k) issues).

Definition has_entries (g : str * list GitHubIssue) : bool :=
  negb (length (snd g) =? 0)%nat.

Definition status_option (n : string) : IssueFiles.StatusOption :=
  {| IssueFiles.option_id := lit n; IssueFiles.option_name := lit n;
     IssueFiles.color := None |}.

Definition issue_with (n : N) (t s : string) : GitHubIssue :=
  {| number := n; title := lit t; body := []; repository := lit "octo/repo";
     url := lit "https://github.com/octo/repo/issues/" ++ decimal n;
     status := lit s; assignees := []; labels := [] |}.

(** The check of the header that [archiveOldIssues] makes on a file: it is
    a managed record whose number is not among the synced ones. *)
Definition is_stale (currentIssueNumbers : gset N) (f : TFile) : bool :=
  match parseFrontmatter (content f) with
  | Some frontmatter =>
      negb (bool_decide (fm_issue_number frontmatter ∈ currentIssueNumbers))
  | None => false
  end.

(** The files that [getIssueFiles] keeps: the markdown files that lie
    directly in the issues folder, are not named like the index, and have a
    valid header. *)
Definition is_issue_file (folder : str) (settings : PluginSettings)
    (f : TFile) : bool :=
  str_eqb (parent f) folder &&
  str_eqb (extension f) (lit "md") &&
  negb (str_eqb (name f) (indexFileName settings ++ lit ".md")) &&
  match parseFrontmatter (content f) with Some _ => true | None => false end.

(** The files that are archived. *)
Definition to_archive (normalizePath : str -> str) (v : Vault)
    (settings : PluginSettings) (currentIssueNumbers : gset N) (f : TFile)
  : bool :=
  let folder := IssueFiles.getIssuesFolderPath normalizePath settings in
  Store.isFolder v folder && is_issue_file folder settings f
  && is_stale currentIssueNumbers f.

(** A vault with the issues folder and files in it. *)
Definition issues_folder : str := lit "GitHub Issues/_issues".

Definition managed_file (filename : string) (n : N) : TFile :=
  {| parent := issues_folder; name := lit filename;
     content := lit "---" ++ [nl] ++ lit "url: " ++ [dq]
                ++ lit "https://github.com/octo/repo/issues/" ++ decimal n
                ++ [dq] ++ [nl] ++ lit "---" ++ [nl; nl] ++ lit "text" |}.

Definition plain_file (filename : string) : TFile :=
  {| parent := issues_folder; name := lit filename;
     content := lit "a note of mine" |}.

Definition three_issues : Vault :=
  [Folder issues_folder;
   File (managed_file "One (1).md" 1);
   File (managed_file "Two (2).md" 2);
   File (managed_file "Three (3).md" 3);
   File (plain_file "Four (4).md")].

Definition stray_records : Vault :=
  [Folder issues_folder;
   File (managed_file "Board.md" 2);
   File (managed_file "Two (2).txt" 2)].

(** What the loop of [archiveOldIssues] over the files [fs] does to a file
    of the vault when no rename is refused. *)
Definition archived_as (normalizePath : str -> str) (settings : PluginSettings)
    (currentIssueNumbers : gset N) (fs : list TFile) (g : TFile) : TFile :=
  if existsb (fun f => bool_decide (g = f)) fs && is_stale currentIssueNumbers g
  then Store.moved g (IssueFiles.newPath normalizePath settings g) else g.

(** The way to the archive is clear: the new paths of the files to archive
    are distinct, each holds a slash, and none is taken in the vault or is
    the path of the archive folder. *)
Definition archive_clear (normalizePath : str -> str) (v : Vault)
    (settings : PluginSettings) (currentIssueNumbers : gset N) : Prop :=
  let stale :=
    List.filter (to_archive normalizePath v settings currentIssueNumbers)
      (Store.getFiles v) in
  List.NoDup (List.map (IssueFiles.newPath normalizePath settings) stale) /\
  forall f, In f stale ->
    free_of "/"%char (IssueFiles.newPath normalizePath settings f) = false /\
    Store.taken v (IssueFiles.newPath normalizePath settings f) = false /\
    IssueFiles.newPath normalizePath settings f
    <> normalizePath (IssueFiles.archivePath normalizePath settings).

(** The vault of the three issues when the archive holds a file with the
    name of the second already. *)
Definition crowded_archive : Vault :=
  three_issues
  ++ [Folder (lit "GitHub Issues/_issues/_archive");
      File {| parent := lit "GitHub Issues/_issues/_archive";
              name := lit "Two (2).md"; content := lit "an older file" |}].

(** The uploads that the host accepted at an address. *)
Definition accepted_put (address : str) (q : Images.request * N) : bool :=
  match q with
  | (Images.PUT u _ _ b, s) =>
      str_eqb (Images.address_of u b) address && (s <? 400)%N
  | (Images.GET _, _) => false
  end.


(** An upload that the host accepted, at whatever address. *)
Definition accepted (q : Images.request * N) : bool :=
  Images.is_put q && (snd q <? 400)%N.




(** The images at the paths [paths] are processed one after the other. *)
Definition process_all (normalizePath sha256_hex base64 : str -> str)
    (v : Vault) (settings : PluginSettings) (paths : list str)
    (r : Images.Remote) : Images.Remote :=
  fold_left
    (fun r p =>
       fst (Images.processLocalImage normalizePath sha256_hex base64 v
              settings r p))
    paths r.

(** The address at which the bytes of a file are hosted. *)
Definition hosted_address (sha256_hex : str -> str)
    (settings : PluginSettings) (file : TFile) : str :=
  Images.address_of
    (Images.contents_url settings (Images.hosted_name sha256_hex file))
    (Images.branch_of settings).

(** A toy digest and a toy encoding, a vault with twice the same picture,
    settings with a hosting repository, and an empty host. *)
Definition toy_digest (bytes : str) : str :=
  lit "00000000000000" ++ decimal (N.of_nat (length bytes)).

Definition picture (folder filename : string) : TFile :=
  {| parent := lit folder; name := lit filename; content := lit "PNG-bytes" |}.

Definition two_pictures : Vault :=
  [File (picture "notes" "a.png"); File (picture "other" "b.PNG")].

(** The same bytes under two extensions. *)
Definition two_extensions : Vault :=
  [File {| parent := lit "img"; name := lit "photo.jpg";
           content := lit "JPEG-bytes" |};
   File {| parent := lit "img"; name := lit "photo.jpeg";
           content := lit "JPEG-bytes" |}].

Definition hosting_settings : PluginSettings :=
  {| githubBaseUrl := []; syncFolder := lit "GitHub Issues";
     indexFileName := lit "Board"; issuesFolder := lit "_issues";
     archiveFolder := lit "_archive"; imageHostingRepo := lit "octo/assets";
     imageHostingBranch := lit "main" |}.

Definition empty_host : Images.Remote :=
  {| Images.blobs := ∅; Images.writable := true; Images.requests := [] |}.




(** The two ways of writing a local image. *)
Definition wiki_embed (p : str) (label : option str) : str :=
  lit "![[" ++ p
  ++ match label with Some a => lit "|" ++ a | None => [] end ++ lit "]]".

Definition markdown_image (a p : str) : str :=
  lit "![" ++ a ++ lit "](" ++ p ++ lit ")".

(** A vault with a picture whose name holds the character that ends the
    capture of the marker, and one whose name holds two dollars. *)
Definition odd_pictures : Vault :=
  [File {| parent := lit "img"; name := lit "a>b.png"; content := lit "PNG-1" |};
   File {| parent := lit "img"; name := lit "a$$b.png"; content := lit "PNG-22" |};
   File {| parent := lit "img"; name := lit "c.png"; content := lit "PNG-333" |}].

(** The text that a push puts in place of a reference: the marker with the
    path, a line break and the image with its label and its remote URL. *)
Definition marker (p a u : str) : str :=
  lit "<!-- obsidian-local: " ++ p ++ lit " -->" ++ [nl]
  ++ lit "![" ++ a ++ lit "](" ++ u ++ lit ")".

(** The label that a push gives to the image of a wiki embed. *)
Definition label_text (p : str) (label : option str) : str :=
  match label with
  | Some (c :: a) => c :: a
  | _ => p
  end.

(** *** Bodies with local images

    A local image reference, as a body writes it: a wiki embed with its
    path and its optional label, or a markdown image with its label and
    its target. *)
Inductive reference :=
| Embed (p : str) (label : option str)
| Image (a p : str).

Definition ref_path (x : reference) : str :=
  match x with Embed p _ => p | Image _ p => p end.

(** The label that a push gives to the hosted image. *)
Definition ref_alt (x : reference) : str :=
  match x with Embed p label => label_text p label | Image a _ => a end.

Definition source (x : reference) : str :=
  match x with
  | Embed p label => wiki_embed p label
  | Image a p => markdown_image a p
  end.




(** A body: texts and references in turn, and a last text. *)
Definition body_of (render : reference -> str) (xs : list (str * reference))
    (last : str) : str :=
  List.concat (List.map (fun tx => fst tx ++ render (snd tx)) xs) ++ last.

(** The character [c] is nowhere followed by [d]. *)
Fixpoint no_pair (c d : ascii) (s : str) : bool :=
  match s with
  | [] => true
  | x :: s' =>
      negb (ch x c && match s' with y :: _ => ch y d | [] => false end)
      && no_pair c d s'
  end.










(** The remote URL of the image at a path, and the text that a push
    writes for a reference. *)
Definition url_of (normalizePath sha256_hex : str -> str) (v : Vault)
    (settings : PluginSettings) (p : str) : str :=
  match Images.findImageFile normalizePath v p with
  | Some f => Images.blob_url settings (Images.hosted_name sha256_hex f)
  | None => []
  end.

Definition hosted (normalizePath sha256_hex : str -> str) (v : Vault)
    (settings : PluginSettings) (x : reference) : str :=
  marker (ref_path x) (ref_alt x)
    (url_of normalizePath sha256_hex v settings (ref_path x)).


(** A pattern finds nothing that starts inside [w] when [rest] follows. *)
Definition quiet {A : Type} (m : str -> option A) (w rest : str) : Prop :=
  forall a b, w = a ++ b -> b <> [] -> m (b ++ rest) = None.






(** A body with two references to the same picture. *)
Definition sample_body : list (str * reference) :=
  [(lit "Look! ", Embed (lit "c.png") (Some (lit "300")));
   (lit " and ", Image (lit "the same") (lit "img/c.png"))].

(** A vault with a picture whose name holds an exclamation mark. *)
Definition marked_pictures : Vault :=
  [File {| parent := lit "img"; name := lit "wow!.png"; content := lit "PNG-1" |};
   File {| parent := lit "img"; name := lit "c.png"; content := lit "PNG-333" |}].

(** A body with a remote image and a comment in its first text, an embed
    whose path holds an exclamation mark and whose label starts with a
    bracket, and a markdown image. *)
Definition busy_text : str :=
  lit "See ![logo](https://example.org/logo.png) and <!-- draft --> ".

Definition busy_body : list (str * reference) :=
  [(busy_text, Embed (lit "img/wow!.png") (Some (lit "[new")));
   (lit " then ", Image (lit "a chart") (lit "img/c.png"))].

(** A host whose [normalizePath] drops the white space at the ends of a
    path, and settings whose branch holds a closing parenthesis. *)
Definition trimmed_path (p : str) : str := trim p.

Definition odd_branch_settings : PluginSettings :=
  {| githubBaseUrl := []; syncFolder := lit "GitHub Issues";
     indexFileName := lit "Board"; issuesFolder := lit "_issues";
     archiveFolder := lit "_archive"; imageHostingRepo := lit "octo/assets";
     imageHostingBranch := lit "a)b" |}.

(** ** The body of a file and what a push writes back
    ([extractBody] in [files/issue-files.ts], [pushCurrentIssue] in
    [sync/sync.ts]) *)

(** The body pattern: the opening fence and a line break at the start, a
    lazy run of any characters, a line break, the closing fence and a line
    break, an optional second line break, and all that follows (the
    captured body) up to the end.  Without a match the content is returned
    whole. *)
Definition extractBody (content : str) : str :=
  match Re.exact (lit "---" ++ [nl])
          (Re.lazy_star any_char (fun _ r =>
             Re.exact (nl :: lit "---" ++ [nl])
               (Re.opt nl (fun body => Some body)) r))
          content with
  | Some body => body
  | None => content
  end.

(** The header that a push writes back, and the new content of the file. *)
Definition updatedFrontmatter (frontmatter : IssueFrontmatter) : str :=
  lit "---" ++ [nl] ++ lit "url: " ++ [dq] ++ fm_url frontmatter ++ [dq]
  ++ [nl] ++ lit "---".

Definition newContent (frontmatter : IssueFrontmatter) (originalBody : str)
  : str :=
  updatedFrontmatter frontmatter ++ [nl; nl] ++ originalBody.

(** [frontmatter.repo.split("/")]. *)
Definition repoParts (frontmatter : IssueFrontmatter) : list str :=
  split "/"%char (fm_repo frontmatter).

(** The closing fence that follows [y] is the first one after the opening
    fence. *)
Definition first_fence (y : str) : Prop :=
  forall a b, y = a ++ b -> b <> [] ->
    startsWith (b ++ [nl] ++ lit "---") (nl :: lit "---") = false.

(** ** File names: what [sanitizeFilename] guarantees ([types.ts]) *)

(** A character that may stand in a file name. *)
Definition valid_name_char (c : ascii) : bool :=
  negb (Filenames.is_invalid_char c).

(** What the function is there for: a name that is not empty, of at most
    200 characters, without invalid character, and not reserved. *)
Definition safe_name (s : str) : Prop :=
  s <> [] /\ (length s <= 200)%nat /\ forallb valid_name_char s = true /\
  Filenames.is_reserved s = false.

Definition starts_clean (s : str) : Prop :=
  match s with [] => True | c :: _ => Filenames.is_dash_or_space c = false end.

(** A name that [sanitizeFilename] has nothing to do on. *)
Definition clean_name (s : str) : Prop :=
  safe_name s /\ no_pair "-"%char "-"%char s = true /\
  starts_clean s /\ starts_clean (rev s).

(** An issue of another repository whose file name is that of
    [sample_issue]. *)
Definition twin_issue : GitHubIssue :=
  {| number := 42; title := lit "Fix- crash"; body := [];
     repository := lit "other/repo";
     url := lit "https://github.com/other/repo/issues/42";
     status := lit "Done"; assignees := []; labels := [] |}.

(** ** The project URL ([parseProjectUrl] in [github/client.ts]) *)

Module Project.

(** ["orgs"] or ["users"]. *)
Inductive OwnerType := Orgs | Users.

Record ProjectInfo := {
  ownerType : OwnerType;
  owner : str;
  projectNumber : N
}.

Definition owner_segment (t : OwnerType) : str :=
  match t with Orgs => lit "orgs" | Users => lit "users" end.

(** One of the two project patterns at one position: a slash, [orgs] or
    [users], a slash, a run (+) of non-slash characters (the owner),
    [/projects/] and a run (+) of digits (the number). *)
Definition project_at (t : OwnerType) (s : str) : option (str * str) :=
  Re.exact (lit "/" ++ owner_segment t ++ lit "/")
    (Re.plus (is_not "/"%char) (fun owner =>
       Re.exact (lit "/projects/")
         (Re.plus is_digit (fun num _ => Some (owner, num)))))
    s.

Definition match_project (t : OwnerType) (url : str) : option (str * str) :=
  Re.search (project_at t) url.

Definition project_info (t : OwnerType) (m : str * str) : option ProjectInfo :=
  match parseInt (snd m) with
  | Some n => Some {| ownerType := t; owner := fst m; projectNumber := n |}
  | None => None
  end.

(** The organisation pattern is tried first, then the user pattern. *)
Definition parseProjectUrl (url : str) : option ProjectInfo :=
  match match_project Orgs url with
  | Some m => project_info Orgs m
  | None =>
      match match_project Users url with
      | Some m => project_info Users m
      | None => None
      end
  end.

End Project.

(** ** The retry loop: its schedule *)

(** The delays of the backoff, in ms. *)
Definition backoff_schedule : list N := [1000; 2000; 4000; 8000]%N.

(** An attempt that fails in a way that the loop retries. *)
Definition retried {T : Type} (attempt : nat) (o : Client.outcome T) : Prop :=
  exists e line, Client.try_block attempt o = Client.Proceed e line.

(** ** Local images before a push ([hasLocalImages] in [files/images.ts],
    its use in [pushCurrentIssue]) *)

(** [WIKILINK_IMAGE_REGEX.test(content)], then the loop over the matches of
    [MARKDOWN_IMAGE_REGEX] that stops at the first local path. *)
Definition hasLocalImages (content : str) : bool :=
  match Re.search Images.wikilink_at content with
  | Some _ => true
  | None =>
      existsb (fun m => Images.isLocalPath (Images.img_path m))
        (Images.scan Images.markdown_match 0 content)
  end.

(** The body that [pushCurrentIssue] sends, with the host after the
    requests made for it. *)
Definition bodyForGitHub (normalizePath sha256_hex base64 : str -> str)
    (v : Vault) (settings : PluginSettings) (r : Images.Remote)
    (originalBody : str) : Images.Remote * str :=
  if hasLocalImages originalBody then
    match imageHostingRepo settings with
    | _ :: _ =>
        let imageResult :=
          Images.processImagesOnPush normalizePath sha256_hex base64 v
            settings r originalBody in
        (fst imageResult, Images.pushed (snd imageResult))
    | [] => (r, originalBody)
    end
  else (r, originalBody).

(** The references that a push looks at: the wiki references, then the
    markdown images with a local path. *)
Definition local_references (content : str) : list Images.image_match :=
  Images.scan Images.wikilink_match 0 content
  ++ List.filter (fun m => Images.isLocalPath (Images.img_path m))
       (Images.scan Images.markdown_match 0 content).

(** The host [r'] is the host [r] after more requests: the record of [r]
    is kept, nothing that was hosted is lost, and nothing is added when the
    token cannot write. *)
Definition extends (r r' : Images.Remote) : Prop :=
  (exists new, Images.requests r' = Images.requests r ++ new) /\
  Images.blobs r ⊆ Images.blobs r' /\
  Images.writable r' = Images.writable r /\
  (Images.writable r = false -> Images.blobs r' = Images.blobs r).

(** A body with an image of the vault, a remote one and a missing one. *)
Definition mixed_image_body : str :=
  lit "A ![[a.png]], B ![b](http://example.org/b.png), C ![c](charts/q3.png).".

Definition missing_image_body : str :=
  lit "See ![[missing.png]] and ![chart](charts/q3.png).".

(** ** The files of a pull ([writeIndexFile] in [files/issue-files.ts],
    the loop of [syncProject] in [sync/sync.ts]) *)

Module Pull.
Import IssueFiles.

Section Host.
Variable normalizePath : str -> str.

(** [writeIndexFile]: as [writeIssueFile], in the sync folder and under
    the name of the index. *)
Definition writeIndexFile (v : Vault) (settings : PluginSettings)
    (issues : list GitHubIssue) (statusOptions : list StatusOption)
    (projectTitle : str) (iterationTitle : option str) (localeNow : str)
  : Vault * TFile :=
  let folderPath := normalizePath (syncFolder settings) in
  let v := Store.ensureFolder v (normalizePath folderPath) in
  let filePath :=
    normalizePath (folderPath ++ lit "/" ++ indexFileName settings ++ lit ".md") in
  let content :=
    generateIndexContent issues statusOptions projectTitle iterationTitle
      (issuesFolder settings) localeNow in
  match Store.getFileByPath v filePath with
  | Some existingFile => Store.modify v existingFile content
  | None => Store.create v filePath content
  end.

(** The loop [for (let i = 0; i < issues.length; i++)] of [syncProject]. *)
Definition write_issues (v : Vault) (settings : PluginSettings)
    (issues : list GitHubIssue) : Vault :=
  fold_left (fun v issue => fst (writeIssueFile normalizePath v settings issue))
    issues v.

(** What [syncProject] does to the vault with the issues it has fetched:
    the issue files, the index, and the archive when it is asked for.  The
    second component is [archivedCount], or [None] when the archive has
    thrown: [syncProject] throws the exception again, and the vault is as
    the archive left it. *)
Definition syncProject_files (v : Vault) (settings : PluginSettings)
    (issues : list GitHubIssue) (statusOptions : list StatusOption)
    (projectTitle : str) (iterationTitle : option str) (localeNow : str)
    (archiveOld : bool) : Vault * option nat :=
  let v := write_issues v settings issues in
  let v := fst (writeIndexFile v settings issues statusOptions projectTitle
                  iterationTitle localeNow) in
  if archiveOld then
    archiveOldIssues normalizePath v settings
      (list_to_set (List.map number issues))
  else (v, Some 0%nat).

(** The shape that [writeIssueFile] and [writeIndexFile] share: the folder
    is ensured, and the file of that name in it is modified or created. *)
Definition put_file (v : Vault) (folderPath filename content : str)
  : Vault * TFile :=
  let v := Store.ensureFolder v (normalizePath folderPath) in
  let filePath := normalizePath (folderPath ++ lit "/" ++ filename ++ lit ".md") in
  match Store.getFileByPath v filePath with
  | Some existingFile => Store.modify v existingFile content
  | None => Store.create v filePath content
  end.

(** The path at which [writeIssueFile] looks for the file of an issue, and
    the path of the index. *)
Definition issue_path (settings : PluginSettings) (issue : GitHubIssue) : str :=
  normalizePath (getIssuesFolderPath normalizePath settings ++ lit "/"
                 ++ Filenames.generateIssueFilename issue ++ lit ".md").

Definition index_path (settings : PluginSettings) : str :=
  normalizePath (normalizePath (syncFolder settings) ++ lit "/"
                 ++ indexFileName settings ++ lit ".md").

(** The host's [normalizePath] leaves the paths of the issue as they are
    (they are normalized already), and no folder lies where the file of the
    issue goes. *)
Definition steady (v : Vault) (settings : PluginSettings)
    (issue : GitHubIssue) : Prop :=
  let folderPath := getIssuesFolderPath normalizePath settings in
  normalizePath folderPath = folderPath /\
  issue_path settings issue
  = folderPath ++ lit "/" ++ Filenames.generateIssueFilename issue ++ lit ".md" /\
  Store.isFolder v (issue_path settings issue) = false.

(** The same for the index. *)
Definition steady_index (v : Vault) (settings : PluginSettings) : Prop :=
  let folderPath := normalizePath (syncFolder settings) in
  normalizePath folderPath = folderPath /\
  index_path settings
  = folderPath ++ lit "/" ++ indexFileName settings ++ lit ".md" /\
  Store.isFolder v (index_path settings) = false.
End Host.

End Pull.

(** The test that [getAbstractFileByPath] makes on an entry of the vault. *)
Definition at_path (p : str) (n : TAbstractFile) : bool :=
  match n with
  | File f => str_eqb (path f) p
  | Folder q => str_eqb q p
  end.

(** [vault.modify(e, c)] on one entry. *)
Definition set_content (e : TFile) (c : str) (n : TAbstractFile)
  : TAbstractFile :=
  match n with
  | File f => if bool_decide (f = e)
              then File {| parent := parent e; name := name e; content := c |}
              else n
  | Folder _ => n
  end.

(** The URL of the issue is canonical and carries its number. *)
Definition canonical_issue (issue : GitHubIssue) : Prop :=
  exists scheme host owner repo,
    url issue = canonical_issue_url scheme host owner repo (number issue) /\
    url_text (url issue) = true /\
    free_of "/"%char scheme = true /\ free_of "/"%char host = true /\
    free_of "/"%char owner = true /\ free_of "/"%char repo = true /\
    owner <> [] /\ repo <> [].

(** A vault with a note and a file of an issue that is no longer synced. *)
Definition old_vault : Vault :=
  [Folder issues_folder;
   File (managed_file "Old (7).md" 7);
   File (plain_file "Notes.md")].

(** ** The addresses of the service ([github/auth.ts], [github/client.ts]) *)

Definition getGitHubApiUrl (githubBaseUrl : str) : str :=
  if match githubBaseUrl with [] => true | _ :: _ => false end
     || str_eqb githubBaseUrl (lit "github.com")
  then lit "https://api.github.com"
  else lit "https://" ++ githubBaseUrl ++ lit "/api/v3".

(** [graphqlUrl] of [graphqlRequest]. *)
Definition graphqlUrl (githubBaseUrl : str) : str :=
  let apiUrl := getGitHubApiUrl githubBaseUrl in
  if includes apiUrl (lit "api.github.com")
  then lit "https://api.github.com/graphql"
  else apiUrl ++ lit "/graphql".

(** The issues that the index lists, section by section. *)
Definition listed (issues : list GitHubIssue)
    (statusOptions : list IssueFiles.StatusOption) : list GitHubIssue :=
  List.concat (List.map snd (IssueFiles.sections issues statusOptions)).

(** The file name that [findImageFile] searches the vault for: the last
    segment of the path. *)
Definition searched_name (imagePath : str) : str :=
  Images.or_else (List.last (split "/"%char imagePath) []) imagePath.

Definition image_extensions : list str :=
  [lit "png"; lit "jpg"; lit "jpeg"; lit "gif"; lit "webp"; lit "svg"].

(** * Properties *)

Example parse_sample :
  parseFrontmatter (generateFrontmatter sample_issue)
  = Some {| fm_url := lit "https://github.com/octo/repo/issues/42";
            fm_repo := lit "octo/repo"; fm_issue_number := 42 |}.
Proof. vm_compute. reflexivity. Qed.

(** ** Facts on strings *)

Lemma ch_true (c d : ascii) : ch c d = true <-> c = d.
Proof. unfold ch. apply Ascii.eqb_eq. Qed.

Lemma ch_refl (c : ascii) : ch c c = true.
Proof. apply ch_true. reflexivity. Qed.

Lemma ch_false (c d : ascii) : ch c d = false <-> c <> d.
Proof. unfold ch. apply Ascii.eqb_neq. Qed.

Lemma str_eqb_true (a b : str) : str_eqb a b = true <-> a = b.
Proof. unfold str_eqb. apply bool_decide_eq_true. Qed.

Lemma str_eqb_refl (a : str) : str_eqb a a = true.
Proof. apply str_eqb_true. reflexivity. Qed.

Lemma strip_prefix_app (p s : str) : strip_prefix p (p ++ s) = Some s.
Proof.
  induction p as [|c p IH]; simpl; [reflexivity|].
  rewrite ch_refl. exact IH.
Qed.

Lemma strip_prefix_Some (p s r : str) :
  strip_prefix p s = Some r -> s = p ++ r.
Proof.
  revert s. induction p as [|c p IH]; intros s H; simpl in *.
  - congruence.
  - destruct s as [|d s]; [discriminate|].
    destruct (ch c d) eqn:E; [|discriminate].
    apply ch_true in E. subst d. f_equal. apply IH. exact H.
Qed.

Lemma strip_prefix_head (p s : str) (c d : ascii) :
  c <> d -> strip_prefix (c :: p) (d :: s) = None.
Proof. intros H. simpl. apply ch_false in H. rewrite H. reflexivity. Qed.

Lemma free_of_app (c : ascii) (a b : str) :
  free_of c (a ++ b) = free_of c a && free_of c b.
Proof. unfold free_of. apply forallb_app. Qed.

Lemma split_free (sep : ascii) (s : str) :
  free_of sep s = true -> split sep s = [s].
Proof.
  induction s as [|c s IH]; simpl; [reflexivity|].
  intros H. apply andb_true_iff in H as [Hc Hs].
  unfold is_not in Hc. apply negb_true_iff in Hc. rewrite Hc.
  rewrite (IH Hs). reflexivity.
Qed.

Lemma split_not_nil (sep : ascii) (s : str) : split sep s <> [].
Proof.
  induction s as [|c s IH]; simpl; [discriminate|].
  destruct (ch c sep); [discriminate|].
  destruct (split sep s); discriminate.
Qed.

Lemma split_app (sep : ascii) (a b : str) :
  split sep (a ++ sep :: b) = split sep a ++ split sep b.
Proof.
  induction a as [|c a IH]; simpl.
  - rewrite ch_refl. reflexivity.
  - destruct (ch c sep); [rewrite IH; reflexivity|].
    rewrite IH. pose proof (split_not_nil sep a) as Hne.
    destruct (split sep a) as [|l ls]; [congruence|reflexivity].
Qed.

(** ** Facts on the pattern combinators *)

Section ReFacts.
Context {R : Type}.
Implicit Types (p : ascii -> bool) (k : str -> str -> option R).

Lemma star_sound p k s x :
    Re.star p k s = Some x ->
    exists cap r, s = cap ++ r /\ forallb p cap = true /\ k cap r = Some x.
Proof.
    revert k. induction s as [|c s IH]; intros k H; simpl in H.
    - exists [], []. auto.
    - destruct (p c) eqn:Hp.
      + destruct (Re.star p (fun cap r => k (c :: cap) r) s) as [y|] eqn:E.
        * injection H as ->.
          apply IH in E as (cap & r & -> & Hcap & Hk).
          exists (c :: cap), r. simpl. rewrite Hp, Hcap. auto.
        * exists [], (c :: s). auto.
      + exists [], (c :: s). auto.
Qed.

  (** The greedy run is tried first. *)
Lemma star_first p k run rest x :
    forallb p run = true -> stops p rest -> k run rest = Some x ->
    Re.star p k (run ++ rest) = Some x.
Proof.
    revert k. induction run as [|c run IH]; intros k Hrun Hrest Hk.
    - destruct rest as [|d rest]; simpl; [exact Hk|].
      simpl in Hrest. rewrite Hrest. exact Hk.
    - simpl in Hrun. apply andb_true_iff in Hrun as [Hc Hrun].
      simpl. rewrite Hc.
      rewrite (IH (fun cap r => k (c :: cap) r) Hrun Hrest Hk). reflexivity.
Qed.

  (** When the rest of the pattern cannot start on a class character, only
      the longest run can succeed. *)
Lemma star_det p k run rest :
    (forall cap c r, p c = true -> k cap (c :: r) = None) ->
    forallb p run = true -> stops p rest ->
    Re.star p k (run ++ rest) = k run rest.
Proof.
    revert k. induction run as [|c run IH]; intros k Hk Hrun Hrest.
    - destruct rest as [|d rest]; simpl; [reflexivity|].
      simpl in Hrest. rewrite Hrest. reflexivity.
    - simpl in Hrun. apply andb_true_iff in Hrun as [Hc Hrun].
      simpl. rewrite Hc.
      rewrite (IH (fun cap r => k (c :: cap) r)); auto.
      destruct (k (c :: run) rest) eqn:E; [reflexivity|].
      apply Hk. exact Hc.
Qed.

Lemma plus_sound p k s x :
    Re.plus p k s = Some x ->
    exists c cap r, s = c :: cap ++ r /\ forallb p (c :: cap) = true
                    /\ k (c :: cap) r = Some x.
Proof.
    unfold Re.plus. destruct s as [|c s]; [discriminate|].
    destruct (p c) eqn:Hp; [|discriminate].
    intros H. apply star_sound in H as (cap & r & -> & Hcap & Hk).
    exists c, cap, r. simpl. rewrite Hp, Hcap. auto.
Qed.

Lemma plus_first p k c run rest x :
    forallb p (c :: run) = true -> stops p rest ->
    k (c :: run) rest = Some x ->
    Re.plus p k (c :: run ++ rest) = Some x.
Proof.
    simpl. intros H Hrest Hk. apply andb_true_iff in H as [Hc Hrun].
    rewrite Hc. apply (star_first p (fun cap r => k (c :: cap) r)); auto.
Qed.

Lemma plus_det p k c run rest :
    (forall cap d r, p d = true -> k cap (d :: r) = None) ->
    forallb p (c :: run) = true -> stops p rest ->
    Re.plus p k (c :: run ++ rest) = k (c :: run) rest.
Proof.
    simpl. intros Hk H Hrest. apply andb_true_iff in H as [Hc Hrun].
    rewrite Hc. apply (star_det p (fun cap r => k (c :: cap) r)); auto.
Qed.

Lemma plus_stops p k s : stops p s -> Re.plus p k s = None.
Proof.
    destruct s as [|c s]; simpl; [reflexivity|]. intros ->. reflexivity.
Qed.

  (** The lazy run is the shortest one that lets the rest match. *)
Lemma lazy_sound p k s x :
    Re.lazy_star p k s = Some x ->
    exists cap r, s = cap ++ r /\ k cap r = Some x /\
      forall a b, cap = a ++ b -> b <> [] -> k a (b ++ r) = None.
Proof.
    revert k. induction s as [|c s IH]; intros k H; simpl in H.
    - destruct (k [] []) eqn:E; [|discriminate].
      exists [], []. repeat split; [congruence|].
      intros a b Hab Hb. symmetry in Hab.
      apply app_eq_nil in Hab as [_ ->]. congruence.
    - destruct (k [] (c :: s)) eqn:E.
      + exists [], (c :: s). repeat split; [congruence|].
        intros a b Hab Hb. symmetry in Hab.
        apply app_eq_nil in Hab as [_ ->]. congruence.
      + destruct (p c); [|discriminate].
        apply IH in H as (cap & r & -> & Hk & Hmin).
        exists (c :: cap), r. repeat split; [exact Hk|].
        intros a b Hab Hb. destruct a as [|a0 a].
        * simpl in Hab. subst b. exact E.
        * simpl in Hab. injection Hab as -> ->.
          apply (Hmin a b); auto.
Qed.

Lemma lazy_first p k cap rest x :
    (forall a b, cap = a ++ b -> b <> [] -> k a (b ++ rest) = None) ->
    forallb p cap = true -> k cap rest = Some x ->
    Re.lazy_star p k (cap ++ rest) = Some x.
Proof.
    revert k. induction cap as [|c cap IH]; intros k Hmin Hcap Hk.
    - simpl. destruct rest; simpl; rewrite Hk; reflexivity.
    - simpl in Hcap. apply andb_true_iff in Hcap as [Hc Hcap].
      assert (H0 : k [] (c :: cap ++ rest) = None)
        by (apply (Hmin [] (c :: cap)); [reflexivity|discriminate]).
      simpl. rewrite H0, Hc.
      apply (IH (fun cap r => k (c :: cap) r)); auto.
      intros a b -> Hb. apply (Hmin (c :: a) b); auto.
Qed.

Lemma exact_app (l s : str) (k : str -> option R) :
    Re.exact l k (l ++ s) = k s.
Proof. unfold Re.exact. rewrite strip_prefix_app. reflexivity. Qed.

Lemma exact_sound (l s : str) (k : str -> option R) x :
    Re.exact l k s = Some x -> exists r, s = l ++ r /\ k r = Some x.
Proof.
    unfold Re.exact. destruct (strip_prefix l s) eqn:E; [|discriminate].
    apply strip_prefix_Some in E. eauto.
Qed.

Lemma search_sound (m : str -> option R) s x :
    Re.search m s = Some x -> exists a b, s = a ++ b /\ m b = Some x.
Proof.
    induction s as [|c s IH]; simpl.
    - destruct (m []) eqn:E; [|discriminate]. intros <-. exists [], []. auto.
    - destruct (m (c :: s)) eqn:E.
      + intros <-. exists [], (c :: s). auto.
      + intros H. apply IH in H as (a & b & -> & Hb).
        exists (c :: a), b. auto.
Qed.

  (** Positions at which the pattern fails are passed over. *)
Lemma search_skip (m : str -> option R) pre rest :
    (forall a b, pre = a ++ b -> b <> [] -> m (b ++ rest) = None) ->
    Re.search m (pre ++ rest) = Re.search m rest.
Proof.
    induction pre as [|c pre IH]; intros H; [reflexivity|].
    assert (H0 : m (c :: pre ++ rest) = None)
      by (apply (H [] (c :: pre)); [reflexivity|discriminate]).
    simpl. rewrite H0.
    apply IH. intros a b -> Hb. apply (H (c :: a) b); auto.
Qed.

Lemma search_here (m : str -> option R) s x :
    m s = Some x -> Re.search m s = Some x.
Proof. intros H. destruct s; simpl; rewrite H; reflexivity. Qed.
End ReFacts.

(** ** Numbers in decimal *)

Lemma uint_digits (d : Decimal.uint) :
  forallb is_digit (list_ascii_of_string (NilEmpty.string_of_uint d)) = true.
Proof. induction d; simpl; auto. Qed.

Lemma decimal_digits (n : N) : forallb is_digit (decimal n) = true.
Proof. apply uint_digits. Qed.

Lemma parseInt_decimal (n : N) : parseInt (decimal n) = Some n.
Proof.
  unfold parseInt, decimal. rewrite string_of_list_ascii_of_string.
  rewrite NilEmpty.usu. simpl. f_equal. apply DecimalN.Unsigned.of_to.
Qed.

Lemma decimal_not_nil (n : N) : decimal n <> [].
Proof.
  intros H. pose proof (parseInt_decimal n) as P. rewrite H in P.
  vm_compute in P. injection P as <-. vm_compute in H. discriminate.
Qed.

Lemma digit_not (c d : ascii) :
  is_digit d = false -> is_digit c = true -> is_not d c = true.
Proof.
  intros Hd Hc. unfold is_not. apply negb_true_iff. apply ch_false.
  intros ->. congruence.
Qed.

Lemma digits_free (d : ascii) (s : str) :
  is_digit d = false -> forallb is_digit s = true -> free_of d s = true.
Proof.
  intros Hd. induction s as [|c s IH]; simpl; [reflexivity|].
  intros H. apply andb_true_iff in H as [Hc Hs].
  rewrite (digit_not c d Hd Hc). simpl. apply IH. exact Hs.
Qed.

(** ** The identity codec: decoding *)

Lemma match_frontmatter_header (content y : str) :
  match_frontmatter content = Some y -> header_block content y.
Proof.
  unfold match_frontmatter. intros H.
  apply exact_sound in H as (r0 & -> & H).
  apply lazy_sound in H as (cap & r & -> & Hk & Hmin).
  apply exact_sound in Hk as (rest & -> & Hk). injection Hk as ->.
  exists rest. split.
  - rewrite <- !app_assoc. reflexivity.
  - intros a b Hab Hb. specialize (Hmin a b Hab Hb).
    unfold Re.exact in Hmin. unfold startsWith.
    change ([nl] ++ lit "---" ++ rest) with ((nl :: lit "---") ++ rest).
    destruct (strip_prefix (nl :: lit "---") (b ++ (nl :: lit "---") ++ rest));
      [discriminate|reflexivity].
Qed.

Lemma match_url_line_prefix (line u : str) :
  match_url_line line = Some u -> startsWith line (lit "url:") = true.
Proof.
  unfold match_url_line. intros H. apply exact_sound in H as (r & -> & _).
  unfold startsWith. rewrite strip_prefix_app. reflexivity.
Qed.

Lemma first_url_line (lines : list str) (u : str) :
  first_url lines = Some u ->
  exists line, In line lines /\ startsWith line (lit "url:") = true.
Proof.
  induction lines as [|l ls IH]; simpl; [discriminate|].
  destruct (match_url_line l) eqn:E.
  - intros _. exists l. split; [auto|]. eapply match_url_line_prefix; eauto.
  - intros H. destruct (IH H) as (line & Hin & Hp). exists line. auto.
Qed.

Lemma match_issue_url_shape (u owner repo num : str) :
  match_issue_url u = Some (owner, repo, num) ->
  exists pre rest,
    u = pre ++ lit "/" ++ owner ++ lit "/" ++ repo ++ lit "/issues/"
        ++ num ++ rest /\
    owner <> [] /\ free_of "/"%char owner = true /\
    repo <> [] /\ free_of "/"%char repo = true /\
    num <> [] /\ forallb is_digit num = true.
Proof.
  unfold match_issue_url. intros H.
  apply search_sound in H as (pre & b & -> & H).
  unfold match_issue_url_at in H.
  apply exact_sound in H as (r0 & -> & H).
  apply plus_sound in H as (c1 & o & r1 & -> & Ho & H).
  apply exact_sound in H as (r2 & -> & H).
  apply plus_sound in H as (c2 & rp & r3 & -> & Hr & H).
  apply exact_sound in H as (r4 & -> & H).
  apply plus_sound in H as (c3 & ds & r5 & -> & Hd & H).
  injection H as <- <- <-.
  exists pre, r5. repeat split; try discriminate; auto.
Qed.

Lemma parseFrontmatter_Some (content : str) (r : IssueFrontmatter) :
  parseFrontmatter content = Some r ->
  exists y,
    header_block content y /\
    (exists line, In line (split nl y) /\ startsWith line (lit "url:") = true) /\
    fm_url r <> [] /\ issue_url_shape (fm_url r).
Proof.
  unfold parseFrontmatter.
  destruct (match_frontmatter content) as [y|] eqn:Ey; [|discriminate].
  destruct (first_url (split nl y)) as [u|] eqn:Eu; [|discriminate].
  destruct u as [|c u]; [discriminate|].
  destruct (match_issue_url (c :: u)) as [[[owner repo] num]|] eqn:Em;
    [|discriminate].
  destruct (parseInt num) as [n|]; [|discriminate].
  intros H. injection H as <-. simpl.
  exists y. split; [apply match_frontmatter_header; exact Ey|].
  split; [eapply first_url_line; eauto|].
  split; [discriminate|].
  apply match_issue_url_shape in Em as (pre & rest & E & H).
  exists pre, owner, repo, num, rest. split; [exact E|exact H].
Qed.

(** C8.  [parseFrontmatter] is total: on every content it gives a record
    or no record, never an exception.  It gives no record when the header
    block is absent, when no line of the header block names the [url]
    field, and a record it gives always carries a URL of the shape
    [.../{owner}/{repo}/issues/{number}], so a URL without that shape
    gives no record. *)
Theorem parseFrontmatter_total (content : str) :
  (parseFrontmatter content = None \/
   exists r, parseFrontmatter content = Some r) /\
  (~ has_header_block content -> parseFrontmatter content = None) /\
  (url_field_missing content -> parseFrontmatter content = None) /\
  (forall r, parseFrontmatter content = Some r -> issue_url_shape (fm_url r)).
Proof.
  split; [destruct (parseFrontmatter content); eauto|].
  split; [|split].
  - intros Hno. destruct (parseFrontmatter content) as [r|] eqn:E; [|reflexivity].
    exfalso. apply Hno. apply parseFrontmatter_Some in E as (y & (rest & -> & _) & _).
    exists y, rest. reflexivity.
  - intros Hmiss. destruct (parseFrontmatter content) as [r|] eqn:E; [|reflexivity].
    exfalso. apply parseFrontmatter_Some in E as (y & Hy & (line & Hin & Hp) & _).
    rewrite (Hmiss y line Hy Hin) in Hp. discriminate.
  - intros r E. apply parseFrontmatter_Some in E as (y & _ & _ & _ & H). exact H.
Qed.

(** A file without a header block: no record. *)
Lemma parseFrontmatter_total_witness :
  parseFrontmatter (lit "just a note") = None.
Proof.
  apply (proj1 (proj2 (parseFrontmatter_total (lit "just a note")))).
  intros (y & rest & H). vm_compute in H. discriminate.
Defined.

(** ** The identity codec: the round trip *)

Lemma free_of_head (c d : ascii) (a b : str) :
  free_of c (a ++ d :: b) = true -> d <> c.
Proof.
  rewrite free_of_app. intros H. apply andb_true_iff in H as [_ H].
  simpl in H. apply andb_true_iff in H as [H _].
  unfold is_not in H. apply negb_true_iff in H. apply ch_false in H. exact H.
Qed.

Lemma is_not_true (c d : ascii) : is_not d c = true <-> c <> d.
Proof. unfold is_not. rewrite negb_true_iff. apply ch_false. Qed.

Lemma exact_head_fail {R} (c d : ascii) (l s : str) (k : str -> option R) :
  d <> c -> Re.exact (c :: l) k (d :: s) = None.
Proof.
  intros H. unfold Re.exact. rewrite strip_prefix_head; auto.
Qed.

Lemma match_issue_url_at_head (c : ascii) (s : str) :
  c <> "/"%char -> match_issue_url_at (c :: s) = None.
Proof. intros H. unfold match_issue_url_at. apply exact_head_fail. exact H. Qed.

Lemma issues_after_repo {R} (k : str -> str -> option R) (repo d : str) :
  free_of "/"%char repo = true -> repo <> [] ->
  forallb is_digit d = true ->
  Re.exact (lit "/issues/") (Re.plus is_digit k)
    (lit "/" ++ repo ++ lit "/issues/" ++ d) = None.
Proof.
  intros Hf Hne Hd. unfold Re.exact.
  destruct (strip_prefix (lit "/issues/") (lit "/" ++ repo ++ lit "/issues/" ++ d))
    as [r|] eqn:E; [|reflexivity].
  apply strip_prefix_Some in E.
  simpl in E. injection E as E.
  destruct repo as [|c1 [|c2 [|c3 [|c4 [|c5 [|c6 [|c7 repo]]]]]]];
    simpl in E; try congruence.
  - injection E as -> -> -> -> -> -> <-. reflexivity.
  - injection E as -> -> -> -> -> -> -> _. vm_compute in Hf. discriminate.
Qed.

Lemma slash_then_fail {R} (k : str -> option R) (cap : str) (c : ascii) (r : str) :
  is_not "/"%char c = true -> Re.exact (lit "/") k (c :: r) = None.
Proof. intros H. apply exact_head_fail. apply is_not_true. exact H. Qed.

Lemma free_of_stops (c : ascii) (s : str) : stops (is_not c) (c :: s).
Proof. simpl. unfold is_not. rewrite ch_refl. reflexivity. Qed.

Lemma search_next {R} (m : str -> option R) (c : ascii) (s : str) :
  m (c :: s) = None -> Re.search m (c :: s) = Re.search m s.
Proof. intros H. simpl. rewrite H. reflexivity. Qed.

Lemma match_issue_url_canonical (scheme host owner repo : str) (n : N) :
  free_of "/"%char scheme = true -> free_of "/"%char host = true ->
  free_of "/"%char owner = true -> free_of "/"%char repo = true ->
  owner <> [] -> repo <> [] ->
  match_issue_url (canonical_issue_url scheme host owner repo n)
  = Some (owner, repo, decimal n).
Proof.
  intros Hs Hh Ho Hr Hone Hrne.
  unfold match_issue_url, canonical_issue_url.
  set (tail := lit "/" ++ owner ++ lit "/" ++ repo ++ lit "/issues/" ++ decimal n).
  assert (Htail : match_issue_url_at tail = Some (owner, repo, decimal n)).
  { unfold tail, match_issue_url_at. rewrite exact_app.
    destruct owner as [|o os]; [congruence|].
    change ((o :: os) ++ lit "/" ++ repo ++ lit "/issues/" ++ decimal n)
      with (o :: os ++ ("/"%char :: repo ++ lit "/issues/" ++ decimal n)).
    rewrite plus_det; [| intros; apply slash_then_fail; auto | exact Ho
                       | apply free_of_stops].
    change ("/"%char :: repo ++ lit "/issues/" ++ decimal n)
      with (lit "/" ++ repo ++ lit "/issues/" ++ decimal n).
    rewrite exact_app.
    destruct repo as [|p ps]; [congruence|].
    change ((p :: ps) ++ lit "/issues/" ++ decimal n)
      with (p :: ps ++ (lit "/issues/" ++ decimal n)).
    rewrite plus_det; [| intros; apply exact_head_fail; apply is_not_true; auto
                       | exact Hr | apply free_of_stops].
    rewrite exact_app.
    pose proof (decimal_not_nil n) as Hd. pose proof (decimal_digits n) as Hdg.
    destruct (decimal n) as [|d ds]; [congruence|].
    rewrite <- (app_nil_r ds) at 1.
    apply plus_first; [exact Hdg | exact I | reflexivity]. }
  replace (scheme ++ lit "://" ++ host ++ tail)
    with ((scheme ++ lit ":") ++ "/"%char :: "/"%char :: host ++ tail)
    by (rewrite <- app_assoc; reflexivity).
  rewrite search_skip.
  2:{ intros a b Hab Hb. destruct b as [|c b]; [congruence|].
      apply match_issue_url_at_head.
      apply (free_of_head "/"%char c a b). rewrite <- Hab.
      rewrite free_of_app, Hs. reflexivity. }
  (* the two slashes after the scheme *)
  assert (H1 : match_issue_url_at ("/"%char :: "/"%char :: host ++ tail) = None).
  { unfold match_issue_url_at.
    change ("/"%char :: "/"%char :: host ++ tail)
      with (lit "/" ++ "/"%char :: host ++ tail).
    rewrite exact_app. apply plus_stops. apply free_of_stops. }
  assert (H2 : match_issue_url_at ("/"%char :: host ++ tail) = None).
  { unfold match_issue_url_at.
    change ("/"%char :: host ++ tail) with (lit "/" ++ host ++ tail).
    rewrite exact_app. destruct host as [|h hs].
    - apply plus_stops. unfold tail. apply free_of_stops.
    - unfold tail.
      change ((h :: hs) ++ lit "/" ++ owner ++ lit "/" ++ repo ++ lit "/issues/" ++ decimal n)
        with (h :: hs ++ ("/"%char :: owner ++ lit "/" ++ repo ++ lit "/issues/" ++ decimal n)).
      rewrite plus_det; [| intros; apply slash_then_fail; auto | exact Hh
                         | apply free_of_stops].
      change ("/"%char :: owner ++ lit "/" ++ repo ++ lit "/issues/" ++ decimal n)
        with (lit "/" ++ owner ++ lit "/" ++ repo ++ lit "/issues/" ++ decimal n).
      rewrite exact_app.
      destruct owner as [|o os]; [congruence|].
      change ((o :: os) ++ lit "/" ++ repo ++ lit "/issues/" ++ decimal n)
        with (o :: os ++ (lit "/" ++ repo ++ lit "/issues/" ++ decimal n)).
      rewrite plus_det; [| intros; apply exact_head_fail; apply is_not_true; auto
                         | exact Ho | apply free_of_stops].
      apply issues_after_repo; auto. apply decimal_digits. }
  rewrite (search_next _ _ _ H1), (search_next _ _ _ H2).
  rewrite search_skip.
  2:{ intros a b Hab Hb. destruct b as [|c b]; [congruence|].
      apply match_issue_url_at_head.
      apply (free_of_head "/"%char c a b). rewrite <- Hab. exact Hh. }
  apply search_here. exact Htail.
Qed.

Lemma match_url_line_quoted (u : str) :
  free_of dq u = true ->
  match_url_line (lit "url: " ++ [dq] ++ u ++ [dq]) = Some u.
Proof.
  intros Hu. unfold match_url_line.
  change (lit "url: " ++ [dq] ++ u ++ [dq])
    with (lit "url:" ++ [" "%char] ++ (dq :: u ++ [dq])).
  rewrite exact_app.
  apply star_first; [reflexivity | reflexivity |].
  unfold Re.opt at 1. rewrite ch_refl.
  assert (E : Re.star (is_not dq)
                (fun cap : str =>
                   Re.opt dq (Re.star is_space (fun _ : str => Re.eos cap)))
                (u ++ [dq]) = Some u).
  { apply star_first; [exact Hu | apply free_of_stops |].
    unfold Re.opt. rewrite ch_refl. reflexivity. }
  rewrite E. reflexivity.
Qed.

Lemma match_frontmatter_generated (line : str) :
  free_of nl line = true ->
  match_frontmatter (lit "---" ++ [nl] ++ line ++ [nl] ++ lit "---") = Some line.
Proof.
  intros Hl. unfold match_frontmatter.
  replace (lit "---" ++ [nl] ++ line ++ [nl] ++ lit "---")
    with ((lit "---" ++ [nl]) ++ line ++ (nl :: lit "---") ++ [])
    by (rewrite app_nil_r, <- !app_assoc; reflexivity).
  rewrite exact_app.
  apply lazy_first.
  - intros a b Hab Hb. destruct b as [|c b]; [congruence|].
    apply exact_head_fail. apply (free_of_head nl c a b).
    rewrite <- Hab. exact Hl.
  - clear. induction line; simpl; auto.
  - rewrite exact_app. reflexivity.
Qed.

(** C3.  Round trip of the identity codec: for an issue whose canonical URL
    is [scheme://host/{owner}/{repo}/issues/{number}] (a URL: one line, no
    double quote; owner and repository are non-empty path segments),
    parsing the front matter generated for the issue gives back the URL,
    the repository [owner/repo] and the number of the issue. *)
Theorem encode_decode_identity (issue : GitHubIssue)
    (scheme host owner repo : str) :
  url issue = canonical_issue_url scheme host owner repo (number issue) ->
  url_text (url issue) = true ->
  free_of "/"%char scheme = true -> free_of "/"%char host = true ->
  free_of "/"%char owner = true -> free_of "/"%char repo = true ->
  owner <> [] -> repo <> [] ->
  parseFrontmatter (generateFrontmatter issue)
  = Some {| fm_url := url issue;
            fm_repo := owner ++ lit "/" ++ repo;
            fm_issue_number := number issue |}.
Proof.
  intros Hu Ht Hs Hh Ho Hr Hone Hrne.
  apply andb_true_iff in Ht as [Hq Hn].
  unfold parseFrontmatter, generateFrontmatter.
  assert (Hline : free_of nl (lit "url: " ++ [dq] ++ url issue ++ [dq]) = true).
  { rewrite !free_of_app, Hn. reflexivity. }
  change (join [nl] [lit "---"; lit "url: " ++ [dq] ++ url issue ++ [dq]; lit "---"])
    with (lit "---" ++ [nl] ++ (lit "url: " ++ [dq] ++ url issue ++ [dq])
          ++ [nl] ++ lit "---").
  rewrite (match_frontmatter_generated _ Hline).
  rewrite (split_free _ _ Hline).
  cbn [first_url]. rewrite (match_url_line_quoted _ Hq).
  destruct (url issue) as [|c u] eqn:Eu.
  { exfalso. unfold canonical_issue_url in Hu. symmetry in Hu.
    apply app_eq_nil in Hu as [_ Hu]. discriminate. }
  rewrite Hu.
  rewrite (match_issue_url_canonical scheme host owner repo (number issue));
    auto.
  rewrite parseInt_decimal. reflexivity.
Qed.

Lemma encode_decode_identity_witness :
  parseFrontmatter (generateFrontmatter sample_issue)
  = Some {| fm_url := url sample_issue;
            fm_repo := lit "octo" ++ lit "/" ++ lit "repo";
            fm_issue_number := number sample_issue |}.
Proof.
  apply (encode_decode_identity sample_issue (lit "https") (lit "github.com")
           (lit "octo") (lit "repo")); try reflexivity; discriminate.
Defined.

(** ** The query client *)

Module ClientFacts.
Import Client.

Section ClientFacts.
Context {T : Type}.
Implicit Types (transport : nat -> outcome T) (o : outcome T).

Lemma try_block_error attempt o e :
  (try_block attempt o = Thrown e \/ exists l, try_block attempt o = Proceed e l) ->
  observed_error o = Some e.
Proof.
  assert (C : forall err, (catch_block (T:=T) attempt err = Thrown e \/
                           exists l, catch_block (T:=T) attempt err = Proceed e l) ->
                          err = e).
  { intros err. unfold catch_block. destruct err as [m|].
    - destruct (isRetryable m && (attempt <? MAX_RETRIES - 1)%nat);
        intros [H|[l H]]; congruence.
    - intros [H|[l H]]; congruence. }
  unfold try_block, observed_error. destruct o as [s j|err].
  - destruct (s =? 200)%N.
    + destruct j as [errors data|m].
      * destruct (0 <? length errors)%nat.
        -- intros H. f_equal. apply C. exact H.
        -- intros [H|[l H]]; discriminate.
      * intros H. f_equal. apply C. exact H.
    + destruct (existsb (N.eqb s) RETRYABLE_STATUS_CODES).
      * intros [H|[l H]]; congruence.
      * intros H. f_equal. apply C. exact H.
  - intros H. f_equal. apply C. exact H.
Qed.

Lemma loop_attempts transport fuel attempt last tr :
  (attempts (fst (attempt_loop transport fuel attempt last tr))
   <= attempts tr + fuel)%nat.
Proof.
  revert attempt last tr. induction fuel as [|fuel IH]; intros; simpl; [lia|].
  destruct (try_block attempt (transport attempt)); simpl; try lia.
  etransitivity; [apply IH|]. simpl. lia.
Qed.

Lemma loop_at_least transport fuel attempt last tr :
  (attempts tr <= attempts (fst (attempt_loop transport fuel attempt last tr)))%nat.
Proof.
  revert attempt last tr. induction fuel as [|fuel IH]; intros; simpl; [lia|].
  destruct (try_block attempt (transport attempt)); simpl; try lia.
  etransitivity; [|apply IH]. simpl. lia.
Qed.

Lemma loop_error transport fuel attempt last tr tr' e :
  attempts tr = attempt ->
  (attempt = 0%nat -> (0 < fuel)%nat) ->
  ((0 < attempt)%nat ->
   exists e0, last = Some e0 /\
              observed_error (transport (attempt - 1)%nat) = Some e0) ->
  attempt_loop transport fuel attempt last tr = (tr', inr e) ->
  (0 < attempts tr')%nat /\
  observed_error (transport (attempts tr' - 1)%nat) = Some e.
Proof.
  revert attempt last tr. induction fuel as [|fuel IH];
    intros attempt last tr Ha Hf Hl H; simpl in H.
  - assert (Hp : (0 < attempt)%nat) by (destruct attempt; [exfalso; specialize (Hf eq_refl); lia | lia]).
    destruct (Hl Hp) as (e0 & -> & He0).
    injection H as <- <-. rewrite Ha. auto.
  - destruct (try_block attempt (transport attempt)) as [d|e1|e1 l] eqn:E.
    + discriminate.
    + injection H as <- <-. cbn [attempts]. rewrite Ha.
      replace (S attempt - 1)%nat with attempt by lia.
      split; [lia|]. apply (try_block_error attempt). auto.
    + apply IH in H; auto.
      * cbn [attempts]. congruence.
      * discriminate.
      * intros _. exists e1. split; [reflexivity|].
        replace (S attempt - 1)%nat with attempt by lia.
        apply (try_block_error attempt). eauto.
Qed.

Lemma loop_proceed transport fuel attempt last tr e l :
  try_block attempt (transport attempt) = Proceed e l ->
  attempt_loop transport (S fuel) attempt last tr =
  attempt_loop transport fuel (S attempt) (Some e)
    {| attempts := S (attempts tr);
       delays := if (attempt <? MAX_RETRIES - 1)%nat
                 then delays tr ++ [(INITIAL_DELAY_MS * 2 ^ N.of_nat attempt)%N]
                 else delays tr;
       logged := logged tr ++ [l] |}.
Proof. intros H. simpl. rewrite H. reflexivity. Qed.

Lemma proceed_503 attempt o :
  received_status o 503 -> (attempt < 4)%nat ->
  exists e l, try_block attempt o = Proceed e l.
Proof.
  intros [[j ->]| ->] Ha.
  - eexists _, _. reflexivity.
  - unfold try_block, catch_block.
    replace (isRetryable (lit "Request failed, status " ++ decimal 503)) with true
      by (vm_compute; reflexivity).
    replace (attempt <? MAX_RETRIES - 1)%nat with true
      by (symmetry; apply Nat.ltb_lt; simpl; lia).
    eexists _, _. reflexivity.
Qed.

Lemma run_of_loop transport :
  graphqlRequest transport
  = attempt_loop transport 5 0 None {| attempts := 0; delays := []; logged := [] |}.
Proof. reflexivity. Qed.

Lemma includes_digits (needle d : str) (c : ascii) :
  is_digit c = false -> forallb is_digit d = true ->
  includes d (c :: needle) = false.
Proof.
  intros Hc. induction d as [|x d IH]; intros Hd; [reflexivity|].
  simpl in Hd. apply andb_true_iff in Hd as [Hx Hd].
  cbn [includes]. rewrite (IH Hd).
  unfold startsWith. cbn [strip_prefix].
  replace (ch c x) with false; [reflexivity|].
  symmetry. apply ch_false. intros ->. congruence.
Qed.

Lemma status_message_plain (s : N) :
  isRetryable (lit "GraphQL request failed: " ++ decimal s) = false.
Proof.
  pose proof (decimal_digits s) as Hd. revert Hd.
  generalize (decimal s) as d. intros d Hd.
  unfold isRetryable.
  cbn.
  rewrite !includes_digits by (auto; reflexivity). reflexivity.
Qed.

Lemma loop_thrown transport fuel attempt last tr e :
  try_block attempt (transport attempt) = Thrown e ->
  attempt_loop transport (S fuel) attempt last tr =
  ({| attempts := S (attempts tr); delays := delays tr; logged := logged tr |},
   inr e).
Proof. intros H. simpl. rewrite H. reflexivity. Qed.

Lemma loop_returned transport fuel attempt last tr d :
  try_block attempt (transport attempt) = Returned d ->
  attempt_loop transport (S fuel) attempt last tr =
  ({| attempts := S (attempts tr); delays := delays tr; logged := logged tr |},
   inl d).
Proof. intros H. simpl. rewrite H. reflexivity. Qed.

Lemma catch_plain attempt message :
  plain_message message ->
  catch_block (T:=T) attempt (JsError message) = Thrown (JsError message).
Proof. unfold catch_block, plain_message. intros ->. reflexivity. Qed.

Lemma non_retryable_thrown attempt o :
  non_retryable o -> exists e, try_block attempt o = Thrown e.
Proof.
  intros [(s & j & -> & Hs & Hr)|[(m & -> & Hm)|[(errors & d & -> & He & Hm)
          |[->|(m & -> & Hm)]]]]; unfold try_block.
  - apply N.eqb_neq in Hs. rewrite Hs.
    destruct (existsb (N.eqb s) RETRYABLE_STATUS_CODES) eqn:E.
    + exfalso. apply Hr. apply existsb_exists in E as (x & Hx & Hsx).
      apply N.eqb_eq in Hsx. subst x. exact Hx.
    + eexists. apply catch_plain. apply status_message_plain.
  - cbn [N.eqb Pos.eqb]. eexists. apply catch_plain. exact Hm.
  - cbn [N.eqb Pos.eqb]. destruct errors as [|x errors]; [congruence|].
    cbn [length Nat.ltb Nat.leb]. eexists. apply catch_plain. exact Hm.
  - eexists. reflexivity.
  - eexists. apply catch_plain. exact Hm.
Qed.

End ClientFacts.

(** C2.  The retry behaviour of the query client.  Every call makes at
    most 5 attempts.  A call that receives the status 503 four times and
    then a 200 with its payload returns the payload after exactly 5
    attempts, having slept 1000, 2000, 4000 and 8000 ms.  A call that
    receives 404 makes exactly 1 attempt, sleeps never, and fails.  And
    whenever the call fails, the error it throws is the error of the last
    attempt made, never a generic message. *)
Theorem graphqlRequest_retry (T : Type) :
  (forall transport : nat -> outcome T,
      (attempts (fst (graphqlRequest transport)) <= 5)%nat) /\
  (forall (transport : nat -> outcome T) (payload : T),
      (forall i : nat, (i < 4)%nat -> received_status (transport i) 503) ->
      transport 4%nat = Response 200 (Parsed [] payload) ->
      snd (graphqlRequest transport) = inl payload /\
      attempts (fst (graphqlRequest transport)) = 5%nat /\
      delays (fst (graphqlRequest transport)) = [1000; 2000; 4000; 8000]%N) /\
  (forall transport : nat -> outcome T,
      received_status (transport 0%nat) 404 ->
      attempts (fst (graphqlRequest transport)) = 1%nat /\
      delays (fst (graphqlRequest transport)) = [] /\
      exists e, snd (graphqlRequest transport) = inr e) /\
  (forall (transport : nat -> outcome T) (e : thrown),
      snd (graphqlRequest transport) = inr e ->
      observed_error
        (transport (attempts (fst (graphqlRequest transport)) - 1)%nat)
      = Some e).
Proof.
  split; [|split; [|split]].
  - intros transport. apply (loop_attempts transport 5 0 None).
  - intros transport payload H503 H200.
    rewrite run_of_loop.
    destruct (proceed_503 0 _ (H503 0%nat ltac:(lia)) ltac:(lia)) as (e0 & l0 & E0).
    destruct (proceed_503 1 _ (H503 1%nat ltac:(lia)) ltac:(lia)) as (e1 & l1 & E1).
    destruct (proceed_503 2 _ (H503 2%nat ltac:(lia)) ltac:(lia)) as (e2 & l2 & E2).
    destruct (proceed_503 3 _ (H503 3%nat ltac:(lia)) ltac:(lia)) as (e3 & l3 & E3).
    rewrite (loop_proceed _ _ _ _ _ _ _ E0), (loop_proceed _ _ _ _ _ _ _ E1),
      (loop_proceed _ _ _ _ _ _ _ E2), (loop_proceed _ _ _ _ _ _ _ E3).
    rewrite (loop_returned _ _ _ _ _ payload) by (rewrite H200; reflexivity).
    repeat split.
  - intros transport H404. rewrite run_of_loop.
    assert (E : exists e, try_block 0 (transport 0%nat) = Thrown e).
    { destruct H404 as [[j ->]| ->]; eexists; vm_compute; reflexivity. }
    destruct E as [e E]. rewrite (loop_thrown _ _ _ _ _ _ E).
    repeat split. exists e. reflexivity.
  - intros transport e H.
    destruct (graphqlRequest transport) as [tr' res] eqn:E. simpl in H. subst res.
    rewrite run_of_loop in E.
    apply loop_error in E; auto.
    + simpl. apply E.
    + intros Hc. lia.
    + intros Hc. lia.
Qed.

Lemma graphqlRequest_retry_witness :
  snd (graphqlRequest four_503_then_200) = inl tt /\
  attempts (fst (graphqlRequest four_503_then_200)) = 5%nat /\
  delays (fst (graphqlRequest four_503_then_200)) = [1000; 2000; 4000; 8000]%N.
Proof.
  apply (proj1 (proj2 (graphqlRequest_retry unit)) four_503_then_200 tt).
  - intros i Hi. left. exists (Malformed []).
    destruct i as [|[|[|[|i]]]]; try reflexivity. lia.
  - reflexivity.
Defined.

(** C7, as stated, fails: an HTTP 200 whose errors array is not empty does
    not always make the call fail on the first attempt.  When the message of
    an error speaks of a timeout, the catch clause takes it for a transient
    failure: the call sleeps one second, tries again, and here succeeds. *)
Lemma errors_array_may_be_retried :
  flaky_errors 0%nat
  = Response 200 (Parsed [lit "Something went wrong: timeout"] tt) /\
  attempts (fst (graphqlRequest flaky_errors)) = 2%nat /\
  delays (fst (graphqlRequest flaky_errors)) = [1000%N] /\
  snd (graphqlRequest flaky_errors) = inl tt.
Proof. vm_compute. auto. Qed.

(** C7, amended.  A failure that is not retryable makes the call fail on
    the first attempt, with no delay and no retry: a status that is neither
    200 nor 429, 502, 503 or 504; and, when its message names none of the
    transient conditions of the catch clause, a body that cannot be parsed,
    a 200 with a non-empty errors array, or an exception of the transport.
    The error thrown is the error of that attempt. *)
Theorem non_retryable_fails_at_once (T : Type) (transport : nat -> outcome T) :
  non_retryable (transport 0%nat) ->
  exists e,
    graphqlRequest transport
    = ({| attempts := 1; delays := []; logged := [] |}, inr e) /\
    observed_error (transport 0%nat) = Some e.
Proof.
  intros H. destruct (non_retryable_thrown 0 _ H) as [e E].
  exists e. split.
  - rewrite run_of_loop. rewrite (loop_thrown _ _ _ _ _ _ E). reflexivity.
  - apply (try_block_error 0). auto.
Qed.

Lemma non_retryable_fails_at_once_witness :
  exists e,
    graphqlRequest always_404
    = ({| attempts := 1; delays := []; logged := [] |}, inr e) /\
    observed_error (always_404 0%nat) = Some e.
Proof.
  apply (non_retryable_fails_at_once unit always_404).
  left. exists 404%N, (Malformed []).
  split; [reflexivity|]. split; [discriminate|].
  intros [H|[H|[H|[H|[]]]]]; discriminate.
Defined.

End ClientFacts.

(** ** The current iteration *)

Module ResolverFacts.
Import Resolver.

Section Facts.
Variable Date_parse : str -> option Z.
Variables LocalTime UTC : Z -> Z.
Implicit Types (l acc : list Iteration) (x y z : Iteration).








End Facts.


Lemma fixed_offset_within (offset : Z) :
  (Z.abs offset <= MS_PER_DAY)%Z ->
  offset_within_a_day (fixed_LocalTime offset) (fixed_UTC offset).
Proof.
  intros H t. unfold fixed_LocalTime, fixed_UTC. lia.
Qed.


(** With a constant zone offset the days of [setDate] are days of 24
    hours, whatever the offset. *)
Lemma setDate_plus_fixed (offset start days : Z) :
  setDate_plus (fixed_LocalTime offset) (fixed_UTC offset) start days
  = (start + days * MS_PER_DAY)%Z.
Proof. unfold setDate_plus, fixed_LocalTime, fixed_UTC. lia. Qed.

(** Where the clock is put forward within the span, the span is an hour
    shorter than its days of 24 hours: half an hour before the end of the
    fourteenth day of 24 hours, the iteration is no longer the current
    one. *)
Example clock_change_shortens_the_span :
  let change := (11 * MS_PER_DAY)%Z in
  let now := (24 * MS_PER_DAY - 1800000)%Z in
  toy_calendar (startDate sprint_a) = Some (10 * MS_PER_DAY)%Z /\
  (10 * MS_PER_DAY <= now <= 10 * MS_PER_DAY + duration sprint_a * MS_PER_DAY)%Z /\
  setDate_plus (spring_LocalTime change) (spring_UTC change)
    (10 * MS_PER_DAY) (duration sprint_a) = (24 * MS_PER_DAY - HOUR)%Z /\
  currentIteration toy_calendar (spring_LocalTime change) (spring_UTC change)
    (Some [sprint_a]) now = None.
Proof. vm_compute. repeat split; discriminate. Qed.



End ResolverFacts.

(** ** Paths of the vault *)

Module PathFacts.

Lemma free_of_rev (c : ascii) (s : str) : free_of c (rev s) = free_of c s.
Proof.
  unfold free_of. induction s as [|d s IH]; [reflexivity|].
  simpl. rewrite forallb_app, IH. simpl. rewrite andb_true_r. apply andb_comm.
Qed.

Lemma until_slash_app (a r : str) :
  free_of "/"%char a = true -> Store.until_slash (a ++ "/"%char :: r) = a.
Proof.
  induction a as [|c a IH]; [reflexivity|]. simpl. intros H.
  apply andb_true_iff in H as [Hc Ha]. unfold is_not in Hc.
  apply negb_true_iff in Hc. rewrite Hc, (IH Ha). reflexivity.
Qed.

Lemma after_slash_app (a r : str) :
  free_of "/"%char a = true -> Store.after_slash (a ++ "/"%char :: r) = Some r.
Proof.
  induction a as [|c a IH]; [reflexivity|]. simpl. intros H.
  apply andb_true_iff in H as [Hc Ha]. unfold is_not in Hc.
  apply negb_true_iff in Hc. rewrite Hc. exact (IH Ha).
Qed.

Lemma after_slash_split (s r : str) :
  Store.after_slash s = Some r -> s = Store.until_slash s ++ "/"%char :: r.
Proof.
  induction s as [|c s IH]; [discriminate|]. simpl.
  destruct (ch c "/") eqn:E.
  - intros H. injection H as ->. apply Ascii.eqb_eq in E. subst c. reflexivity.
  - intros H. simpl. f_equal. exact (IH H).
Qed.

Lemma after_slash_none (s : str) :
  Store.after_slash s = None -> free_of "/"%char s = true.
Proof.
  induction s as [|c s IH]; [reflexivity|]. simpl.
  destruct (ch c "/") eqn:E; [discriminate|].
  intros H. unfold is_not. rewrite E. exact (IH H).
Qed.

(** In a path made of a folder, a slash and a name without a slash, the
    name and the folder are these. *)
Lemma name_of_join (d n : str) :
  free_of "/"%char n = true -> Store.name_of (d ++ lit "/" ++ n) = n.
Proof.
  intros H. unfold Store.name_of.
  rewrite !rev_app_distr. change (rev (lit "/")) with ["/"%char].
  rewrite <- app_assoc. change (["/"%char] ++ rev d) with ("/"%char :: rev d).
  rewrite until_slash_app by (rewrite free_of_rev; exact H).
  apply rev_involutive.
Qed.

Lemma folder_of_join (d n : str) :
  free_of "/"%char n = true -> Store.folder_of (d ++ lit "/" ++ n) = d.
Proof.
  intros H. unfold Store.folder_of.
  rewrite !rev_app_distr. change (rev (lit "/")) with ["/"%char].
  rewrite <- app_assoc. change (["/"%char] ++ rev d) with ("/"%char :: rev d).
  rewrite after_slash_app by (rewrite free_of_rev; exact H).
  apply rev_involutive.
Qed.

Lemma file_at_join (d n data : str) :
  free_of "/"%char n = true ->
  Store.file_at (d ++ lit "/" ++ n) data
  = {| parent := d; name := n; content := data |}.
Proof.
  intros H. unfold Store.file_at.
  rewrite (name_of_join d n H), (folder_of_join d n H). reflexivity.
Qed.

(** A file put at a path that holds a slash has that path. *)
Lemma path_file_at (p data : str) :
  free_of "/"%char p = false -> path (Store.file_at p data) = p.
Proof.
  intros H. unfold path, Store.file_at, Store.folder_of, Store.name_of.
  cbn [parent name].
  destruct (Store.after_slash (rev p)) as [r|] eqn:E.
  - apply after_slash_split in E. apply (f_equal (@rev ascii)) in E.
    rewrite rev_involutive, rev_app_distr in E. simpl in E.
    rewrite <- app_assoc in E. symmetry. exact E.
  - apply after_slash_none in E. rewrite free_of_rev in E. congruence.
Qed.

Lemma joined_has_slash (d n : str) : free_of "/"%char (d ++ lit "/" ++ n) = false.
Proof. rewrite free_of_app. simpl. apply andb_false_r. Qed.

End PathFacts.

(** ** The title sent by a push *)

Module TitleFacts.
Import Filenames Sync.

Lemma span (p : ascii -> bool) (s : str) :
  exists run rest, s = run ++ rest /\ forallb p run = true /\ stops p rest.
Proof.
  induction s as [|c s (run & rest & -> & Hrun & Hrest)].
  - exists [], []. simpl. auto.
  - destruct (p c) eqn:E.
    + exists (c :: run), rest. simpl. rewrite E, Hrun. auto.
    + exists [], (c :: run ++ rest). simpl. auto.
Qed.

Lemma basename_md (f : TFile) (stem : str) :
  name f = stem ++ lit ".md" -> basename f = stem.
Proof.
  intros H. unfold basename. rewrite H, rev_app_distr. simpl.
  apply rev_involutive.
Qed.

Lemma strip_number_prefix_keeps (s t : str) :
  has_number_prefix s = false ->
  strip_number_prefix (s ++ " "%char :: t) = s ++ " "%char :: t.
Proof.
  unfold has_number_prefix, strip_number_prefix, Re.exact at 1 3.
  destruct s as [|c s]; [reflexivity|].
  cbn [strip_prefix lit list_ascii_of_string app].
  destruct (ch "(" c); [|reflexivity].
  destruct (span is_digit s) as (run & rest & -> & Hrun & Hrest).
  destruct run as [|d run].
  - intros _. rewrite plus_stops; [reflexivity|].
    destruct rest; simpl; auto.
  - rewrite <- app_assoc.
    change ((d :: run) ++ rest) with (d :: run ++ rest).
    change ((d :: run) ++ rest ++ " "%char :: t)
      with (d :: run ++ (rest ++ " "%char :: t)).
    rewrite !plus_det; auto.
    + destruct rest as [|x rest]; [reflexivity|].
      unfold Re.exact. cbn [strip_prefix lit list_ascii_of_string app].
      destruct (ch ")" x); [discriminate|reflexivity].
    + intros cap x r Hx. apply (exact_head_fail ")"%char x []).
      intros ->. discriminate.
    + destruct rest; simpl; auto.
    + intros cap x r Hx. apply (exact_head_fail ")"%char x []).
      intros ->. discriminate.
Qed.

Lemma trimStart_id (c : ascii) (s : str) :
  is_space c = false -> trimStart (c :: s) = c :: s.
Proof. intros H. simpl. rewrite H. reflexivity. Qed.

Lemma trim_id (c d : ascii) (s : str) :
  is_space c = false -> is_space d = false ->
  trim (c :: s ++ [d]) = c :: s ++ [d].
Proof.
  intros Hc Hd. unfold trim, trimEnd. rewrite (trimStart_id c _ Hc).
  change (c :: s ++ [d]) with ((c :: s) ++ [d]).
  rewrite rev_app_distr.
  change (rev [d] ++ rev (c :: s)) with (d :: rev (c :: s)).
  rewrite (trimStart_id d _ Hd).
  change (d :: rev (c :: s)) with (rev [d] ++ rev (c :: s)).
  rewrite <- rev_app_distr, rev_involutive. reflexivity.
Qed.

Lemma drop_while_last (p : ascii -> bool) (a : str) (h : ascii) :
  p h = false -> exists b, drop_while p (a ++ [h]) = b ++ [h].
Proof.
  intros Hh. induction a as [|c a [b IH]]; simpl.
  - rewrite Hh. exists []. reflexivity.
  - destruct (p c); [exists b; exact IH|]. exists (c :: a). reflexivity.
Qed.

Lemma drop_while_head (p : ascii -> bool) (s : str) :
  match drop_while p s with [] => True | c :: _ => p c = false end.
Proof.
  induction s as [|c s IH]; simpl; [exact I|].
  destruct (p c) eqn:E; [exact IH|exact E].
Qed.

Lemma strip_ends_head (s : str) :
  match strip_ends s with [] => True | c :: _ => is_dash_or_space c = false end.
Proof.
  unfold strip_ends.
  pose proof (drop_while_head is_dash_or_space s) as H.
  destruct (drop_while is_dash_or_space s) as [|h u]; [exact I|].
  simpl rev at 2.
  destruct (drop_while_last is_dash_or_space (rev u) h H) as [b ->].
  rewrite rev_app_distr. simpl. exact H.
Qed.

Lemma sanitizeFilename_head (t : str) :
  exists c s, sanitizeFilename t = c :: s /\ is_space c = false.
Proof.
  unfold sanitizeFilename.
  set (s3 := strip_ends _).
  pose proof (strip_ends_head
                (collapse_dashes
                   (List.map (fun c => if is_invalid_char c then "-"%char else c) t)))
    as H. fold s3 in H.
  assert (H5 : exists c s,
             match (if is_reserved s3 then s3 ++ lit "_" else s3) with
             | [] => lit "untitled"
             | _ :: _ => (if is_reserved s3 then s3 ++ lit "_" else s3)
             end = c :: s /\ is_space c = false).
  { destruct s3 as [|h u].
    - vm_compute. eexists _, _. split; reflexivity.
    - apply orb_false_iff in H as [_ Hs].
      destruct (is_reserved (h :: u)); eexists _, _; split; try reflexivity;
        exact Hs. }
  destruct H5 as (c & s & -> & Hc).
  destruct (200 <? length (c :: s))%nat; eexists _, _; split;
    try reflexivity; exact Hc.
Qed.

Lemma generated_name_trim (issue : GitHubIssue) :
  trim (generateIssueFilename issue) = generateIssueFilename issue.
Proof.
  unfold generateIssueFilename.
  destruct (sanitizeFilename_head (title issue)) as (c & s & -> & Hc).
  replace ((c :: s) ++ lit " (" ++ decimal (number issue) ++ lit ")")
    with (c :: (s ++ lit " (" ++ decimal (number issue)) ++ [")"%char])
    by (simpl; rewrite <- !app_assoc; reflexivity).
  apply trim_id; [exact Hc|reflexivity].
Qed.

End TitleFacts.

(** ** The index *)

Module IndexFacts.
Import IssueFiles.

Lemma str_eqb_false (a b : str) : str_eqb a b = false <-> a <> b.
Proof. unfold str_eqb. apply bool_decide_eq_false. Qed.

Lemma str_eqb_sym (a b : str) : str_eqb a b = str_eqb b a.
Proof.
  destruct (str_eqb b a) eqn:E.
  - apply str_eqb_true in E. subst. apply str_eqb_refl.
  - apply str_eqb_false in E. apply str_eqb_false. congruence.
Qed.

Lemma existsb_str (k : str) (l : list str) :
  existsb (str_eqb k) l = true <-> In k l.
Proof.
  rewrite List.existsb_exists. split.
  - intros (x & Hx & E). apply str_eqb_true in E. subst. exact Hx.
  - intros H. exists k. split; [exact H|apply str_eqb_refl].
Qed.

Lemma existsb_str_false (k : str) (l : list str) :
  existsb (str_eqb k) l = false <-> ~ In k l.
Proof.
  rewrite <- existsb_str. destruct (existsb (str_eqb k) l); split; congruence.
Qed.

Lemma add_key_In (keys : list str) (k x : str) :
  In x (add_key keys k) <-> In x keys \/ x = k.
Proof.
  unfold add_key. destruct (existsb (str_eqb k) keys) eqn:E.
  - apply existsb_str in E. split; [auto|]. intros [H| ->]; auto.
  - rewrite List.in_app_iff. simpl. intuition.
Qed.

Lemma add_key_NoDup (keys : list str) (k : str) :
  List.NoDup keys -> List.NoDup (add_key keys k).
Proof.
  intros H. unfold add_key. destruct (existsb (str_eqb k) keys) eqn:E; [exact H|].
  apply existsb_str_false in E.
  apply List.NoDup_app; [exact H | constructor; [intros []|constructor] |].
  intros x Hx [<-|[]]. exact (E Hx).
Qed.

Lemma fold_add_key (l acc : list str) :
  List.NoDup acc ->
  List.NoDup (fold_left add_key l acc) /\
  forall x, In x (fold_left add_key l acc) <-> In x acc \/ In x l.
Proof.
  revert acc. induction l as [|k l IH]; intros acc H; simpl.
  - split; [exact H|]. intuition.
  - destruct (IH (add_key acc k) (add_key_NoDup acc k H)) as [H1 H2].
    split; [exact H1|]. intros x. rewrite H2, add_key_In. intuition.
Qed.

Lemma keys_of_NoDup (l : list str) : List.NoDup (keys_of l).
Proof. apply (fold_add_key l []). constructor. Qed.

Lemma keys_of_In (l : list str) (x : str) : In x (keys_of l) <-> In x l.
Proof.
  unfold keys_of. destruct (fold_add_key l [] (List.NoDup_nil _)) as [_ H].
  rewrite H. simpl. intuition.
Qed.

Lemma keys_of_snoc (l : list str) (k : str) :
  keys_of (l ++ [k]) = add_key (keys_of l) k.
Proof. unfold keys_of. rewrite List.fold_left_app. reflexivity. Qed.

(** The map with the keys [K], each with its issues among [P]. *)
Lemma map_get_groups (K : list str) (P : list GitHubIssue) (s : str) :
  map_get (List.map (with_status P) K) s
  = if existsb (str_eqb s) K then Some (snd (with_status P s)) else None.
Proof.
  induction K as [|k K IH]; simpl; [reflexivity|].
  rewrite (str_eqb_sym s k).
  destruct (str_eqb k s) eqn:E; simpl; [|exact IH].
  apply str_eqb_true in E. subst. reflexivity.
Qed.

Lemma map_set_absent (m : StatusMap) (s : str) (v : list GitHubIssue) :
  ~ In s (List.map fst m) -> map_set m s v = m ++ [(s, v)].
Proof.
  induction m as [|[k w] m IH]; simpl; [reflexivity|].
  intros H. destruct (str_eqb k s) eqn:E.
  - apply str_eqb_true in E. subst. exfalso. apply H. left. reflexivity.
  - rewrite IH; [reflexivity|]. intros Hin. apply H. right. exact Hin.
Qed.

Lemma map_set_present (f : str -> list GitHubIssue) (K : list str) (s : str)
    (v : list GitHubIssue) :
  List.NoDup K -> In s K ->
  map_set (List.map (fun k => (k, f k)) K) s v
  = List.map (fun k => (k, if str_eqb k s then v else f k)) K.
Proof.
  induction K as [|k K IH]; intros Hnd Hin; [destruct Hin|].
  inversion Hnd as [|? ? Hk HK]; subst. simpl.
  destruct (str_eqb k s) eqn:E.
  - apply str_eqb_true in E. subst k. f_equal.
    apply List.map_ext_in. intros a Ha.
    destruct (str_eqb a s) eqn:Ea; [|reflexivity].
    apply str_eqb_true in Ea. subst a. contradiction.
  - f_equal. apply IH; [exact HK|].
    destruct Hin as [->|Hin]; [|exact Hin].
    rewrite str_eqb_refl in E. discriminate.
Qed.

Lemma map_set_groups (P : list GitHubIssue) (K : list str) (s : str)
    (v : list GitHubIssue) :
  List.NoDup K -> In s K ->
  map_set (List.map (with_status P) K) s v
  = List.map (fun k => (k, if str_eqb k s then v else snd (with_status P k))) K.
Proof. exact (map_set_present (fun k => snd (with_status P k)) K s v). Qed.

Lemma with_status_snoc (P : list GitHubIssue) (i : GitHubIssue) (k : str) :
  snd (with_status (P ++ [i]) k)
  = snd (with_status P k) ++ (if str_eqb (status i) k then [i] else []).
Proof.
  unfold with_status. simpl. rewrite List.filter_app. simpl.
  destruct (str_eqb (status i) k); reflexivity.
Qed.

Lemma with_status_none (P : list GitHubIssue) (k : str) :
  ~ In k (List.map status P) -> snd (with_status P k) = [].
Proof.
  unfold with_status. simpl. induction P as [|j P IH]; simpl; [reflexivity|].
  intros H. destruct (str_eqb (status j) k) eqn:E.
  - apply str_eqb_true in E. exfalso. apply H. left. exact E.
  - apply IH. intros Hin. apply H. right. exact Hin.
Qed.

Lemma map_fst_groups (K : list str) (P : list GitHubIssue) :
  List.map fst (List.map (with_status P) K) = K.
Proof. rewrite List.map_map. simpl. apply List.map_id. Qed.

Lemma add_issue_groups (L : list str) (P : list GitHubIssue) (i : GitHubIssue) :
  (forall j, In j P -> In (status j) L) ->
  add_issue (List.map (with_status P) (keys_of L)) i
  = List.map (with_status (P ++ [i])) (keys_of (L ++ [status i])).
Proof.
  intros Hcov. unfold add_issue. rewrite map_get_groups, keys_of_snoc.
  unfold add_key.
  destruct (existsb (str_eqb (status i)) (keys_of L)) eqn:E.
  - apply existsb_str in E.
    rewrite (map_set_groups P (keys_of L) (status i) _ (keys_of_NoDup L) E).
    apply List.map_ext. intros k.
    change (with_status (P ++ [i]) k) with (k, snd (with_status (P ++ [i]) k)).
    f_equal. rewrite (with_status_snoc P i k).
    rewrite (str_eqb_sym k (status i)).
    destruct (str_eqb (status i) k) eqn:Ek.
    + apply str_eqb_true in Ek. subst k. reflexivity.
    + rewrite app_nil_r. reflexivity.
  - apply existsb_str_false in E.
    rewrite map_set_absent by (rewrite map_fst_groups; exact E).
    rewrite List.map_app. simpl. f_equal.
    + apply List.map_ext_in. intros k Hk. unfold with_status. f_equal.
      rewrite List.filter_app. simpl.
      destruct (str_eqb (status i) k) eqn:Ek; [|symmetry; apply app_nil_r].
      apply str_eqb_true in Ek. subst k. contradiction.
    + unfold with_status. do 2 f_equal. rewrite List.filter_app. simpl.
      rewrite str_eqb_refl.
      assert (Hn : ~ In (status i) (List.map status P)).
      { intros Hin. apply List.in_map_iff in Hin as (j & Ej & Hj).
        apply E. apply keys_of_In. rewrite <- Ej. apply Hcov. exact Hj. }
      pose proof (with_status_none P (status i) Hn) as H0. simpl in H0.
      rewrite H0. reflexivity.
Qed.

Lemma set_empty_group (K : list str) (k : str) :
  map_set (List.map (with_status []) K) k []
  = List.map (with_status []) (add_key K k).
Proof.
  unfold add_key. induction K as [|k' K IH]; [reflexivity|].
  cbn [List.map map_set with_status List.filter existsb].
  rewrite (str_eqb_sym k k').
  destruct (str_eqb k' k); cbn [orb]; [reflexivity|].
  cbn [List.map with_status List.filter] in IH. rewrite IH.
  destruct (existsb (str_eqb k) K); reflexivity.
Qed.

Lemma init_from (statusOptions : list StatusOption) (K : list str) :
  fold_left (fun m opt => map_set m (option_name opt) []) statusOptions
    (List.map (with_status []) K)
  = List.map (with_status [])
      (fold_left add_key (List.map option_name statusOptions) K).
Proof.
  revert K. induction statusOptions as [|o l IH]; intros K; [reflexivity|].
  cbn [fold_left List.map]. rewrite set_empty_group. apply IH.
Qed.

Lemma init_groups_keys (statusOptions : list StatusOption) :
  init_groups statusOptions
  = List.map (with_status [])
      (keys_of (List.map option_name statusOptions ++ [lit "No Status"])).
Proof.
  unfold init_groups.
  change (@nil (str * list GitHubIssue)) with (List.map (with_status []) []) at 1.
  rewrite (init_from statusOptions []).
  rewrite set_empty_group, keys_of_snoc. reflexivity.
Qed.

Lemma fold_issues (rest P : list GitHubIssue) (L : list str) :
  (forall j, In j P -> In (status j) L) ->
  fold_left add_issue rest (List.map (with_status P) (keys_of L))
  = List.map (with_status (P ++ rest)) (keys_of (L ++ List.map status rest)).
Proof.
  revert P L. induction rest as [|i rest IH]; intros P L Hcov.
  - simpl. rewrite !app_nil_r. reflexivity.
  - cbn [fold_left List.map]. rewrite (add_issue_groups L P i Hcov).
    rewrite IH.
    + rewrite <- !app_assoc. reflexivity.
    + intros j Hj. apply List.in_app_iff in Hj as [Hj|[<-|[]]];
        apply List.in_app_iff; [left; auto|right; left; reflexivity].
Qed.

Lemma issuesByStatus_keys (issues : list GitHubIssue)
    (statusOptions : list StatusOption) :
  issuesByStatus issues statusOptions
  = List.map (with_status issues)
      (keys_of (List.map option_name statusOptions ++ [lit "No Status"]
                ++ List.map status issues)).
Proof.
  unfold issuesByStatus. rewrite init_groups_keys.
  rewrite (fold_issues issues [] _) by (intros j []).
  rewrite <- app_assoc. reflexivity.
Qed.

Lemma fold_add_key_fresh (l acc : list str) :
  List.NoDup (acc ++ l) -> fold_left add_key l acc = acc ++ l.
Proof.
  revert acc. induction l as [|k l IH]; intros acc H; simpl.
  - symmetry. apply app_nil_r.
  - assert (Hk : ~ In k acc).
    { apply List.NoDup_remove_2 in H. intros Hin. apply H.
      apply List.in_app_iff. left. exact Hin. }
    unfold add_key. apply existsb_str_false in Hk. rewrite Hk.
    rewrite IH; rewrite <- app_assoc; [reflexivity|exact H].
Qed.

Lemma fold_add_key_known (l acc : list str) :
  (forall k, In k l -> In k acc) -> fold_left add_key l acc = acc.
Proof.
  induction l as [|k l IH]; intros H; simpl; [reflexivity|].
  unfold add_key. rewrite (proj2 (existsb_str k acc)) by (apply H; left; reflexivity).
  apply IH. intros x Hx. apply H. right. exact Hx.
Qed.

(** C9, as stated, fails: the index does not always end with the
    [No Status] group, and it has sections beyond the declared statuses.
    An issue whose status is not declared opens a section of its own
    after [No Status]. *)
Lemma undeclared_status_gets_a_section :
  let issues := [issue_with 1 "a" "No Status"; issue_with 2 "b" "Blocked"] in
  let statusOptions := [status_option "Todo"] in
  List.map fst (sections issues statusOptions)
  = [lit "No Status"; lit "Blocked"] /\
  sections issues statusOptions
  <> List.filter has_entries
       (List.map (with_status issues)
          (List.map option_name statusOptions ++ [lit "No Status"])).
Proof. split; [vm_compute; reflexivity|vm_compute; discriminate]. Qed.

(** C9, amended.  The index is its header followed by the sections, and
    the sections are the groups that have issues, each with one entry per
    issue of that status in the order of the list; the groups come in the
    order in which their keys first occur in: the declared status names,
    [No Status], the statuses of the issues.  So when the declared names
    are distinct, none of them is [No Status] and every issue has a declared
    status or [No Status], there is one section per declared status, in the
    declared order, then [No Status], less the empty ones; a status that is
    not declared gets a section after [No Status].  For the options Todo,
    Doing, Done and issues of status Doing, Todo, Todo the sections are Todo
    with two entries and Doing with one. *)
Theorem index_grouping (issues : list GitHubIssue)
    (statusOptions : list StatusOption) (projectTitle : str)
    (iterationTitle : option str) (issuesFolder localeNow : str) :
  generateIndexContent issues statusOptions projectTitle iterationTitle
    issuesFolder localeNow
  = join [nl]
      (header_lines projectTitle iterationTitle localeNow
       ++ List.concat (List.map (section_lines issuesFolder)
                         (sections issues statusOptions))) /\
  sections issues statusOptions
  = List.filter has_entries
      (List.map (with_status issues)
         (keys_of (List.map option_name statusOptions ++ [lit "No Status"]
                   ++ List.map status issues))) /\
  (List.NoDup (List.map option_name statusOptions) ->
   ~ In (lit "No Status") (List.map option_name statusOptions) ->
   (forall i, In i issues ->
      In (status i) (List.map option_name statusOptions ++ [lit "No Status"])) ->
   sections issues statusOptions
   = List.filter has_entries
       (List.map (with_status issues)
          (List.map option_name statusOptions ++ [lit "No Status"]))) /\
  sections
    [issue_with 1 "a" "Doing"; issue_with 2 "b" "Todo"; issue_with 3 "c" "Todo"]
    [status_option "Todo"; status_option "Doing"; status_option "Done"]
  = [(lit "Todo", [issue_with 2 "b" "Todo"; issue_with 3 "c" "Todo"]);
     (lit "Doing", [issue_with 1 "a" "Doing"])].
Proof.
  split; [reflexivity|]. split; [|split].
  - unfold sections. rewrite issuesByStatus_keys. reflexivity.
  - intros Hnd Hns Hcov. unfold sections. rewrite issuesByStatus_keys.
    f_equal. f_equal. unfold keys_of.
    rewrite app_assoc, List.fold_left_app.
    rewrite (fold_add_key_fresh _ []).
    + simpl app. apply fold_add_key_known.
      intros k Hk. apply List.in_map_iff in Hk as (i & <- & Hi). auto.
    + simpl app. apply List.NoDup_app; [exact Hnd| |].
      * constructor; [intros []|constructor].
      * intros a Ha [<-|[]]. exact (Hns Ha).
  - vm_compute. reflexivity.
Qed.

Lemma index_grouping_witness :
  let issues := [issue_with 1 "a" "Doing"; issue_with 2 "b" "No Status"] in
  let statusOptions := [status_option "Todo"; status_option "Doing"] in
  sections issues statusOptions
  = List.filter has_entries
      (List.map (with_status issues)
         (List.map option_name statusOptions ++ [lit "No Status"])).
Proof.
  apply (proj1 (proj2 (proj2
           (index_grouping
              [issue_with 1 "a" "Doing"; issue_with 2 "b" "No Status"]
              [status_option "Todo"; status_option "Doing"] [] None [] [])))).
  - repeat constructor; simpl; intuition discriminate.
  - simpl. intuition discriminate.
  - intros i [<-|[<-|[]]]; simpl; auto.
Defined.

Example index_of_three :
  generateIndexContent
    [issue_with 1 "a" "Doing"; issue_with 2 "b" "Todo"; issue_with 3 "c" "Todo"]
    [status_option "Todo"; status_option "Doing"; status_option "Done"]
    (lit "Board") None (lit "_issues") (lit "now")
  = join [nl]
      [lit "# Board"; []; lit "*Last synced: now*"; [];
       lit "## Todo"; []; lit "- [[_issues/b (2)|b]]";
       lit "- [[_issues/c (3)|c]]"; [];
       lit "## Doing"; []; lit "- [[_issues/a (1)|a]]"; []].
Proof. vm_compute. reflexivity. Qed.

End IndexFacts.

(** ** The archive *)

Module ArchiveFacts.
Import IssueFiles.

Lemma getFiles_app (a b : Vault) :
  Store.getFiles (a ++ b) = Store.getFiles a ++ Store.getFiles b.
Proof.
  induction a as [|[f|p] a IH]; simpl; [reflexivity| |exact IH].
  rewrite IH. reflexivity.
Qed.

Lemma getFiles_ensureFolder (v : Vault) (p : str) :
  Store.getFiles (Store.ensureFolder v p) = Store.getFiles v.
Proof.
  unfold Store.ensureFolder, Store.createFolder.
  destruct (Store.isFolder v p); [reflexivity|].
  rewrite getFiles_app. simpl. apply app_nil_r.
Qed.

Lemma getFiles_rename (v v' : Vault) (file : TFile) (p : str) :
  Store.rename v file p = Some v' ->
  Store.getFiles v'
  = List.map (fun f => if bool_decide (f = file) then Store.moved f p else f)
      (Store.getFiles v).
Proof.
  unfold Store.rename. destruct (Store.taken v p); [discriminate|].
  intros H. injection H as <-.
  induction v as [|[f|q] v IH]; simpl; [reflexivity| |exact IH].
  destruct (bool_decide (f = file)); simpl; rewrite IH; reflexivity.
Qed.

Lemma taken_app (a b : Vault) (p : str) :
  Store.taken (a ++ b) p = Store.taken a p || Store.taken b p.
Proof.
  unfold Store.taken. induction a as [|n a IH]; cbn [List.find app].
  - reflexivity.
  - destruct (match n with
              | File f => str_eqb (path f) p
              | Folder q => str_eqb q p
              end); [reflexivity|exact IH].
Qed.

Lemma taken_ensureFolder (v : Vault) (q p : str) :
  p <> q -> Store.taken (Store.ensureFolder v q) p = Store.taken v p.
Proof.
  intros H. unfold Store.ensureFolder, Store.createFolder.
  destruct (Store.isFolder v q); [reflexivity|].
  rewrite taken_app. unfold Store.taken at 2. cbn [List.find].
  unfold str_eqb. rewrite bool_decide_eq_false_2 by congruence.
  apply orb_false_r.
Qed.

Lemma taken_file (v : Vault) (f : TFile) :
  In f (Store.getFiles v) -> Store.taken v (path f) = true.
Proof.
  unfold Store.taken. induction v as [|[g|q] v IH]; cbn [Store.getFiles In List.find].
  - intros [].
  - intros [->|H].
    + rewrite str_eqb_refl. reflexivity.
    + destruct (str_eqb (path g) (path f)); [reflexivity|exact (IH H)].
  - intros H. destruct (str_eqb q (path f)); [reflexivity|exact (IH H)].
Qed.

Lemma taken_rename (v v' : Vault) (file : TFile) (q p : str) :
  Store.rename v file q = Some v' ->
  Store.taken v p = false -> p <> path (Store.moved file q) ->
  Store.taken v' p = false.
Proof.
  unfold Store.rename. destruct (Store.taken v q); [discriminate|].
  intros H. injection H as <-. unfold Store.taken.
  induction v as [|[g|r] v IH]; cbn [List.find List.map]; [reflexivity| |].
  - destruct (str_eqb (path g) p) eqn:Eg; [discriminate|]. intros Hv Hp.
    destruct (bool_decide (g = file)) eqn:E; cbn [List.find].
    + apply bool_decide_eq_true_1 in E. subst g. unfold str_eqb at 1.
      rewrite bool_decide_eq_false_2 by congruence. exact (IH Hv Hp).
    + rewrite Eg. exact (IH Hv Hp).
  - destruct (str_eqb r p); [discriminate|]. exact IH.
Qed.

Lemma existsb_filter (p : TFile -> bool) (files : list TFile) (g : TFile) :
  In g files ->
  existsb (fun f => bool_decide (g = f)) (List.filter p files) = p g.
Proof.
  intros Hin. destruct (p g) eqn:E.
  - apply List.existsb_exists. exists g. split.
    + apply List.filter_In. auto.
    + apply bool_decide_eq_true. reflexivity.
  - destruct (existsb _ (List.filter p files)) eqn:Ex; [|reflexivity].
    apply List.existsb_exists in Ex as (x & Hx & Eq).
    apply bool_decide_eq_true in Eq. subst x.
    apply List.filter_In in Hx as [_ Hx]. congruence.
Qed.

Lemma filter_twice (p q : TFile -> bool) (files : list TFile) :
  List.filter q (List.filter p files)
  = List.filter (fun f => p f && q f) files.
Proof.
  induction files as [|f files IH]; simpl; [reflexivity|].
  destruct (p f); simpl; [|exact IH].
  destruct (q f); rewrite IH; reflexivity.
Qed.

Section Facts.
Variable normalizePath : str -> str.
Variable settings : PluginSettings.
Variable currentIssueNumbers : gset N.

Let folder := getIssuesFolderPath normalizePath settings.
Let archive := normalizePath (archivePath normalizePath settings).
Let dest := newPath normalizePath settings.
Let stale := is_stale currentIssueNumbers.
Let loop := archive_files normalizePath settings currentIssueNumbers.

Lemma collect_files (v : Vault) :
  collect settings (Store.children v folder)
  = List.filter (is_issue_file folder settings) (Store.getFiles v).
Proof.
  induction v as [|[f|q] v IH]; simpl; [reflexivity| |exact IH].
  unfold is_issue_file at 1.
  repeat (match goal with
          | |- context [str_eqb ?a ?b] => destruct (str_eqb a b)
          end; simpl); try exact IH;
    destruct (parseFrontmatter (content f)); simpl; try exact IH;
    rewrite IH; reflexivity.
Qed.

(** One turn of the loop, by what the file is. *)
Lemma loop_skip (file : TFile) (rest : list TFile) (v : Vault) (c : nat) :
  stale file = false -> loop (file :: rest) v c = loop rest v c.
Proof.
  unfold stale, is_stale, loop. cbn [archive_files].
  destruct (parseFrontmatter (content file)); [|reflexivity].
  intros ->. reflexivity.
Qed.

Lemma loop_move (file : TFile) (rest : list TFile) (v : Vault) (c : nat) :
  stale file = true ->
  loop (file :: rest) v c
  = match Store.rename (Store.ensureFolder v archive) file (dest file) with
    | Some v' => loop rest v' (S c)
    | None => (Store.ensureFolder v archive, None)
    end.
Proof.
  unfold stale, is_stale, loop. cbn [archive_files].
  destruct (parseFrontmatter (content file)); [|discriminate].
  intros ->. reflexivity.
Qed.

(** A file that is not one of the stale files given to the loop stays,
    whether the loop returns or throws. *)
Lemma loop_keeps (fs : list TFile) (v : Vault) (c : nat) (f : TFile) :
  In f (Store.getFiles v) -> (~ In f fs \/ stale f = false) ->
  In f (Store.getFiles (fst (loop fs v c))).
Proof.
  revert v c. induction fs as [|h fs IH]; intros v c Hin Hf; [exact Hin|].
  assert (Hrest : ~ In f fs \/ stale f = false).
  { destruct Hf as [Hf|Hf]; [left|right; exact Hf].
    intros H. apply Hf. right. exact H. }
  destruct (stale h) eqn:Eh.
  - rewrite (loop_move h fs v c Eh).
    destruct (Store.rename (Store.ensureFolder v archive) h (dest h))
      as [v'|] eqn:Er.
    + apply IH; [|exact Hrest].
      rewrite (getFiles_rename _ _ _ _ Er), getFiles_ensureFolder.
      apply List.in_map_iff. exists f. split; [|exact Hin].
      rewrite bool_decide_eq_false_2; [reflexivity|]. intros ->.
      destruct Hf as [Hf|Hf]; [apply Hf; left; reflexivity|congruence].
    + cbn [fst]. rewrite getFiles_ensureFolder. exact Hin.
  - rewrite (loop_skip h fs v c Eh). apply IH; assumption.
Qed.

(** A file of the vault that the loop leaves was there, or is a stale file
    of the list at its new path. *)
Lemma loop_origin (fs : list TFile) (v : Vault) (c : nat) (f' : TFile) :
  In f' (Store.getFiles (fst (loop fs v c))) ->
  In f' (Store.getFiles v) \/
  exists f, In f fs /\ stale f = true /\ f' = Store.moved f (dest f).
Proof.
  revert v c. induction fs as [|h fs IH]; intros v c Hin; [left; exact Hin|].
  destruct (stale h) eqn:Eh.
  - rewrite (loop_move h fs v c Eh) in Hin.
    destruct (Store.rename (Store.ensureFolder v archive) h (dest h))
      as [v'|] eqn:Er.
    + apply IH in Hin as [Hin|(f & Hf & Hs & ->)].
      * rewrite (getFiles_rename _ _ _ _ Er), getFiles_ensureFolder in Hin.
        apply List.in_map_iff in Hin as (x & Hx & Hin).
        destruct (bool_decide (x = h)) eqn:Ex.
        -- apply bool_decide_eq_true_1 in Ex. subst x. right. exists h.
           split; [left; reflexivity|]. split; [exact Eh|]. symmetry. exact Hx.
        -- left. subst f'. exact Hin.
      * right. exists f. split; [right; exact Hf|]. auto.
    + cbn [fst] in Hin. rewrite getFiles_ensureFolder in Hin. left. exact Hin.
  - rewrite (loop_skip h fs v c Eh) in Hin.
    apply IH in Hin as [Hin|(f & Hf & Hs & ->)]; [left; exact Hin|].
    right. exists f. split; [right; exact Hf|]. auto.
Qed.

(** The count that the loop returns. *)
Lemma loop_count (fs : list TFile) (v : Vault) (c n : nat) :
  snd (loop fs v c) = Some n ->
  n = (c + length (List.filter stale fs))%nat.
Proof.
  revert v c. induction fs as [|h fs IH]; intros v c.
  - cbn. intros H. injection H as <-. lia.
  - cbn [List.filter]. destruct (stale h) eqn:Eh.
    + rewrite (loop_move h fs v c Eh).
      destruct (Store.rename (Store.ensureFolder v archive) h (dest h))
        as [v'|]; [|discriminate].
      intros H. apply IH in H. cbn [length]. lia.
    + rewrite (loop_skip h fs v c Eh). apply IH.
Qed.

(** A loop over files none of which is stale does nothing. *)
Lemma loop_idle (fs : list TFile) (v : Vault) (c : nat) :
  (forall f, In f fs -> stale f = false) -> loop fs v c = (v, Some c).
Proof.
  induction fs as [|h fs IH]; intros H; [reflexivity|].
  rewrite (loop_skip h fs v c (H h (or_introl eq_refl))).
  apply IH. intros f Hf. apply H. right. exact Hf.
Qed.

(** When the way is clear the loop returns, and every stale file of the
    list lies at its new path. *)
Lemma loop_clear (fs : list TFile) (v : Vault) (c : nat) :
  List.NoDup (List.map dest (List.filter stale fs)) ->
  (forall f, In f fs -> stale f = true ->
     In f (Store.getFiles v) /\
     free_of "/"%char (dest f) = false /\
     Store.taken v (dest f) = false /\ dest f <> archive) ->
  snd (loop fs v c) = Some (c + length (List.filter stale fs))%nat /\
  Store.getFiles (fst (loop fs v c))
  = List.map (archived_as normalizePath settings currentIssueNumbers fs)
      (Store.getFiles v).
Proof.
  revert v c. induction fs as [|h fs IH]; intros v c Hnd Hfs.
  - cbn. split; [f_equal; lia|]. rewrite <- (List.map_id (Store.getFiles v)) at 1.
    apply List.map_ext. intros g. reflexivity.
  - cbn [List.filter] in *. destruct (stale h) eqn:Eh.
    + rewrite (loop_move h fs v c Eh).
      destruct (Hfs h (or_introl eq_refl) Eh) as (Hh & Hslash & Htaken & Hne).
      cbn [List.map] in Hnd. apply List.NoDup_cons_iff in Hnd as [Hfresh Hnd].
      assert (Ht : Store.taken (Store.ensureFolder v archive) (dest h) = false).
      { rewrite taken_ensureFolder by exact Hne. exact Htaken. }
      destruct (Store.rename (Store.ensureFolder v archive) h (dest h))
        as [v'|] eqn:Er.
      2:{ unfold Store.rename in Er. rewrite Ht in Er. discriminate. }
      pose proof (getFiles_rename _ _ _ _ Er) as Hfiles.
      rewrite getFiles_ensureFolder in Hfiles.
      assert (Hpath : path (Store.moved h (dest h)) = dest h)
        by (apply PathFacts.path_file_at; exact Hslash).
      assert (Hother : forall f, In f fs -> stale f = true -> f <> h).
      { intros f Hf Hs ->. apply Hfresh. apply List.in_map.
        apply List.filter_In. auto. }
      destruct (IH v' (S c) Hnd) as [G1 G2].
      { intros f Hf Hs.
        destruct (Hfs f (or_intror Hf) Hs) as (Hin & Hsl & Htk & Hn).
        split; [|split; [exact Hsl|split; [|exact Hn]]].
        - rewrite Hfiles. apply List.in_map_iff. exists f. split; [|exact Hin].
          rewrite bool_decide_eq_false_2; [reflexivity|].
          apply Hother; assumption.
        - apply (taken_rename _ _ _ _ _ Er).
          + rewrite taken_ensureFolder by exact Hn. exact Htk.
          + rewrite Hpath. intros E. apply Hfresh. rewrite <- E.
            apply List.in_map. apply List.filter_In. auto. }
      rewrite G1, G2, Hfiles. split; [cbn [length]; f_equal; lia|].
      rewrite List.map_map. apply List.map_ext_in. intros g Hg.
      unfold archived_as. cbn [existsb].
      destruct (bool_decide (g = h)) eqn:Eg.
      * apply bool_decide_eq_true_1 in Eg. subst g. cbn [orb andb].
        fold (stale h). rewrite Eh.
        destruct (existsb (fun f => bool_decide (Store.moved h (dest h) = f)) fs
                  && is_stale currentIssueNumbers (Store.moved h (dest h)))
          eqn:Em; [|reflexivity].
        exfalso. apply andb_true_iff in Em as [Em Hs].
        apply List.existsb_exists in Em as (x & Hx & Ex).
        apply bool_decide_eq_true_1 in Ex. subst x.
        destruct (Hfs _ (or_intror Hx) Hs) as (Hin & _).
        apply taken_file in Hin. fold dest in Hin. rewrite Hpath in Hin.
        congruence.
      * cbn [orb]. reflexivity.
    + rewrite (loop_skip h fs v c Eh).
      destruct (IH v c Hnd) as [G1 G2].
      { intros f Hf Hs. apply Hfs; [right; exact Hf|exact Hs]. }
      rewrite G1, G2. split; [reflexivity|].
      apply List.map_ext. intros g. unfold archived_as. cbn [existsb].
      destruct (bool_decide (g = h)) eqn:Eg; [|reflexivity].
      apply bool_decide_eq_true_1 in Eg. subst g. cbn [orb].
      fold (stale h). rewrite Eh, !andb_false_r. reflexivity.
Qed.

(** The files that [getIssueFiles] gives to the loop. *)
Lemma issue_files (v : Vault) :
  getIssueFiles normalizePath v settings
  = if Store.isFolder v folder
    then List.filter (is_issue_file folder settings) (Store.getFiles v)
    else [].
Proof.
  unfold getIssueFiles. fold folder.
  destruct (Store.isFolder v folder); [apply collect_files|reflexivity].
Qed.

Lemma issue_files_stale (v : Vault) (f : TFile) :
  In f (getIssueFiles normalizePath v settings) /\ stale f = true <->
  In f (Store.getFiles v) /\
  to_archive normalizePath v settings currentIssueNumbers f = true.
Proof.
  rewrite issue_files. unfold to_archive. fold folder.
  destruct (Store.isFolder v folder); cbn [andb].
  - rewrite List.filter_In, andb_true_iff. unfold stale. tauto.
  - split; [intros [[] _]|intros [_ H]; discriminate].
Qed.

Lemma stale_issue_files (v : Vault) :
  List.filter stale (getIssueFiles normalizePath v settings)
  = List.filter (to_archive normalizePath v settings currentIssueNumbers)
      (Store.getFiles v).
Proof.
  rewrite issue_files. unfold to_archive. fold folder.
  destruct (Store.isFolder v folder); cbn [andb].
  - apply filter_twice.
  - induction (Store.getFiles v); simpl; auto.
Qed.

(** What the archive does to the files, on every run. *)
Lemma archive_frame (v : Vault) :
  let result := archiveOldIssues normalizePath v settings currentIssueNumbers in
  (forall f, In f (Store.getFiles v) ->
     to_archive normalizePath v settings currentIssueNumbers f = false ->
     In f (Store.getFiles (fst result))) /\
  (forall f', In f' (Store.getFiles (fst result)) ->
     In f' (Store.getFiles v) \/
     exists f, In f (Store.getFiles v) /\
       to_archive normalizePath v settings currentIssueNumbers f = true /\
       f' = Store.moved f (dest f)) /\
  (forall n, snd result = Some n ->
     n = length (List.filter
                   (to_archive normalizePath v settings currentIssueNumbers)
                   (Store.getFiles v))).
Proof.
  intros result. unfold result, archiveOldIssues. fold loop.
  split; [|split].
  - intros f Hin Hf. apply loop_keeps; [exact Hin|].
    destruct (stale f) eqn:Es; [left|right; reflexivity].
    intros HL. assert (H : In f (Store.getFiles v) /\
      to_archive normalizePath v settings currentIssueNumbers f = true)
      by (apply issue_files_stale; auto).
    destruct H as [_ H]. congruence.
  - intros f' Hin. apply loop_origin in Hin as [Hin|(f & Hf & Hs & ->)];
      [left; exact Hin|].
    right. exists f.
    destruct (proj1 (issue_files_stale v f) (conj Hf Hs)) as [H1 H2]. auto.
  - intros n Hn. apply loop_count in Hn. rewrite stale_issue_files in Hn.
    exact Hn.
Qed.

(** What the archive does when the way is clear. *)
Lemma archive_exact (v : Vault) :
  archive_clear normalizePath v settings currentIssueNumbers ->
  let result := archiveOldIssues normalizePath v settings currentIssueNumbers in
  snd result
  = Some (length (List.filter
                    (to_archive normalizePath v settings currentIssueNumbers)
                    (Store.getFiles v))) /\
  Store.getFiles (fst result)
  = List.map (fun f => if to_archive normalizePath v settings
                            currentIssueNumbers f
                       then Store.moved f (dest f) else f)
      (Store.getFiles v).
Proof.
  intros [Hnd Hclear] result. unfold result, archiveOldIssues. fold loop.
  destruct (loop_clear (getIssueFiles normalizePath v settings) v 0) as [H1 H2].
  - rewrite stale_issue_files. exact Hnd.
  - intros f Hf Hs.
    destruct (proj1 (issue_files_stale v f) (conj Hf Hs)) as [Hin Ht].
    split; [exact Hin|]. apply Hclear. apply List.filter_In. auto.
  - rewrite H1, H2, stale_issue_files. split; [reflexivity|].
    apply List.map_ext_in. intros g Hg. unfold archived_as.
    rewrite issue_files. unfold to_archive. fold folder.
    destruct (Store.isFolder v folder); cbn [andb existsb]; [|reflexivity].
    rewrite (existsb_filter _ _ g Hg). reflexivity.
Qed.
End Facts.

(** C4, as stated, fails: not every managed file whose number is not
    synced is moved.  A file with a valid header that is named like the
    index, or that is not a markdown file, stays where it is. *)
Lemma managed_files_left_in_place :
  option_map fm_issue_number
    (parseFrontmatter (content (managed_file "Board.md" 2))) = Some 2%N /\
  option_map fm_issue_number
    (parseFrontmatter (content (managed_file "Two (2).txt" 2))) = Some 2%N /\
  bool_decide (2%N ∈ ({[1%N; 3%N]} : gset N)) = false /\
  archiveOldIssues plain_path stray_records DEFAULT_SETTINGS {[1%N; 3%N]}
  = (stray_records, Some 0%nat).
Proof. vm_compute. auto. Qed.

(** C4, amended.  The files that [archiveOldIssues] sets out to move are
    those that lie directly in the issues folder, are markdown files, are
    not named like the index file, have a valid header, and carry a number
    that is not in the synced set.  On every run, whether it returns or a
    rename is refused and it throws, every other file of the vault stays
    as it is, with its folder, name and content: so a managed file whose
    number is synced is untouched, and a file without a valid header is
    never moved or changed, whatever its name; every file of the vault
    afterwards was there before or is one of the files to move, at its
    new path in the archive; and a count that is returned is the number of
    the files to move.  When the way is clear, that is, when the new paths
    are distinct and none is taken, the run returns, and exactly the files
    to move have moved, each to its new path.  No file lies at the path of
    the archive folder. *)
Theorem archive_exactness (normalizePath : str -> str) (v : Vault)
    (settings : PluginSettings) (currentIssueNumbers : gset N) :
  Store.getFileByPath v (normalizePath (archivePath normalizePath settings))
  = None ->
  let result := archiveOldIssues normalizePath v settings currentIssueNumbers in
  let moves := to_archive normalizePath v settings currentIssueNumbers in
  (forall f, In f (Store.getFiles v) -> moves f = false ->
     In f (Store.getFiles (fst result))) /\
  (forall f fm, In f (Store.getFiles v) ->
     parseFrontmatter (content f) = Some fm ->
     fm_issue_number fm ∈ currentIssueNumbers ->
     In f (Store.getFiles (fst result))) /\
  (forall f, In f (Store.getFiles v) ->
     parseFrontmatter (content f) = None ->
     In f (Store.getFiles (fst result))) /\
  (forall f', In f' (Store.getFiles (fst result)) ->
     In f' (Store.getFiles v) \/
     exists f, In f (Store.getFiles v) /\ moves f = true /\
       f' = Store.moved f (newPath normalizePath settings f)) /\
  (forall n, snd result = Some n ->
     n = length (List.filter moves (Store.getFiles v))) /\
  (archive_clear normalizePath v settings currentIssueNumbers ->
   snd result = Some (length (List.filter moves (Store.getFiles v))) /\
   Store.getFiles (fst result)
   = List.map (fun f => if moves f
                        then Store.moved f (newPath normalizePath settings f)
                        else f)
       (Store.getFiles v)).
Proof.
  intros _ result moves.
  destruct (archive_frame normalizePath settings currentIssueNumbers v)
    as (Keep & Origin & Count).
  fold result in Keep, Origin, Count. fold moves in Keep, Origin, Count.
  split; [exact Keep|]. split; [|split; [|split; [exact Origin|split]]].
  - intros f fm Hin Hfm Hn. apply Keep; [exact Hin|].
    unfold moves, to_archive, is_stale. rewrite Hfm.
    rewrite bool_decide_eq_true_2 by exact Hn. apply andb_false_r.
  - intros f Hin Hfm. apply Keep; [exact Hin|].
    unfold moves, to_archive, is_stale. rewrite Hfm. apply andb_false_r.
  - exact Count.
  - intros Hclear.
    apply (archive_exact normalizePath settings currentIssueNumbers v Hclear).
Qed.

Lemma archive_clear_three :
  archive_clear plain_path three_issues DEFAULT_SETTINGS {[1%N; 3%N]}.
Proof.
  split.
  - vm_compute. constructor; [intros []|constructor].
  - intros f Hf. vm_compute in Hf. destruct Hf as [<-|[]].
    vm_compute. repeat split; discriminate.
Qed.

Lemma archive_exactness_witness :
  let result :=
    archiveOldIssues plain_path three_issues DEFAULT_SETTINGS {[1%N; 3%N]} in
  let moves := to_archive plain_path three_issues DEFAULT_SETTINGS {[1%N; 3%N]} in
  snd result = Some (length (List.filter moves (Store.getFiles three_issues))) /\
  Store.getFiles (fst result)
  = List.map (fun f => if moves f
                       then Store.moved f (newPath plain_path DEFAULT_SETTINGS f)
                       else f)
      (Store.getFiles three_issues).
Proof.
  apply (proj2 (proj2 (proj2 (proj2 (proj2
           (archive_exactness plain_path three_issues DEFAULT_SETTINGS
              {[1%N; 3%N]} eq_refl)))))).
  apply archive_clear_three.
Defined.

(** The files 1, 2 and 3 with 1 and 3 synced: file 2 goes to the archive,
    the others and the note without a header stay. *)
Example archive_of_three :
  let result :=
    archiveOldIssues plain_path three_issues DEFAULT_SETTINGS {[1%N; 3%N]} in
  Store.getFiles (fst result)
  = [managed_file "One (1).md" 1;
     {| parent := lit "GitHub Issues/_issues/_archive";
        name := lit "Two (2).md";
        content := content (managed_file "Two (2).md" 2) |};
     managed_file "Three (3).md" 3;
     plain_file "Four (4).md"] /\
  snd result = Some 1%nat.
Proof. vm_compute. auto. Qed.

(** When the archive holds a file with the name of file 2 already, the
    rename is refused: the archive throws, and every file is where it
    was. *)
Example archive_onto_taken_name :
  let result :=
    archiveOldIssues plain_path crowded_archive DEFAULT_SETTINGS {[1%N; 3%N]} in
  snd result = None /\
  Store.getFiles (fst result) = Store.getFiles crowded_archive.
Proof. vm_compute. auto. Qed.

End ArchiveFacts.

(** ** Image dedup *)

Module DedupFacts.
Import Images.

Section Facts.
Variable normalizePath sha256_hex base64 : str -> str.
Variable v : Vault.
Variable settings : PluginSettings.

Let process := processLocalImage normalizePath sha256_hex base64 v settings.

(** What the processing of a resolved image does, by the answer of the
    probe. *)
Lemma process_found (r : Remote) (p : str) (file : TFile) :
  findImageFile normalizePath v p = Some file ->
  let address := hosted_address sha256_hex settings file in
  let probed status :=
    {| blobs := blobs r; writable := writable r;
       requests := requests r ++ [(GET address, status)] |} in
  process r p =
  if bool_decide (address ∈ blobs r) then
    (probed 200%N, Some (blob_url settings (hosted_name sha256_hex file)))
  else
    let put := PUT (contents_url settings (hosted_name sha256_hex file))
                 (lit "Upload image " ++ hosted_name sha256_hex file)
                 (base64 (content file)) (branch_of settings) in
    if writable r then
      ({| blobs := {[address]} ∪ blobs r; writable := true;
          requests := (requests r ++ [(GET address, 404%N)]) ++ [(put, 201%N)] |},
       Some (blob_url settings (hosted_name sha256_hex file)))
    else
      ({| blobs := blobs r; writable := false;
          requests := (requests r ++ [(GET address, 404%N)]) ++ [(put, 403%N)] |},
       None).
Proof.
  intros Hf address probed. unfold process, processLocalImage. rewrite Hf.
  unfold imageExistsInRepo, requestUrl. cbn [respond blobs writable requests].
  fold (hosted_address sha256_hex settings file). fold address.
  destruct (bool_decide (address ∈ blobs r)) eqn:E; [reflexivity|].
  cbn [N.eqb Pos.eqb]. unfold uploadImageToRepo, requestUrl.
  cbn [respond blobs writable requests].
  fold (hosted_address sha256_hex settings file). fold address.
  rewrite E. destruct (writable r); reflexivity.
Qed.





(** The uploads of an image go to the address of its file. *)
Lemma process_puts (address : str) (r : Remote) (p : str) (file : TFile) :
  findImageFile normalizePath v p = Some file ->
  hosted_address sha256_hex settings file = address ->
  (forall q, In q (requests r) -> accepted q = accepted_put address q) ->
  forall q, In q (requests (fst (process r p))) ->
            accepted q = accepted_put address q.
Proof.
  intros Hf Ha Hr q. rewrite (process_found r p file Hf).
  cbv zeta. rewrite Ha.
  assert (Hput : forall m c s,
            accepted (PUT (contents_url settings (hosted_name sha256_hex file))
                        m c (branch_of settings), s)
            = accepted_put address
                (PUT (contents_url settings (hosted_name sha256_hex file))
                   m c (branch_of settings), s)).
  { intros m c s. unfold accepted, accepted_put, is_put. cbn [fst snd].
    fold (hosted_address sha256_hex settings file). rewrite Ha.
    rewrite str_eqb_refl. reflexivity. }
  destruct (bool_decide (address ∈ blobs r)); [|destruct (writable r)];
    cbn [fst requests]; rewrite ?List.in_app_iff; cbn [In];
    intros H; repeat (destruct H as [H|H]); subst; auto; try reflexivity;
    try contradiction.
Qed.

Lemma process_all_puts (address : str) (paths : list str) (r : Remote) :
  (forall p, In p paths ->
     exists file, findImageFile normalizePath v p = Some file /\
                  hosted_address sha256_hex settings file = address) ->
  (forall q, In q (requests r) -> accepted q = accepted_put address q) ->
  forall q,
    In q (requests (process_all normalizePath sha256_hex base64 v settings
                      paths r)) ->
    accepted q = accepted_put address q.
Proof.
  revert r. induction paths as [|p paths IH]; intros r Hp Hr; [exact Hr|].
  simpl. apply IH.
  - intros p' Hp'. apply Hp. right. exact Hp'.
  - destruct (Hp p (or_introl eq_refl)) as (file & Hf & Ha).
    apply (process_puts address r p file Hf Ha Hr).
Qed.





End Facts.




Example two_pushes_one_upload :
  List.map snd
    (requests
       (process_all plain_path toy_digest plain_path two_pictures
          hosting_settings [lit "notes/a.png"; lit "b.PNG"; lit "a.png"]
          empty_host))
  = [404%N; 201%N; 200%N; 200%N].
Proof. vm_compute. reflexivity. Qed.

(** The hosted name holds the extension: the same bytes under another
    extension are another hosted file, with an upload of its own. *)
Example same_bytes_other_extension :
  List.map snd
    (requests
       (process_all plain_path toy_digest plain_path two_extensions
          hosting_settings [lit "photo.jpg"; lit "photo.jpeg"] empty_host))
  = [404%N; 201%N; 404%N; 201%N].
Proof. vm_compute. reflexivity. Qed.

End DedupFacts.

(** ** The image round trip *)

Module RoundTripFacts.
Import Images TitleFacts.

Section Scans.
Context {A : Type}.
Implicit Types (m : str -> option (A * str)).



End Scans.



Lemma replace_all_none (m : str -> option (str * str)) (pre rest : str) :
  (forall a b, pre = a ++ b -> b <> [] -> m (b ++ rest) = None) ->
  replace_all m 0 (pre ++ rest) = pre ++ replace_all m 0 rest.
Proof.
  induction pre as [|c pre IH]; intros H; [reflexivity|].
  assert (H0 : m (c :: pre ++ rest) = None)
    by (apply (H [] (c :: pre)); [reflexivity|discriminate]).
  cbn [replace_all app]. rewrite H0. f_equal. apply IH.
  intros a b -> Hb. apply (H (c :: a) b); auto.
Qed.






(** *** The three patterns on an image reference *)









(** *** The marker and its inverse *)




(** *** Characters that a run leaves out *)









(** *** Bodies of texts and references *)

Section Quiet.
Context {A : Type}.
Implicit Types (m : str -> option A).





End Quiet.





(** *** The patterns open with two characters *)






(** *** What follows a text *)





(** *** Calm texts *)










(** *** The two patterns of a push on the references *)











(** *** The matches of a body *)




(** *** The first occurrence of a reference *)

(** *** The first occurrence of a reference *)






(** Where a marker may hold the start of a match: at its image. *)







(** *** Where a reference may stand in what a push has written *)












(** *** The two passes of a push *)




Section Passes.
Variable normalizePath sha256_hex base64 : str -> str.
Variable v : Vault.
Variable settings : PluginSettings.

Let url := url_of normalizePath sha256_hex v settings.
Let host := hosted normalizePath sha256_hex v settings.
Let push := push_one normalizePath sha256_hex base64 v settings.







(** One pass: the references that [sel] selects are replaced, from left
    to right, each at its first occurrence. *)







(** *** The pull of a pushed body *)



End Passes.



(** A path with two dollars: the text that replaces the reference goes
    through the substitutions of [replace], and the path comes back with
    one dollar. *)
Example embed_with_dollars :
  restoreLocalImages
    (pushed
       (snd (processImagesOnPush plain_path toy_digest plain_path odd_pictures
               hosting_settings empty_host (lit "see ![[a$$b.png]] here"))))
  = lit "see ![[a$b.png]] here".
Proof. vm_compute. reflexivity. Qed.


(** White space at the ends of a path: the pull trims what the marker
    holds, and the space is lost. *)
Example embed_with_space :
  restoreLocalImages
    (pushed
       (snd (processImagesOnPush trimmed_path toy_digest plain_path
               odd_pictures hosting_settings empty_host
               (lit "see ![[ img/c.png]] here"))))
  = lit "see ![[img/c.png]] here".
Proof. vm_compute. reflexivity. Qed.

(** A remote URL with a closing parenthesis: the pattern of the markers
    reads the URL up to it, and the end of the URL stays in the body. *)
Example url_with_parenthesis :
  restoreLocalImages
    (pushed
       (snd (processImagesOnPush plain_path toy_digest plain_path odd_pictures
               odd_branch_settings empty_host (lit "see ![[c.png]] here"))))
  = lit "see ![[c.png]]b/images/000000000000007.png?raw=true) here".
Proof. vm_compute. reflexivity. Qed.




(** The sample body, as text: the remote image and the comment stay, the
    label and the markdown syntax give way to wiki embeds, the paths and
    the texts are as they were. *)
Example round_trip_of_busy_body :
  body_of source busy_body (lit " end!")
  = lit "See ![logo](https://example.org/logo.png) and <!-- draft --> ![[img/wow!.png|[new]] then ![a chart](img/c.png) end!" /\
  restoreLocalImages
    (pushed
       (snd (processImagesOnPush plain_path toy_digest plain_path
               marked_pictures hosting_settings empty_host
               (body_of source busy_body (lit " end!")))))
  = lit "See ![logo](https://example.org/logo.png) and <!-- draft --> ![[img/wow!.png]] then ![[img/c.png]] end!".
Proof. split; vm_compute; reflexivity. Qed.

(** The same for two references to one picture. *)
Example round_trip_of_two :
  body_of source sample_body (lit " here!")
  = lit "Look! ![[c.png|300]] and ![the same](img/c.png) here!" /\
  restoreLocalImages
    (pushed
       (snd (processImagesOnPush plain_path toy_digest plain_path odd_pictures
               hosting_settings empty_host
               (body_of source sample_body (lit " here!")))))
  = lit "Look! ![[c.png]] and ![[img/c.png]] here!".
Proof. split; vm_compute; reflexivity. Qed.

End RoundTripFacts.

Module CodecFacts.

Lemma exact_none {R : Type} (l s : str) (k : str -> option R) :
  strip_prefix l s = None -> Re.exact l k s = None.
Proof. intros H. unfold Re.exact. rewrite H. reflexivity. Qed.

Lemma opt_sound {R : Type} (c : ascii) (k : str -> option R) (s : str) (x : R) :
  Re.opt c k s = Some x ->
  (exists s', s = c :: s' /\ k s' = Some x) \/ k s = Some x.
Proof.
  unfold Re.opt. destruct s as [|d s]; [auto|].
  destruct (ch d c) eqn:E; [|auto].
  apply ch_true in E. subst d.
  destruct (k s) eqn:Ek; [|auto]. intros H. left. exists s. split; congruence.
Qed.

Lemma split_lines_free (sep : ascii) (s line : str) :
  In line (split sep s) -> free_of sep line = true.
Proof.
  revert line. induction s as [|c s IH]; intros line; simpl.
  - intros [<-|[]]. reflexivity.
  - destruct (ch c sep) eqn:E.
    + intros [<-|H]; [reflexivity|auto].
    + destruct (split sep s) as [|l ls] eqn:Es.
      * intros [<-|[]]. simpl. unfold is_not. rewrite E. reflexivity.
      * intros [<-|H].
        -- simpl. unfold is_not at 1. rewrite E. simpl.
           apply IH. left. reflexivity.
        -- apply IH. right. exact H.
Qed.

(** The URL that the line pattern captures holds no double quote, and is
    a part of the line. *)
Lemma match_url_line_sound (line u : str) :
  match_url_line line = Some u ->
  free_of dq u = true /\ exists a b, line = a ++ u ++ b.
Proof.
  unfold match_url_line. intros H.
  apply exact_sound in H as (r0 & -> & H).
  apply star_sound in H as (sp & r1 & -> & _ & H).
  assert (Hcap : forall r, Re.star (is_not dq)
                  (fun cap => Re.opt dq (Re.star is_space (fun _ => Re.eos cap)))
                  r = Some u ->
                 free_of dq u = true /\ exists b, r = u ++ b).
  { intros r Hr. apply star_sound in Hr as (cap & r2 & -> & Hc & Hr).
    assert (Heos : forall r3, Re.star is_space (fun _ => Re.eos cap) r3 = Some u
                              -> cap = u).
    { intros r3 H3. apply star_sound in H3 as (sp2 & r4 & _ & _ & H3).
      destruct r4; simpl in H3; congruence. }
    apply opt_sound in Hr as [(s' & _ & Hr)|Hr]; apply Heos in Hr; subst cap;
      split; eauto. }
  apply opt_sound in H as [(s' & -> & H)|H]; apply Hcap in H as (Hq & b & ->).
  - split; [exact Hq|]. exists (lit "url:" ++ sp ++ [dq]), b.
    rewrite <- !app_assoc. reflexivity.
  - split; [exact Hq|]. exists (lit "url:" ++ sp), b.
    rewrite <- !app_assoc. reflexivity.
Qed.

Lemma first_url_sound (lines : list str) (u : str) :
  first_url lines = Some u ->
  exists line, In line lines /\ match_url_line line = Some u.
Proof.
  induction lines as [|l ls IH]; simpl; [discriminate|].
  destruct (match_url_line l) eqn:E.
  - intros H. injection H as <-. exists l. auto.
  - intros H. destruct (IH H) as (line & Hin & Hm). exists line. auto.
Qed.

(** What a record tells about the content it was read from. *)
Lemma parseFrontmatter_inv (content : str) (fm : IssueFrontmatter) :
  parseFrontmatter content = Some fm ->
  exists y owner repo num,
    match_frontmatter content = Some y /\
    first_url (split nl y) = Some (fm_url fm) /\
    fm_url fm <> [] /\
    match_issue_url (fm_url fm) = Some (owner, repo, num) /\
    parseInt num = Some (fm_issue_number fm) /\
    fm_repo fm = owner ++ lit "/" ++ repo.
Proof.
  unfold parseFrontmatter.
  destruct (match_frontmatter content) as [y|] eqn:Ey; [|discriminate].
  destruct (first_url (split nl y)) as [u|] eqn:Eu; [|discriminate].
  destruct u as [|c u]; [discriminate|].
  destruct (match_issue_url (c :: u)) as [[[owner repo] num]|] eqn:Em;
    [|discriminate].
  destruct (parseInt num) as [n|] eqn:En; [|discriminate].
  intros H. injection H as <-. cbn [fm_url fm_repo fm_issue_number].
  exists y, owner, repo, num. repeat split; auto; discriminate.
Qed.

Lemma url_of_record (content : str) (fm : IssueFrontmatter) :
  parseFrontmatter content = Some fm ->
  free_of dq (fm_url fm) = true /\ free_of nl (fm_url fm) = true.
Proof.
  intros H. apply parseFrontmatter_inv in H as (y & o & r & num & _ & Hu & _).
  apply first_url_sound in Hu as (line & Hin & Hm).
  apply match_url_line_sound in Hm as (Hq & a & b & Hl).
  split; [exact Hq|].
  apply split_lines_free in Hin. rewrite Hl, !free_of_app in Hin.
  apply andb_true_iff in Hin as [_ Hin]. apply andb_true_iff in Hin as [Hin _].
  exact Hin.
Qed.


Lemma startsWith_longer (p x r : str) :
  (length p <= length x)%nat -> startsWith (x ++ r) p = startsWith x p.
Proof.
  unfold startsWith. revert x. induction p as [|c p IH]; intros x H.
  - reflexivity.
  - destruct x as [|d x]; [simpl in H; lia|].
    cbn [app strip_prefix]. destruct (ch c d); [|reflexivity].
    apply IH. simpl in H. lia.
Qed.

Lemma match_frontmatter_first (y rest : str) :
  first_fence y ->
  match_frontmatter (lit "---" ++ [nl] ++ y ++ [nl] ++ lit "---" ++ rest)
  = Some y.
Proof.
  intros Hy. unfold match_frontmatter.
  replace (lit "---" ++ [nl] ++ y ++ [nl] ++ lit "---" ++ rest)
    with ((lit "---" ++ [nl]) ++ y ++ (nl :: lit "---") ++ rest)
    by (rewrite <- !app_assoc; reflexivity).
  rewrite exact_app. apply lazy_first.
  - intros a b Hab Hb. apply exact_none.
    specialize (Hy a b Hab Hb). unfold startsWith in Hy.
    pose proof (startsWith_longer (nl :: lit "---") (b ++ [nl] ++ lit "---") rest)
      as Hl.
    unfold startsWith in Hl. rewrite <- !app_assoc in Hl.
    change ([nl] ++ lit "---" ++ rest) with ((nl :: lit "---") ++ rest) in Hl.
    destruct (strip_prefix (nl :: lit "---") (b ++ (nl :: lit "---") ++ rest));
      [|reflexivity].
    destruct (strip_prefix (nl :: lit "---") (b ++ [nl] ++ lit "---"));
      [discriminate|].
    assert (Hlen : (length (nl :: lit "---") <= length (b ++ [nl] ++ lit "---"))%nat)
      by (rewrite length_app; simpl; lia).
    specialize (Hl Hlen). discriminate.
  - clear. induction y; simpl; auto.
  - rewrite exact_app. reflexivity.
Qed.

(** X1.  The record of a file is read from its header alone: what follows the
    first closing fence has no part in it. *)
Theorem body_is_not_parsed (y rest1 rest2 : str) :
  first_fence y ->
  parseFrontmatter (lit "---" ++ [nl] ++ y ++ [nl] ++ lit "---" ++ rest1)
  = parseFrontmatter (lit "---" ++ [nl] ++ y ++ [nl] ++ lit "---" ++ rest2).
Proof.
  intros Hy. unfold parseFrontmatter.
  rewrite !(match_frontmatter_first y _ Hy). reflexivity.
Qed.

Lemma free_first_fence (line : str) :
  free_of nl line = true -> first_fence line.
Proof.
  intros Hl a b Hab Hb. destruct b as [|c b]; [congruence|].
  unfold startsWith. cbn [app].
  rewrite strip_prefix_head; [reflexivity|].
  intros E. apply (free_of_head nl c a b); [|symmetry; exact E].
  rewrite <- Hab. exact Hl.
Qed.

Lemma body_is_not_parsed_witness :
  parseFrontmatter
    (lit "---" ++ [nl] ++ lit "url: https://github.com/octo/repo/issues/42"
     ++ [nl] ++ lit "---" ++ nl :: lit "one body")
  = parseFrontmatter
      (lit "---" ++ [nl] ++ lit "url: https://github.com/octo/repo/issues/42"
       ++ [nl] ++ lit "---" ++ nl :: lit "another body").
Proof.
  apply (body_is_not_parsed
           (lit "url: https://github.com/octo/repo/issues/42")).
  apply free_first_fence. vm_compute. reflexivity.
Defined.

Lemma extractBody_after (line body : str) :
  free_of nl line = true ->
  extractBody (lit "---" ++ [nl] ++ line ++ [nl] ++ lit "---" ++ [nl; nl] ++ body)
  = body.
Proof.
  intros Hl. unfold extractBody.
  replace (lit "---" ++ [nl] ++ line ++ [nl] ++ lit "---" ++ [nl; nl] ++ body)
    with ((lit "---" ++ [nl]) ++ line ++ (nl :: lit "---" ++ [nl]) ++ nl :: body)
    by (rewrite <- !app_assoc; reflexivity).
  rewrite exact_app.
  rewrite (lazy_first any_char _ line _ body); [reflexivity| | |].
  - intros a b Hab Hb. destruct b as [|c b]; [congruence|].
    apply exact_head_fail. apply (free_of_head nl c a b).
    rewrite <- Hab. exact Hl.
  - clear. induction line; simpl; auto.
  - rewrite exact_app. unfold Re.opt. rewrite ch_refl. reflexivity.
Qed.

(** X2.  The body that a push reads from a file written by a pull is the body
    that the pull wrote: the body of the issue with its local images
    restored. *)
Theorem extractBody_generated (issue : GitHubIssue) :
  free_of nl (url issue) = true ->
  extractBody (IssueFiles.generateIssueContent issue)
  = Images.restoreLocalImages (body issue).
Proof.
  intros Hu. unfold IssueFiles.generateIssueContent, generateFrontmatter.
  change (join [nl] [lit "---"; lit "url: " ++ [dq] ++ url issue ++ [dq]; lit "---"])
    with (lit "---" ++ [nl] ++ (lit "url: " ++ [dq] ++ url issue ++ [dq])
          ++ [nl] ++ lit "---").
  replace ((lit "---" ++ [nl] ++ (lit "url: " ++ [dq] ++ url issue ++ [dq])
            ++ [nl] ++ lit "---") ++ [nl; nl]
           ++ Images.restoreLocalImages (body issue))
    with (lit "---" ++ [nl] ++ (lit "url: " ++ [dq] ++ url issue ++ [dq])
          ++ [nl] ++ lit "---" ++ [nl; nl]
          ++ Images.restoreLocalImages (body issue))
    by (rewrite <- !app_assoc; reflexivity).
  apply (extractBody_after (lit "url: " ++ [dq] ++ url issue ++ [dq])).
  rewrite !free_of_app, Hu. reflexivity.
Qed.

Lemma extractBody_generated_witness :
  extractBody (IssueFiles.generateIssueContent sample_issue)
  = Images.restoreLocalImages (body sample_issue).
Proof.
  apply (extractBody_generated sample_issue). vm_compute. reflexivity.
Defined.


Lemma includes_here (p a b : str) : includes (a ++ p ++ b) p = true.
Proof.
  induction a as [|c a IH].
  - cbn [app]. destruct (p ++ b) eqn:E; cbn [includes]; unfold startsWith;
      rewrite <- E, strip_prefix_app; reflexivity.
  - cbn [app includes]. rewrite IH. apply orb_true_r.
Qed.

(** X3.  Without a closing fence that is followed by a line break, the content
    is its own body: nothing is cut off. *)
Theorem extractBody_without_fence (content : str) :
  includes content (nl :: lit "---" ++ [nl]) = false ->
  extractBody content = content.
Proof.
  intros Hno. unfold extractBody.
  destruct (Re.exact (lit "---" ++ [nl])
              (Re.lazy_star any_char (fun _ r =>
                 Re.exact (nl :: lit "---" ++ [nl])
                   (Re.opt nl (fun body => Some body)) r))
              content) as [body|] eqn:E; [exfalso|reflexivity].
  apply exact_sound in E as (r0 & -> & E).
  apply lazy_sound in E as (cap & r & -> & E & _).
  apply exact_sound in E as (r1 & -> & _).
  replace ((lit "---" ++ [nl]) ++ cap ++ (nl :: lit "---" ++ [nl]) ++ r1)
    with (((lit "---" ++ [nl]) ++ cap) ++ (nl :: lit "---" ++ [nl]) ++ r1)
    in Hno by (rewrite <- !app_assoc; reflexivity).
  rewrite includes_here in Hno. discriminate.
Qed.

Lemma extractBody_without_fence_witness :
  extractBody (generateFrontmatter sample_issue)
  = generateFrontmatter sample_issue.
Proof.
  apply (extractBody_without_fence (generateFrontmatter sample_issue)).
  vm_compute. reflexivity.
Defined.

(** X4.  What a push writes back to the file is read again as the same record
    and the same body: the record of the file does not change by a push,
    and a second push writes the same file. *)
Theorem push_keeps_record (content body : str) (fm : IssueFrontmatter) :
  parseFrontmatter content = Some fm ->
  parseFrontmatter (newContent fm body) = Some fm /\
  extractBody (newContent fm body) = body /\
  newContent fm (extractBody (newContent fm body)) = newContent fm body.
Proof.
  intros H. destruct (url_of_record content fm H) as [Hq Hn].
  apply parseFrontmatter_inv in H
    as (y & owner & repo & num & _ & _ & Hne & Hm & Hp & Hr).
  assert (Hline : free_of nl (lit "url: " ++ [dq] ++ fm_url fm ++ [dq]) = true)
    by (rewrite !free_of_app, Hn; reflexivity).
  assert (Hbody : extractBody (newContent fm body) = body).
  { unfold newContent, updatedFrontmatter.
    replace ((lit "---" ++ [nl] ++ lit "url: " ++ [dq] ++ fm_url fm ++ [dq]
              ++ [nl] ++ lit "---") ++ [nl; nl] ++ body)
      with (lit "---" ++ [nl] ++ (lit "url: " ++ [dq] ++ fm_url fm ++ [dq])
            ++ [nl] ++ lit "---" ++ [nl; nl] ++ body)
      by (rewrite <- !app_assoc; reflexivity).
    apply extractBody_after. exact Hline. }
  split; [|split; [exact Hbody|rewrite Hbody; reflexivity]].
  unfold newContent, updatedFrontmatter.
  replace ((lit "---" ++ [nl] ++ lit "url: " ++ [dq] ++ fm_url fm ++ [dq]
            ++ [nl] ++ lit "---") ++ [nl; nl] ++ body)
    with (lit "---" ++ [nl] ++ (lit "url: " ++ [dq] ++ fm_url fm ++ [dq])
          ++ [nl] ++ lit "---" ++ [nl; nl] ++ body)
    by (rewrite <- !app_assoc; reflexivity).
  unfold parseFrontmatter.
  rewrite (match_frontmatter_first _ _ (free_first_fence _ Hline)).
  rewrite (split_free _ _ Hline). cbn [first_url].
  rewrite (match_url_line_quoted _ Hq).
  destruct (fm_url fm) as [|c u] eqn:Eu; [congruence|].
  rewrite Hm, Hp. destruct fm as [u0 r0 n0]. cbn in *. subst. reflexivity.
Qed.

Lemma push_keeps_record_witness :
  parseFrontmatter
    (newContent {| fm_url := lit "https://github.com/octo/repo/issues/42";
                   fm_repo := lit "octo/repo"; fm_issue_number := 42 |}
       (lit "text"))
  = Some {| fm_url := lit "https://github.com/octo/repo/issues/42";
            fm_repo := lit "octo/repo"; fm_issue_number := 42 |}.
Proof.
  apply (push_keeps_record (generateFrontmatter sample_issue) (lit "text")).
  vm_compute. reflexivity.
Defined.

(** X5.  The repository of a record always splits at its slash into an owner
    and a name, both not empty: the push never meets a repository of
    another format. *)
Theorem repoParts_two (content : str) (fm : IssueFrontmatter) :
  parseFrontmatter content = Some fm ->
  exists owner repo,
    repoParts fm = [owner; repo] /\ owner <> [] /\ repo <> [] /\
    fm_repo fm = owner ++ lit "/" ++ repo.
Proof.
  intros H. apply parseFrontmatter_inv in H
    as (y & owner & repo & num & _ & _ & _ & Hm & _ & Hr).
  apply match_issue_url_shape in Hm
    as (pre & rest & _ & Ho & Hof & Hrn & Hrf & _).
  exists owner, repo. unfold repoParts. rewrite Hr.
  change (owner ++ lit "/" ++ repo) with (owner ++ "/"%char :: repo).
  rewrite split_app, (split_free _ _ Hof), (split_free _ _ Hrf). auto.
Qed.

Lemma repoParts_two_witness :
  exists owner repo,
    repoParts {| fm_url := lit "https://github.com/octo/repo/issues/42";
                 fm_repo := lit "octo/repo"; fm_issue_number := 42 |}
    = [owner; repo] /\ owner <> [] /\ repo <> [] /\
    lit "octo/repo" = owner ++ lit "/" ++ repo.
Proof.
  apply (repoParts_two (generateFrontmatter sample_issue)).
  vm_compute. reflexivity.
Defined.

End CodecFacts.

Module NameFacts.
Import Filenames.

Lemma forallb_rev_true {A : Type} (p : A -> bool) (l : list A) :
  forallb p l = true -> forallb p (rev l) = true.
Proof.
  induction l as [|c l IH]; [auto|]. simpl. intros H.
  apply andb_true_iff in H as [Hc Hl].
  rewrite forallb_app, (IH Hl). simpl. rewrite Hc. reflexivity.
Qed.

Lemma drop_while_split (p : ascii -> bool) (s : str) :
  exists pre, s = pre ++ drop_while p s.
Proof.
  induction s as [|c s [pre IH]]; [exists []; reflexivity|].
  simpl. destruct (p c).
  - exists (c :: pre). simpl. f_equal. exact IH.
  - exists []. reflexivity.
Qed.

(** What [strip_ends] keeps is a piece of the name. *)
Lemma strip_ends_split (s : str) :
  exists pre post, s = pre ++ strip_ends s ++ post.
Proof.
  unfold strip_ends.
  destruct (drop_while_split is_dash_or_space s) as [pre Hpre].
  set (m := drop_while is_dash_or_space s) in *.
  destruct (drop_while_split is_dash_or_space (rev m)) as [q Hq].
  exists pre, (rev q). rewrite <- rev_app_distr, <- Hq, rev_involutive.
  exact Hpre.
Qed.

Lemma forallb_piece {A : Type} (p : A -> bool) (a b c : list A) :
  forallb p (a ++ b ++ c) = true -> forallb p b = true.
Proof.
  rewrite !forallb_app. intros H. apply andb_true_iff in H as [_ H].
  apply andb_true_iff in H as [H _]. exact H.
Qed.

Lemma collapse_forallb (p : ascii -> bool) (s : str) :
  forallb p s = true -> forallb p (collapse_dashes s) = true.
Proof.
  induction s as [|c s IH]; [auto|]. intros H. simpl in H.
  apply andb_true_iff in H as [Hc Hs]. specialize (IH Hs).
  cbn [collapse_dashes]. destruct (is_dash c).
  - destruct s as [|d s]; [simpl; rewrite Hc; reflexivity|].
    destruct (is_dash d); [exact IH|].
    cbn [forallb]. rewrite Hc. exact IH.
  - cbn [forallb]. rewrite Hc. exact IH.
Qed.

Lemma is_reserved_short (s : str) :
  is_reserved s = true -> (length s <= 4)%nat.
Proof.
  unfold is_reserved. intros H. apply existsb_exists in H as (n & Hin & He).
  apply str_eqb_true in He. rewrite <- (length_map upper s), He.
  assert (Hall : forallb (fun n => (length n <=? 4)%nat)
                   ([lit "CON"; lit "PRN"; lit "AUX"; lit "NUL"]
                    ++ List.map (fun d => lit "COM" ++ d) device_numbers
                    ++ List.map (fun d => lit "LPT" ++ d) device_numbers) = true)
    by (vm_compute; reflexivity).
  rewrite forallb_forall in Hall. specialize (Hall n Hin).
  apply Nat.leb_le in Hall. exact Hall.
Qed.

Lemma is_reserved_underscore (s : str) :
  is_reserved s = true -> is_reserved (s ++ lit "_") = false.
Proof.
  unfold is_reserved. intros H. apply existsb_exists in H as (n & Hin & He).
  apply str_eqb_true in He. rewrite List.map_app, He.
  change (List.map upper (lit "_")) with (lit "_").
  assert (Hall : forallb (fun n =>
                   negb (existsb (str_eqb (n ++ lit "_"))
                           ([lit "CON"; lit "PRN"; lit "AUX"; lit "NUL"]
                            ++ List.map (fun d => lit "COM" ++ d) device_numbers
                            ++ List.map (fun d => lit "LPT" ++ d) device_numbers)))
                   ([lit "CON"; lit "PRN"; lit "AUX"; lit "NUL"]
                    ++ List.map (fun d => lit "COM" ++ d) device_numbers
                    ++ List.map (fun d => lit "LPT" ++ d) device_numbers) = true)
    by (vm_compute; reflexivity).
  rewrite forallb_forall in Hall. specialize (Hall n Hin).
  apply negb_true_iff in Hall. exact Hall.
Qed.

Lemma replaced_valid (name : str) :
  forallb valid_name_char
    (List.map (fun c => if is_invalid_char c then "-"%char else c) name) = true.
Proof.
  induction name as [|c name IH]; [reflexivity|]. cbn [List.map forallb].
  rewrite IH, andb_true_r. unfold valid_name_char.
  destruct (is_invalid_char c) eqn:E; [reflexivity|]. rewrite E. reflexivity.
Qed.

Lemma sanitizeFilename_chars (name : str) :
  forallb valid_name_char (sanitizeFilename name) = true.
Proof.
  unfold sanitizeFilename.
  set (s1 := List.map _ name).
  set (s3 := strip_ends (collapse_dashes s1)).
  assert (H3 : forallb valid_name_char s3 = true).
  { destruct (strip_ends_split (collapse_dashes s1)) as (pre & post & E).
    apply (forallb_piece _ pre s3 post). fold s3 in E. rewrite <- E.
    apply collapse_forallb. apply replaced_valid. }
  set (s4 := if is_reserved s3 then s3 ++ lit "_" else s3).
  assert (H4 : forallb valid_name_char s4 = true).
  { unfold s4. destruct (is_reserved s3); [|exact H3].
    rewrite forallb_app, H3. reflexivity. }
  set (s5 := match s4 with [] => lit "untitled" | _ :: _ => s4 end).
  assert (H5 : forallb valid_name_char s5 = true).
  { unfold s5. destruct s4; [reflexivity|exact H4]. }
  destruct (200 <? length s5)%nat; [|exact H5].
  rewrite <- (firstn_skipn 200 s5), forallb_app in H5.
  apply andb_true_iff in H5 as [H5 _]. exact H5.
Qed.

(** X6.  Whatever the title, the name is not empty, has at most 200
    characters, holds none of the invalid characters and is not a reserved
    device name. *)
Theorem sanitizeFilename_safe (name : str) : safe_name (sanitizeFilename name).
Proof.
  unfold sanitizeFilename.
  set (s1 := List.map _ name).
  set (s3 := strip_ends (collapse_dashes s1)).
  assert (H3 : forallb valid_name_char s3 = true).
  { destruct (strip_ends_split (collapse_dashes s1)) as (pre & post & E).
    apply (forallb_piece _ pre s3 post). fold s3 in E. rewrite <- E.
    apply collapse_forallb. apply replaced_valid. }
  set (s4 := if is_reserved s3 then s3 ++ lit "_" else s3).
  assert (H4 : forallb valid_name_char s4 = true /\ is_reserved s4 = false).
  { unfold s4. destruct (is_reserved s3) eqn:E.
    - split; [rewrite forallb_app, H3; reflexivity|].
      apply is_reserved_underscore. exact E.
    - auto. }
  set (s5 := match s4 with [] => lit "untitled" | _ :: _ => s4 end).
  assert (H5 : s5 <> [] /\ forallb valid_name_char s5 = true
               /\ is_reserved s5 = false).
  { unfold s5. destruct s4 as [|c s4']; [repeat split; discriminate|].
    destruct H4. repeat split; auto; discriminate. }
  destruct H5 as (Hne & Hv & Hr).
  destruct (200 <? length s5)%nat eqn:El.
  - apply Nat.ltb_lt in El. repeat split.
    + destruct s5; [congruence|discriminate].
    + rewrite length_firstn. lia.
    + rewrite <- (firstn_skipn 200 s5), forallb_app in Hv.
      apply andb_true_iff in Hv as [Hv _]. exact Hv.
    + destruct (is_reserved (firstn 200 s5)) eqn:E; [|reflexivity].
      apply is_reserved_short in E. rewrite length_firstn in E. lia.
  - apply Nat.ltb_ge in El. repeat split; auto.
Qed.


Lemma replaced_id (s : str) :
  forallb valid_name_char s = true ->
  List.map (fun c => if is_invalid_char c then "-"%char else c) s = s.
Proof.
  induction s as [|c s IH]; [reflexivity|]. cbn [forallb List.map].
  intros H. apply andb_true_iff in H as [Hc Hs]. rewrite (IH Hs).
  unfold valid_name_char in Hc. apply negb_true_iff in Hc. rewrite Hc.
  reflexivity.
Qed.

Lemma is_dash_true (c : ascii) : is_dash c = true -> c = "-"%char.
Proof. unfold is_dash. intros H. apply ch_true in H. exact H. Qed.

Lemma collapse_fixed (s : str) :
  no_pair "-"%char "-"%char s = true -> collapse_dashes s = s.
Proof.
  induction s as [|c s IH]; [reflexivity|]. cbn [no_pair collapse_dashes].
  intros H. apply andb_true_iff in H as [Hc Hs]. rewrite (IH Hs).
  fold (is_dash c) in Hc. destruct (is_dash c); [|reflexivity].
  destruct s as [|d s]; [reflexivity|]. fold (is_dash d) in Hc.
  destruct (is_dash d); [discriminate|reflexivity].
Qed.

Lemma collapse_head (s : str) : hd_error (collapse_dashes s) = hd_error s.
Proof.
  induction s as [|c s IH]; [reflexivity|]. cbn [collapse_dashes].
  destruct (is_dash c) eqn:Ec; [|reflexivity].
  destruct s as [|d s]; [reflexivity|].
  destruct (is_dash d) eqn:Ed; [|reflexivity].
  rewrite IH. apply is_dash_true in Ec, Ed. subst. reflexivity.
Qed.

Lemma no_pair_cons (c d x : ascii) (s : str) :
  no_pair c d (x :: s)
  = negb (ch x c && match hd_error s with Some y => ch y d | None => false end)
    && no_pair c d s.
Proof. destruct s; reflexivity. Qed.

Lemma collapse_no_pair (s : str) :
  no_pair "-"%char "-"%char (collapse_dashes s) = true.
Proof.
  induction s as [|c s IH]; [reflexivity|]. cbn [collapse_dashes].
  destruct (is_dash c) eqn:Ec.
  - destruct s as [|d s]; [cbn; rewrite andb_false_r; reflexivity|].
    destruct (is_dash d) eqn:Ed; [exact IH|].
    rewrite no_pair_cons, IH, collapse_head. cbn [hd_error].
    fold (is_dash d). rewrite Ed, andb_false_r. reflexivity.
  - rewrite no_pair_cons, IH. fold (is_dash c). rewrite Ec. reflexivity.
Qed.

Lemma no_pair_tail (c d : ascii) (a b : str) :
  no_pair c d (a ++ b) = true -> no_pair c d b = true.
Proof.
  induction a as [|x a IH]; [auto|].
  cbn [app]. rewrite no_pair_cons. intros H.
  apply andb_true_iff in H as [_ H]. auto.
Qed.

Lemma no_pair_front (c d : ascii) (a b : str) :
  no_pair c d (a ++ b) = true -> no_pair c d a = true.
Proof.
  induction a as [|x a IH]; [reflexivity|].
  cbn [app]. rewrite !no_pair_cons. intros H.
  apply andb_true_iff in H as [Hx H]. rewrite (IH H), andb_true_r.
  destruct a as [|y a]; [|exact Hx].
  cbn [hd_error]. rewrite andb_false_r. reflexivity.
Qed.

Lemma no_pair_snoc (c d x : ascii) (s : str) :
  no_pair c d s = true -> ch x d = false -> no_pair c d (s ++ [x]) = true.
Proof.
  intros Hs Hx. induction s as [|y s IH].
  - cbn. rewrite andb_false_r. reflexivity.
  - cbn [app]. rewrite no_pair_cons in Hs |- *.
    apply andb_true_iff in Hs as [Hy Hs]. rewrite (IH Hs), andb_true_r.
    destruct s as [|z s]; [|exact Hy].
    cbn [app hd_error]. rewrite Hx, andb_false_r. reflexivity.
Qed.

Lemma drop_while_clean (s : str) :
  starts_clean s -> drop_while is_dash_or_space s = s.
Proof. destruct s as [|c s]; [reflexivity|]. simpl. intros ->. reflexivity. Qed.

Lemma strip_ends_clean (s : str) :
  starts_clean s -> starts_clean (rev s) -> strip_ends s = s.
Proof.
  intros H1 H2. unfold strip_ends.
  rewrite (drop_while_clean s H1), (drop_while_clean (rev s) H2).
  apply rev_involutive.
Qed.

(** The three steps on a title: the characters are replaced, the dashes
    collapsed and the ends stripped. *)
Lemma stripped_clean (s1 : str) :
  let s3 := strip_ends (collapse_dashes s1) in
  no_pair "-"%char "-"%char s3 = true /\ starts_clean s3 /\
  starts_clean (rev s3) /\ (length s3 <= length s1)%nat.
Proof.
  intros s3. destruct (strip_ends_split (collapse_dashes s1)) as (pre & post & E).
  fold s3 in E. repeat split.
  - pose proof (collapse_no_pair s1) as H. rewrite E in H.
    apply no_pair_tail in H. apply no_pair_front in H. exact H.
  - apply TitleFacts.strip_ends_head.
  - unfold s3, strip_ends. rewrite rev_involutive.
    apply TitleFacts.drop_while_head.
  - assert (Hl : (length (collapse_dashes s1) <= length s1)%nat).
    { clear. induction s1 as [|c s IH]; [reflexivity|]. cbn [collapse_dashes].
      destruct (is_dash c); [|simpl; lia].
      destruct s as [|d s]; [reflexivity|].
      destruct (is_dash d); [simpl in *; lia|simpl in *; lia]. }
    rewrite E in Hl. rewrite !length_app in Hl. lia.
Qed.

Lemma sanitize_fixed (s : str) :
  s <> [] -> (length s <= 200)%nat -> forallb valid_name_char s = true ->
  is_reserved s = false -> no_pair "-"%char "-"%char s = true ->
  starts_clean s -> starts_clean (rev s) ->
  sanitizeFilename s = s.
Proof.
  intros Hne Hl Hv Hr Hp H1 H2. unfold sanitizeFilename.
  rewrite (replaced_id s Hv), (collapse_fixed s Hp), (strip_ends_clean s H1 H2).
  rewrite Hr. destruct s as [|c s]; [congruence|].
  apply Nat.ltb_ge in Hl. rewrite Hl. reflexivity.
Qed.

(** X7.  A clean name is its own file name. *)
Theorem sanitizeFilename_keeps_clean (s : str) :
  clean_name s -> sanitizeFilename s = s.
Proof.
  intros ((Hne & Hl & Hv & Hr) & Hp & H1 & H2).
  apply sanitize_fixed; assumption.
Qed.

Lemma sanitizeFilename_keeps_clean_witness :
  sanitizeFilename (lit "Fix the crash - part 2") = lit "Fix the crash - part 2".
Proof.
  apply (sanitizeFilename_keeps_clean (lit "Fix the crash - part 2")).
  repeat split; first [discriminate | vm_compute; reflexivity | simpl; lia].
Defined.

(** X8.  On a title of at most 200 characters the function is idempotent: the
    file name of a file name is that file name. *)
Theorem sanitizeFilename_idempotent (name : str) :
  (length name <= 200)%nat ->
  sanitizeFilename (sanitizeFilename name) = sanitizeFilename name.
Proof.
  intros Hlen. unfold sanitizeFilename at 2 3. cbv zeta.
  set (s1 := List.map _ name).
  destruct (stripped_clean s1) as (Hp & H1 & H2 & Hl3).
  set (s3 := strip_ends (collapse_dashes s1)) in *.
  assert (Hl : (length s3 <= 200)%nat)
    by (unfold s1 in Hl3; rewrite length_map in Hl3; lia).
  assert (Hv : forallb valid_name_char s3 = true).
  { destruct (strip_ends_split (collapse_dashes s1)) as (pre & post & E).
    apply (forallb_piece _ pre s3 post). fold s3 in E. rewrite <- E.
    apply collapse_forallb. apply replaced_valid. }
  destruct (is_reserved s3) eqn:Er.
  - pose proof (is_reserved_short s3 Er) as Hs.
    assert (Hne : s3 <> []) by (intros E; rewrite E in Er; discriminate).
    destruct (s3 ++ lit "_") as [|c0 t0] eqn:E0;
      [destruct s3; discriminate|]. rewrite <- E0.
    assert (Hl4 : (length (s3 ++ lit "_") <= 200)%nat)
      by (rewrite length_app; simpl; lia).
    pose proof Hl4 as Hl4'. apply Nat.ltb_ge in Hl4'. rewrite Hl4'.
    apply sanitize_fixed; auto.
    + rewrite E0. discriminate.
    + rewrite forallb_app, Hv. reflexivity.
    + apply is_reserved_underscore. exact Er.
    + apply no_pair_snoc; [exact Hp|reflexivity].
    + destruct s3; [congruence|exact H1].
    + rewrite rev_app_distr. reflexivity.
  - destruct s3 as [|c0 t0] eqn:E3; [vm_compute; reflexivity|].
    pose proof Hl as Hl'. apply Nat.ltb_ge in Hl'. rewrite Hl'.
    apply sanitize_fixed; auto; discriminate.
Qed.

Lemma sanitizeFilename_idempotent_witness :
  sanitizeFilename (sanitizeFilename (lit "Fix: crash -- now? "))
  = sanitizeFilename (lit "Fix: crash -- now? ").
Proof.
  apply (sanitizeFilename_idempotent (lit "Fix: crash -- now? ")).
  simpl. lia.
Defined.

End NameFacts.

Module NamingFacts.
Import Filenames.

(** Two runs of a class that end at the same character are the same
    run. *)
Lemma runs_eq (p : ascii -> bool) (c : ascii) (a a' x x' : str) :
  forallb p a = true -> forallb p a' = true -> p c = false ->
  a ++ c :: x = a' ++ c :: x' -> a = a' /\ x = x'.
Proof.
  intros Ha Ha' Hc. revert a' Ha'.
  induction a as [|d a IH]; intros [|d' a'] Ha' E; cbn [app] in E.
  - injection E as ->. auto.
  - injection E as <- _. simpl in Ha'. rewrite Hc in Ha'. discriminate.
  - injection E as -> _. simpl in Ha. rewrite Hc in Ha. discriminate.
  - injection E as -> E. simpl in Ha, Ha'.
    apply andb_true_iff in Ha as [_ Ha]. apply andb_true_iff in Ha' as [_ Ha'].
    destruct (IH Ha a' Ha' E) as [-> ->]. auto.
Qed.

Lemma forallb_rev_digits (s : str) :
  forallb is_digit s = true -> forallb is_digit (rev s) = true.
Proof.
  induction s as [|c s IH]; [auto|]. simpl. intros H.
  apply andb_true_iff in H as [Hc Hs].
  rewrite forallb_app, (IH Hs). simpl. rewrite Hc. reflexivity.
Qed.

(** X9.  The file name tells the number of the issue and the sanitized title:
    two issues get the same file name only when they have the same number
    and the same sanitized title. *)
Theorem generateIssueFilename_injective (a b : GitHubIssue) :
  generateIssueFilename a = generateIssueFilename b ->
  number a = number b /\
  sanitizeFilename (title a) = sanitizeFilename (title b).
Proof.
  unfold generateIssueFilename. intros E.
  apply (f_equal (@rev ascii)) in E.
  rewrite !rev_app_distr in E. cbn [rev lit list_ascii_of_string app] in E.
  rewrite <- !app_assoc in E. cbn [app] in E.
  injection E as E.
  apply runs_eq with (p := is_digit) in E as [Ed Es];
    [| apply forallb_rev_digits, decimal_digits
     | apply forallb_rev_digits, decimal_digits | reflexivity].
  split.
  - apply (f_equal (@rev ascii)) in Ed. rewrite !rev_involutive in Ed.
    pose proof (parseInt_decimal (number a)) as Pa.
    rewrite Ed, parseInt_decimal in Pa. congruence.
  - injection Es as Es. apply (f_equal (@rev ascii)) in Es.
    rewrite !rev_involutive in Es. exact Es.
Qed.

Lemma generateIssueFilename_injective_witness :
  number sample_issue = number twin_issue /\
  sanitizeFilename (title sample_issue) = sanitizeFilename (title twin_issue).
Proof.
  apply (generateIssueFilename_injective sample_issue twin_issue).
  vm_compute. reflexivity.
Defined.


Lemma lower_dot (c : ascii) : ch (Images.lower c) "."%char = ch c "."%char.
Proof. destruct c as [[] [] [] [] [] [] [] []]; vm_compute; reflexivity. Qed.

Lemma lower_free (s : str) :
  free_of "."%char s = true -> free_of "."%char (List.map Images.lower s) = true.
Proof.
  induction s as [|c s IH]; [auto|]. cbn [List.map free_of forallb].
  intros H. apply andb_true_iff in H as [Hc Hs].
  unfold free_of in IH. rewrite (IH Hs), andb_true_r.
  unfold is_not in *. rewrite lower_dot. exact Hc.
Qed.

Lemma last_split_free (sep : ascii) (s : str) :
  free_of sep (List.last (split sep s) []) = true.
Proof.
  destruct (split sep s) as [|l ls] eqn:E; [reflexivity|].
  apply (CodecFacts.split_lines_free sep s).
  rewrite E. clear E. revert l. induction ls as [|m ls IH]; intros l.
  - left. reflexivity.
  - right. apply (IH m).
Qed.

(** X10.  The extension under which a picture is hosted is never empty and holds
    no dot; it is the text after the last dot of the name, in lower case,
    and [png] when the name ends with a dot. *)
Theorem getExtension_of_name (filename : str) :
  Images.getExtension filename <> [] /\
  free_of "."%char (Images.getExtension filename) = true /\
  (forall stem ext, filename = stem ++ lit "." ++ ext -> ext <> [] ->
     free_of "."%char ext = true ->
     Images.getExtension filename = List.map Images.lower ext) /\
  (forall stem, filename = stem ++ lit "." ->
     Images.getExtension filename = lit "png").
Proof.
  unfold Images.getExtension.
  pose proof (last_split_free "."%char (List.map Images.lower filename)) as Hf.
  split; [|split; [|split]].
  - destruct (List.last _ _); discriminate.
  - destruct (List.last _ _); [reflexivity|exact Hf].
  - intros stem ext -> Hne He. rewrite List.map_app.
    change (List.map Images.lower (lit "." ++ ext))
      with ("."%char :: List.map Images.lower ext).
    rewrite split_app, (split_free _ _ (lower_free ext He)), List.last_last.
    destruct ext; [congruence|reflexivity].
  - intros stem ->. rewrite List.map_app.
    change (List.map Images.lower (lit ".")) with ("."%char :: []).
    rewrite split_app. change (split "."%char []) with [@nil ascii].
    rewrite List.last_last. reflexivity.
Qed.

Lemma getExtension_of_name_witness :
  Images.getExtension (lit "Photo.of.Me.JPG") = lit "jpg".
Proof.
  apply (proj1 (proj2 (proj2 (getExtension_of_name (lit "Photo.of.Me.JPG"))))
           (lit "Photo.of.Me") (lit "JPG")).
  - reflexivity.
  - discriminate.
  - reflexivity.
Defined.

End NamingFacts.

Module ProjectFacts.
Import Project CodecFacts NamingFacts.

(** A greedy run whose continuation always succeeds is the longest run. *)
Lemma star_longest {R : Type} (p : ascii -> bool) (k : str -> str -> option R)
    (s : str) :
  (forall cap r, k cap r <> None) ->
  exists run rest, s = run ++ rest /\ forallb p run = true /\ stops p rest /\
                   Re.star p k s = k run rest.
Proof.
  revert k. induction s as [|c s IH]; intros k Hk.
  - exists [], []. simpl. auto.
  - cbn [Re.star]. destruct (p c) eqn:E.
    + destruct (IH (fun cap r => k (c :: cap) r)) as (run & rest & -> & Hr & Hs & Hk').
      { intros cap r. apply Hk. }
      exists (c :: run), rest. cbn [app forallb]. rewrite E, Hr.
      repeat split; auto. rewrite Hk'.
      destruct (k (c :: run) rest) eqn:Ek; [reflexivity|].
      exfalso. exact (Hk _ _ Ek).
    + exists [], (c :: s). simpl. auto.
Qed.

Lemma project_at_sound (t : OwnerType) (s owner num : str) :
  project_at t s = Some (owner, num) ->
  exists rest,
    s = lit "/" ++ owner_segment t ++ lit "/" ++ owner ++ lit "/projects/"
        ++ num ++ rest /\
    owner <> [] /\ free_of "/"%char owner = true /\
    num <> [] /\ forallb is_digit num = true /\ stops is_digit rest.
Proof.
  unfold project_at. intros H.
  apply exact_sound in H as (r0 & -> & H).
  apply plus_sound in H as (c1 & o & r1 & -> & Ho & H).
  apply exact_sound in H as (r2 & -> & H).
  unfold Re.plus in H. destruct r2 as [|d r2]; [discriminate|].
  destruct (is_digit d) eqn:Ed; [|discriminate].
  destruct (star_longest is_digit (fun cap (_ : str) => Some (c1 :: o, d :: cap)) r2)
    as (run & rest & -> & Hrun & Hstop & Hk); [discriminate|].
  rewrite Hk in H. injection H as <- <-.
  exists rest. repeat split; try discriminate; auto.
  - rewrite <- !app_assoc. reflexivity.
  - simpl. rewrite Ed. exact Hrun.
Qed.


Lemma includes_suffix (a b p : str) : includes b p = true -> includes (a ++ b) p = true.
Proof.
  intros H. induction a as [|c a IH]; [exact H|].
  cbn [app includes]. rewrite IH. apply orb_true_r.
Qed.

Lemma match_project_sound (t : OwnerType) (url owner num : str) :
  match_project t url = Some (owner, num) ->
  exists pre rest,
    url = pre ++ lit "/" ++ owner_segment t ++ lit "/" ++ owner
          ++ lit "/projects/" ++ num ++ rest /\
    owner <> [] /\ free_of "/"%char owner = true /\
    num <> [] /\ forallb is_digit num = true /\ stops is_digit rest.
Proof.
  unfold match_project. intros H.
  apply search_sound in H as (pre & b & -> & H).
  apply project_at_sound in H as (rest & -> & H).
  exists pre, rest. split; [reflexivity|exact H].
Qed.

(** X11.  A project that is read from a URL is written in it: the URL holds
    [/orgs/] or [/users/], the owner (no slash, not empty), [/projects/]
    and the digits of the number, all of them; a user project is read only
    when no organisation project is written in the URL.  A URL without
    [/projects/] names no project. *)
Theorem parseProjectUrl_sound (url : str) :
  (forall info, parseProjectUrl url = Some info ->
     exists pre digits rest,
       url = pre ++ lit "/" ++ owner_segment (ownerType info) ++ lit "/"
             ++ owner info ++ lit "/projects/" ++ digits ++ rest /\
       owner info <> [] /\ free_of "/"%char (owner info) = true /\
       digits <> [] /\ forallb is_digit digits = true /\
       stops is_digit rest /\
       parseInt digits = Some (projectNumber info) /\
       (ownerType info = Users -> match_project Orgs url = None)) /\
  (includes url (lit "/projects/") = false -> parseProjectUrl url = None).
Proof.
  assert (Hinfo : forall t m info,
            match_project t url = Some m -> project_info t m = Some info ->
            exists pre digits rest,
              url = pre ++ lit "/" ++ owner_segment t ++ lit "/"
                    ++ owner info ++ lit "/projects/" ++ digits ++ rest /\
              owner info <> [] /\ free_of "/"%char (owner info) = true /\
              digits <> [] /\ forallb is_digit digits = true /\
              stops is_digit rest /\
              parseInt digits = Some (projectNumber info) /\ ownerType info = t).
  { intros t [o d] info Hm Hi. unfold project_info in Hi. cbn [fst snd] in Hi.
    destruct (parseInt d) as [n|] eqn:En; [|discriminate].
    injection Hi as <-. cbn [owner projectNumber ownerType].
    apply match_project_sound in Hm as (pre & rest & -> & H1 & H2 & H3 & H4 & H5).
    exists pre, d, rest. repeat split; auto. }
  split.
  - intros info. unfold parseProjectUrl.
    destruct (match_project Orgs url) as [m|] eqn:Eo.
    + intros Hi.
      destruct (Hinfo Orgs m info Eo Hi)
        as (pre & d & rest & E & H1 & H2 & H3 & H4 & H5 & H6 & Ht).
      exists pre, d, rest. rewrite Ht. repeat split; auto. discriminate.
    + destruct (match_project Users url) as [m|] eqn:Eu; [|discriminate].
      intros Hi.
      destruct (Hinfo Users m info Eu Hi)
        as (pre & d & rest & E & H1 & H2 & H3 & H4 & H5 & H6 & Ht).
      exists pre, d, rest. rewrite Ht. repeat split; auto.
  - intros Hno. unfold parseProjectUrl.
    assert (Hnone : forall t, match_project t url = None).
    { intros t. destruct (match_project t url) as [[o d]|] eqn:E; [|reflexivity].
      apply match_project_sound in E as (pre & rest & -> & _).
      replace (pre ++ lit "/" ++ owner_segment t ++ lit "/" ++ o
               ++ lit "/projects/" ++ d ++ rest)
        with ((pre ++ lit "/" ++ owner_segment t ++ lit "/" ++ o)
              ++ lit "/projects/" ++ d ++ rest) in Hno
        by (rewrite <- !app_assoc; reflexivity).
      rewrite includes_here in Hno. discriminate. }
    rewrite !Hnone. reflexivity.
Qed.

Lemma parseProjectUrl_sound_witness :
  parseProjectUrl (lit "https://github.com/octo/repo/issues/42") = None.
Proof.
  apply (proj2 (parseProjectUrl_sound
                  (lit "https://github.com/octo/repo/issues/42"))).
  vm_compute. reflexivity.
Defined.


(** *** The canonical project URL *)

Lemma silent_app {A : Type} (m : str -> option A) (x y rest : str) :
  quiet m x (y ++ rest) -> quiet m y rest -> quiet m (x ++ y) rest.
Proof.
  intros Hx Hy a b H Hb. symmetry in H.
  apply List.app_eq_app in H as [l [[-> ->]|[-> ->]]].
  - apply (Hy l b); [reflexivity|exact Hb].
  - destruct l as [|c l].
    + cbn [app] in Hb |- *. apply (Hy [] y); [reflexivity|exact Hb].
    + rewrite <- app_assoc. apply (Hx a (c :: l)); [reflexivity|discriminate].
Qed.

Lemma silent_cons {A : Type} (m : str -> option A) (c : ascii) (w rest : str) :
  m (c :: w ++ rest) = None -> quiet m w rest -> quiet m (c :: w) rest.
Proof.
  intros Hc Hw a b H Hb. destruct a as [|d a].
  - simpl in H. subst b. exact Hc.
  - injection H as -> ->. apply (Hw a b); [reflexivity|exact Hb].
Qed.

Lemma silent_free {A : Type} (m : str -> option A) (c : ascii) (w rest : str) :
  free_of c w = true -> (forall d s, d <> c -> m (d :: s) = None) ->
  quiet m w rest.
Proof.
  intros Hw Hm a b -> Hb. destruct b as [|d b]; [congruence|].
  apply Hm. apply (free_of_head c d a b). exact Hw.
Qed.

Lemma search_silent {A : Type} (m : str -> option A) (s : str) :
  quiet m s [] -> m [] = None -> Re.search m s = None.
Proof.
  intros Hq Hn. induction s as [|c s IH]; [simpl; rewrite Hn; reflexivity|].
  cbn [Re.search].
  assert (H0 : m (c :: s) = None).
  { rewrite <- (app_nil_r (c :: s)).
    apply (Hq [] (c :: s)); [reflexivity|discriminate]. }
  rewrite H0. apply IH. intros a b -> Hb.
  apply (Hq (c :: a) b); [reflexivity|exact Hb].
Qed.

Lemma segment_free (t : OwnerType) :
  forallb (is_not "/"%char) (owner_segment t) = true.
Proof. destruct t; reflexivity. Qed.

Lemma project_at_head (t : OwnerType) (c : ascii) (s : str) :
  c <> "/"%char -> project_at t (c :: s) = None.
Proof. intros H. apply exact_head_fail. exact H. Qed.

(** The pattern at a slash: the segment that follows is the kind, then
    come the owner, [projects] and the digits. *)
Lemma project_at_segment (t : OwnerType) (a tail owner num : str) :
  free_of "/"%char a = true ->
  project_at t ("/"%char :: a ++ "/"%char :: tail) = Some (owner, num) ->
  a = owner_segment t /\
  free_of "/"%char owner = true /\ num <> [] /\ forallb is_digit num = true /\
  exists rest,
    tail = owner ++ "/"%char :: lit "projects" ++ "/"%char :: num ++ rest.
Proof.
  intros Ha H.
  apply project_at_sound in H as (rest & E & _ & Ho & Hn & Hd & _).
  cbn [lit list_ascii_of_string app] in E. injection E as E.
  apply runs_eq with (p := is_not "/"%char) in E as [E1 E];
    [|exact Ha|apply segment_free|reflexivity].
  repeat split; auto. exists rest. exact E.
Qed.

Lemma digits_not_projects (num rest tail : str) :
  num <> [] -> forallb is_digit num = true ->
  lit "projects" ++ tail <> num ++ rest.
Proof.
  intros Hn Hd E. destruct num as [|d num]; [congruence|].
  cbn [lit list_ascii_of_string app] in E. injection E as <- _.
  simpl in Hd. discriminate.
Qed.

Lemma project_at_canonical (t : OwnerType) (owner rest : str) (n : N) :
  owner <> [] -> free_of "/"%char owner = true -> stops is_digit rest ->
  project_at t (lit "/" ++ owner_segment t ++ lit "/" ++ owner
                ++ lit "/projects/" ++ decimal n ++ rest)
  = Some (owner, decimal n).
Proof.
  intros Hne Ho Hr. unfold project_at.
  replace (lit "/" ++ owner_segment t ++ lit "/" ++ owner
           ++ lit "/projects/" ++ decimal n ++ rest)
    with ((lit "/" ++ owner_segment t ++ lit "/") ++ owner
          ++ lit "/projects/" ++ decimal n ++ rest)
    by (rewrite <- !app_assoc; reflexivity).
  rewrite exact_app. destruct owner as [|c o]; [congruence|].
  change ((c :: o) ++ ?x) with (c :: o ++ x).
  apply plus_first; [exact Ho|reflexivity|].
  rewrite exact_app.
  pose proof (decimal_not_nil n) as Hd. pose proof (decimal_digits n) as Hg.
  destruct (decimal n) as [|d ds]; [congruence|].
  change ((d :: ds) ++ rest) with (d :: ds ++ rest).
  apply plus_first; [exact Hg|exact Hr|reflexivity].
Qed.


Section Canonical.
Variables (scheme host owner rest : str) (n : N) (t : OwnerType).
Hypothesis Hscheme : free_of "/"%char scheme = true.
Hypothesis Hhost : free_of "/"%char host = true.
Hypothesis Howner : free_of "/"%char owner = true.

Let tail : str :=
  "/"%char :: owner_segment t ++ "/"%char :: owner ++ "/"%char
  :: lit "projects" ++ "/"%char :: decimal n ++ rest.

Lemma nothing_before (k : OwnerType) :
  quiet (project_at k) (scheme ++ lit "://" ++ host) tail.
Proof.
  apply silent_app.
  - apply (silent_free _ "/"%char); [exact Hscheme|apply project_at_head].
  - change (lit "://" ++ host) with (":"%char :: "/"%char :: "/"%char :: host).
    apply silent_cons; [apply project_at_head; discriminate|].
    apply silent_cons.
    + destruct (project_at k ("/"%char :: ("/"%char :: host) ++ tail))
        as [[o d]|] eqn:E; [exfalso|reflexivity].
      change ("/"%char :: ("/"%char :: host) ++ tail)
        with ("/"%char :: [] ++ "/"%char :: host ++ tail) in E.
      apply project_at_segment in E as (E & _); [|reflexivity].
      destruct k; discriminate.
    + apply silent_cons.
      * destruct (project_at k ("/"%char :: host ++ tail)) as [[o d]|] eqn:E;
          [exfalso|reflexivity].
        unfold tail in E.
        apply project_at_segment in E as (_ & Ho & Hn & Hd & r & E);
          [|exact Hhost].
        apply runs_eq with (p := is_not "/"%char) in E as [_ E];
          [|apply segment_free|exact Ho|reflexivity].
        apply runs_eq with (p := is_not "/"%char) in E as [_ E];
          [|exact Howner|reflexivity|reflexivity].
        exact (digits_not_projects d r _ Hn Hd E).
      * apply (silent_free _ "/"%char); [exact Hhost|apply project_at_head].
Qed.

Lemma nothing_after (k : OwnerType) :
  k <> t ->
  includes rest (lit "/" ++ owner_segment k ++ lit "/") = false ->
  quiet (project_at k) tail [].
Proof.
  intros Hk Hrest. unfold tail.
  apply silent_cons.
  { rewrite app_nil_r.
    destruct (project_at k _) as [[o d]|] eqn:E; [exfalso|reflexivity].
    apply project_at_segment in E as (E & _); [|apply segment_free].
    destruct k, t; try discriminate; congruence. }
  apply (silent_app _ (owner_segment t)).
  { apply (silent_free _ "/"%char); [apply segment_free|apply project_at_head]. }
  apply silent_cons.
  { rewrite app_nil_r.
    destruct (project_at k _) as [[o d]|] eqn:E; [exfalso|reflexivity].
    apply project_at_segment in E as (_ & Ho & Hn & Hd & r & E);
      [|exact Howner].
    apply runs_eq with (p := is_not "/"%char) in E as [_ E];
      [|reflexivity|exact Ho|reflexivity].
    pose proof (decimal_not_nil n) as Hne. pose proof (decimal_digits n) as Hg.
    destruct (decimal n) as [|c ds]; [congruence|].
    cbn [lit list_ascii_of_string app] in E. injection E as -> _.
    simpl in Hg. discriminate. }
  apply (silent_app _ owner).
  { apply (silent_free _ "/"%char); [exact Howner|apply project_at_head]. }
  apply silent_cons.
  { rewrite app_nil_r.
    destruct (project_at k _) as [[o d]|] eqn:E; [exfalso|reflexivity].
    apply project_at_segment in E as (E & _); [|reflexivity].
    destruct k; discriminate. }
  apply (silent_app _ (lit "projects")).
  { apply (silent_free _ "/"%char); [reflexivity|apply project_at_head]. }
  apply silent_cons.
  { rewrite app_nil_r.
    pose proof (decimal_not_nil n) as Hne. pose proof (decimal_digits n) as Hg.
    destruct (decimal n) as [|c ds]; [congruence|].
    simpl in Hg. apply andb_true_iff in Hg as [Hc _].
    unfold project_at. apply exact_none.
    destruct k; cbn [owner_segment lit list_ascii_of_string app strip_prefix];
      rewrite ch_refl;
      match goal with
      | |- context [ch ?x c] =>
          rewrite (proj2 (ch_false x c)); [reflexivity|intros <-; discriminate]
      end. }
  apply silent_app.
  { apply (silent_free _ "/"%char);
      [apply digits_free; [reflexivity|apply decimal_digits]
      |apply project_at_head]. }
  intros a b -> Hb. rewrite app_nil_r.
  destruct (project_at k b) as [[o d]|] eqn:E; [exfalso|reflexivity].
  apply project_at_sound in E as (r & -> & _).
  replace (a ++ lit "/" ++ owner_segment k ++ lit "/" ++ o ++ lit "/projects/"
           ++ d ++ r)
    with (a ++ (lit "/" ++ owner_segment k ++ lit "/") ++ o ++ lit "/projects/"
          ++ d ++ r) in Hrest
    by (rewrite <- !app_assoc; reflexivity).
  rewrite includes_here in Hrest. discriminate.
Qed.
End Canonical.


(** X12.  The URL of a project is read back: for
    [scheme://host/orgs/{owner}/projects/{number}], and for the same with
    [users] when nothing that follows the number holds [/orgs/], the
    owner type, the owner and the number are those of the URL, whatever
    follows the number. *)
Theorem parseProjectUrl_canonical (t : OwnerType)
    (scheme host owner rest : str) (n : N) :
  free_of "/"%char scheme = true -> free_of "/"%char host = true ->
  owner <> [] -> free_of "/"%char owner = true -> stops is_digit rest ->
  (t = Users -> includes rest (lit "/orgs/") = false) ->
  parseProjectUrl
    (scheme ++ lit "://" ++ host ++ lit "/" ++ owner_segment t ++ lit "/"
     ++ owner ++ lit "/projects/" ++ decimal n ++ rest)
  = Some {| ownerType := t; owner := owner; projectNumber := n |}.
Proof.
  intros Hs Hh Hne Ho Hr Hrest.
  set (tail := "/"%char :: owner_segment t ++ "/"%char :: owner ++ "/"%char
               :: lit "projects" ++ "/"%char :: decimal n ++ rest).
  assert (EU : scheme ++ lit "://" ++ host ++ lit "/" ++ owner_segment t
               ++ lit "/" ++ owner ++ lit "/projects/" ++ decimal n ++ rest
               = (scheme ++ lit "://" ++ host) ++ tail).
  { unfold tail. rewrite <- !app_assoc. reflexivity. }
  rewrite EU.
  assert (Hhere : match_project t ((scheme ++ lit "://" ++ host) ++ tail)
                  = Some (owner, decimal n)).
  { unfold match_project, tail.
    rewrite (search_skip _ _ _ (nothing_before scheme host owner rest n t
                                  Hs Hh Ho t)).
    apply search_here. apply (project_at_canonical t owner rest n Hne Ho Hr). }
  unfold parseProjectUrl. destruct t.
  - rewrite Hhere. unfold project_info. cbn [fst snd].
    rewrite parseInt_decimal. reflexivity.
  - assert (Hnone : match_project Orgs ((scheme ++ lit "://" ++ host) ++ tail)
                    = None).
    { unfold match_project, tail.
      rewrite (search_skip _ _ _ (nothing_before scheme host owner rest n Users
                                    Hs Hh Ho Orgs)).
      apply search_silent; [|reflexivity].
      apply (nothing_after owner rest n Users Ho Orgs); [discriminate|].
      apply Hrest. reflexivity. }
    rewrite Hnone, Hhere. unfold project_info. cbn [fst snd].
    rewrite parseInt_decimal. reflexivity.
Qed.

Lemma parseProjectUrl_canonical_witness :
  parseProjectUrl (lit "https://github.com/users/octo/projects/14/views/2")
  = Some {| ownerType := Users; owner := lit "octo"; projectNumber := 14 |}.
Proof.
  apply (parseProjectUrl_canonical Users (lit "https") (lit "github.com")
           (lit "octo") (lit "/views/2") 14);
    first [discriminate | reflexivity | intros _; reflexivity].
Defined.

End ProjectFacts.

Module RetryFacts.
Import Client.

Section Loop.
Context {T : Type}.
Implicit Types (transport : nat -> outcome T) (o : outcome T).

Lemma schedule_step (a : nat) :
  (a < 4)%nat ->
  firstn a backoff_schedule ++ [(INITIAL_DELAY_MS * 2 ^ N.of_nat a)%N]
  = firstn (S a) backoff_schedule.
Proof.
  intros H. destruct a as [|[|[|[|a]]]]; try reflexivity. lia.
Qed.

Lemma loop_schedule transport fuel attempt last tr :
  (attempt + fuel = 5)%nat -> attempts tr = attempt ->
  delays tr = firstn attempt backoff_schedule ->
  let tr' := fst (attempt_loop transport fuel attempt last tr) in
  (attempt <= attempts tr' <= 5)%nat /\
  ((0 < fuel)%nat -> (attempt < attempts tr')%nat) /\
  delays tr' = firstn (attempts tr' - 1) backoff_schedule.
Proof.
  revert attempt last tr. induction fuel as [|fuel IH];
    intros attempt last tr Hf Ha Hd; cbn [attempt_loop].
  - cbn [fst]. rewrite Ha. repeat split; try lia.
    rewrite Hd. assert (H5 : attempt = 5%nat) by lia.
    rewrite H5. reflexivity.
  - destruct (try_block attempt (transport attempt)) as [d|e|e l]; cbn [fst attempts delays].
    + rewrite Ha. repeat split; try lia. rewrite Hd. f_equal. lia.
    + rewrite Ha. repeat split; try lia. rewrite Hd. f_equal. lia.
    + match goal with
      | |- context [attempt_loop transport fuel (S attempt) (Some e) ?t] =>
          specialize (IH (S attempt) (Some e) t)
      end.
      destruct IH as (H1 & H2 & H3).
      * lia.
      * cbn [attempts]. rewrite Ha. reflexivity.
      * cbn [delays]. rewrite Hd.
        destruct (attempt <? MAX_RETRIES - 1)%nat eqn:E.
        -- apply Nat.ltb_lt in E. apply schedule_step. simpl in E. lia.
        -- apply Nat.ltb_ge in E. simpl in E.
           assert (H4 : attempt = 4%nat) by lia. rewrite H4. reflexivity.
      * cbv zeta. cbn [attempts delays logged] in *.
        repeat split; try lia. exact H3.
Qed.

Lemma catch_never_returns (attempt : nat) (e : thrown) (d : T) :
  catch_block (T := T) attempt e <> Returned d.
Proof.
  destruct e as [m|]; cbn [catch_block]; [|discriminate].
  destruct (isRetryable m && (attempt <? MAX_RETRIES - 1)%nat); discriminate.
Qed.

Lemma try_block_returned (attempt : nat) o (d : T) :
  try_block attempt o = Returned d <-> o = Response 200 (Parsed [] d).
Proof.
  split.
  - destruct o as [status payload|e]; cbn [try_block].
    + destruct (status =? 200)%N eqn:E.
      * apply N.eqb_eq in E. subst status.
        destruct payload as [errors data|m].
        -- destruct errors as [|x errors]; cbn [length Nat.ltb Nat.leb].
           ++ intros H. injection H as ->. reflexivity.
           ++ intros H. exfalso. exact (catch_never_returns _ _ _ H).
        -- intros H. exfalso. exact (catch_never_returns _ _ _ H).
      * destruct (existsb (N.eqb status) RETRYABLE_STATUS_CODES); [discriminate|].
        intros H. exfalso. exact (catch_never_returns _ _ _ H).
    + intros H. exfalso. exact (catch_never_returns _ _ _ H).
  - intros ->. reflexivity.
Qed.

Lemma loop_returns transport fuel attempt last tr (d : T) :
  attempts tr = attempt ->
  snd (attempt_loop transport fuel attempt last tr) = inl d ->
  exists k, (attempt <= k < attempt + fuel)%nat /\
    transport k = Response 200 (Parsed [] d) /\
    (forall i, (attempt <= i < k)%nat -> retried i (transport i)) /\
    attempts (fst (attempt_loop transport fuel attempt last tr)) = S k.
Proof.
  revert attempt last tr. induction fuel as [|fuel IH];
    intros attempt last tr Ha; cbn [attempt_loop].
  - cbn [snd]. discriminate.
  - destruct (try_block attempt (transport attempt)) as [d'|e|e l] eqn:E;
      cbn [fst snd attempts].
    + intros H. injection H as ->. exists attempt.
      split; [lia|]. split; [apply try_block_returned in E; exact E|].
      split; [intros i Hi; lia|]. rewrite Ha. reflexivity.
    + discriminate.
    + intros H. apply IH in H; [|cbn [attempts]; rewrite Ha; reflexivity].
      destruct H as (k & Hk & Hc & Hr & Hn). exists k.
      split; [lia|]. split; [exact Hc|]. split; [|exact Hn].
      intros i Hi. destruct (Nat.eq_dec i attempt) as [->|Hne].
      * exists e, l. exact E.
      * apply Hr. lia.
Qed.

Lemma loop_reaches transport fuel attempt last tr k (d : T) :
  attempts tr = attempt -> (attempt <= k < attempt + fuel)%nat ->
  transport k = Response 200 (Parsed [] d) ->
  (forall i, (attempt <= i < k)%nat -> retried i (transport i)) ->
  attempt_loop transport fuel attempt last tr
  = (fst (attempt_loop transport fuel attempt last tr), inl d) /\
  attempts (fst (attempt_loop transport fuel attempt last tr)) = S k.
Proof.
  revert attempt last tr. induction fuel as [|fuel IH];
    intros attempt last tr Ha Hk Hc Hr; [lia|].
  cbn [attempt_loop].
  destruct (Nat.eq_dec k attempt) as [->|Hne].
  - rewrite Hc. cbn [try_block N.eqb Pos.eqb length Nat.ltb Nat.leb fst attempts].
    rewrite Ha. split; reflexivity.
  - destruct (Hr attempt ltac:(lia)) as (e & l & E). rewrite E.
    apply IH.
    + cbn [attempts]. rewrite Ha. reflexivity.
    + lia.
    + exact Hc.
    + intros i Hi. apply Hr. lia.
Qed.

End Loop.

(** X13.  Whatever the transport does, the call makes between one and five
    attempts and sleeps, between them, the first delays of the schedule
    1000, 2000, 4000, 8000 ms, one after each attempt but the last: so it
    never sleeps more than 15 seconds in all. *)
Theorem graphqlRequest_schedule (T : Type) (transport : nat -> outcome T) :
  let tr := fst (graphqlRequest transport) in
  (1 <= attempts tr <= 5)%nat /\
  delays tr = firstn (attempts tr - 1) backoff_schedule /\
  (fold_right N.add 0 (delays tr) <= 15000)%N.
Proof.
  intros tr.
  pose proof (loop_schedule transport 5 0 None
                {| attempts := 0; delays := []; logged := [] |}
                eq_refl eq_refl eq_refl) as H.
  cbv zeta in H. change (attempt_loop transport 5 0 None _)
    with (graphqlRequest transport) in H. fold tr in H.
  destruct H as (H1 & H2 & H3). specialize (H2 ltac:(lia)).
  split; [lia|]. split; [exact H3|]. rewrite H3.
  destruct (attempts tr - 1)%nat as [|[|[|[|[|k]]]]]; cbn [firstn backoff_schedule fold_right]; lia.
Qed.

(** X14.  The call returns data exactly when one of its five attempts gets
    status 200 with no GraphQL error and every attempt before it failed in
    a way that is retried: it then returns the data of that attempt and has
    made no attempt after it. *)
Theorem graphqlRequest_returns (T : Type) (transport : nat -> outcome T) :
  (forall data, snd (graphqlRequest transport) = inl data ->
     exists k, (k < 5)%nat /\
       transport k = Response 200 (Parsed [] data) /\
       (forall i, (i < k)%nat -> retried i (transport i)) /\
       attempts (fst (graphqlRequest transport)) = S k) /\
  (forall k data, (k < 5)%nat ->
     transport k = Response 200 (Parsed [] data) ->
     (forall i, (i < k)%nat -> retried i (transport i)) ->
     snd (graphqlRequest transport) = inl data /\
     attempts (fst (graphqlRequest transport)) = S k).
Proof.
  split.
  - intros data H. unfold graphqlRequest in *.
    apply loop_returns in H; [|reflexivity].
    destruct H as (k & Hk & Hc & Hr & Hn). exists k.
    split; [unfold MAX_RETRIES in Hk; lia|]. split; [exact Hc|]. split; [|exact Hn].
    intros i Hi. apply Hr. lia.
  - intros k data Hk Hc Hr. unfold graphqlRequest.
    destruct (loop_reaches transport MAX_RETRIES 0 None
                {| attempts := 0; delays := []; logged := [] |} k data)
      as (H1 & H2).
    + reflexivity.
    + unfold MAX_RETRIES. lia.
    + exact Hc.
    + intros i Hi. apply Hr. lia.
    + rewrite H1 at 1. split; [reflexivity|exact H2].
Qed.


End RetryFacts.

Module PushFacts.
Import Images.

Lemma search_none_all {R : Type} (m : str -> option R) (s : str) :
  Re.search m s = None -> forall a b, s = a ++ b -> m b = None.
Proof.
  induction s as [|c s IH]; cbn [Re.search].
  - destruct (m []) eqn:E; [discriminate|]. intros _ a b H.
    symmetry in H. apply List.app_eq_nil in H as [_ ->]. exact E.
  - destruct (m (c :: s)) eqn:E; [discriminate|]. intros H a b Hab.
    destruct a as [|c' a].
    + cbn [app] in Hab. subst b. exact E.
    + injection Hab as _ Hab. exact (IH H a b Hab).
Qed.

Lemma scan_empty {A : Type} (m : str -> option (A * str)) (s : str) (k : nat) :
  (forall a b, s = a ++ b -> m b = None) -> scan m k s = [].
Proof.
  revert k. induction s as [|c s IH]; intros k H; [reflexivity|].
  cbn [scan]. destruct k as [|k].
  - rewrite (H [] (c :: s) eq_refl). apply IH.
    intros a b ->. apply (H (c :: a) b). reflexivity.
  - apply IH. intros a b ->. apply (H (c :: a) b). reflexivity.
Qed.

Lemma scan_found {A : Type} (m : str -> option (A * str)) (s : str) :
  scan m 0 s = [] -> forall a b, s = a ++ b -> b <> [] -> m b = None.
Proof.
  induction s as [|c s IH]; intros H a b Hab Hb.
  - symmetry in Hab. apply List.app_eq_nil in Hab as [_ ->]. contradiction.
  - cbn [scan] in H. destruct (m (c :: s)) as [[x rest]|] eqn:E; [discriminate|].
    destruct a as [|c' a].
    + cbn [app] in Hab. subst b. exact E.
    + injection Hab as _ Hab. exact (IH H a b Hab Hb).
Qed.

Lemma wikilink_match_of_at (s : str) :
  wikilink_match s = None <-> wikilink_at s = None.
Proof.
  unfold wikilink_match. destruct (wikilink_at s) as [[[p g] rest]|].
  - split; discriminate.
  - split; reflexivity.
Qed.

Lemma wiki_scan_search (content : str) :
  scan wikilink_match 0 content = [] <-> Re.search wikilink_at content = None.
Proof.
  split.
  - intros H. destruct (Re.search wikilink_at content) as [x|] eqn:E; [|reflexivity].
    apply search_sound in E as (a & b & Hab & Hb).
    destruct b as [|c b]; [discriminate Hb|].
    assert (Hn : wikilink_match (c :: b) = None)
      by (apply (scan_found _ _ H a (c :: b) Hab); discriminate).
    apply wikilink_match_of_at in Hn. congruence.
  - intros H. apply scan_empty. intros a b Hab.
    apply wikilink_match_of_at. exact (search_none_all _ _ H a b Hab).
Qed.

Lemma filter_nil_existsb {A : Type} (p : A -> bool) (l : list A) :
  List.filter p l = [] <-> existsb p l = false.
Proof.
  induction l as [|x l IH]; cbn [List.filter existsb]; [tauto|].
  destruct (p x); cbn [orb]; [split; discriminate|exact IH].
Qed.

Lemma extends_refl (r : Remote) : extends r r.
Proof.
  split; [exists []; symmetry; apply app_nil_r|].
  split; [set_solver|]. split; reflexivity.
Qed.

Lemma extends_trans (r1 r2 r3 : Remote) :
  extends r1 r2 -> extends r2 r3 -> extends r1 r3.
Proof.
  intros (( n1 & H1) & B1 & W1 & F1) ((n2 & H2) & B2 & W2 & F2).
  split; [exists (n1 ++ n2); rewrite H2, H1, app_assoc; reflexivity|].
  split; [intros x Hx; apply B2, B1, Hx|]. split; [congruence|].
  intros Hw. rewrite F2 by congruence. apply F1. exact Hw.
Qed.

Lemma extends_request (r : Remote) (q : request) :
  extends r (fst (requestUrl r q)).
Proof.
  unfold requestUrl. cbn [fst]. split; [|split; [|split]]; cbn [requests blobs writable].
  - eexists. reflexivity.
  - destruct q; [set_solver|]. destruct (writable r); set_solver.
  - reflexivity.
  - intros Hw. destruct q; [reflexivity|]. rewrite Hw. reflexivity.
Qed.

Section Pushing.
Variable normalizePath sha256_hex base64 : str -> str.
Variable v : Vault.
Variable settings : PluginSettings.

Let push := push_one normalizePath sha256_hex base64 v settings.

Lemma processLocalImage_extends (r : Remote) (p : str) :
  extends r (fst (processLocalImage normalizePath sha256_hex base64 v settings r p)).
Proof.
  unfold processLocalImage.
  destruct (findImageFile normalizePath v p) as [file|]; [|apply extends_refl].
  unfold imageExistsInRepo.
  pose proof (extends_request r
    (GET (address_of (contents_url settings (hosted_name sha256_hex file))
            (branch_of settings)))) as H1.
  destruct (requestUrl r _) as [r1 status] eqn:E1. cbn [fst] in H1.
  destruct (status =? 200)%N; [exact H1|].
  unfold uploadImageToRepo.
  pose proof (extends_request r1
    (PUT (contents_url settings (hosted_name sha256_hex file))
       (lit "Upload image " ++ hosted_name sha256_hex file)
       (base64 (content file)) (branch_of settings))) as H2.
  destruct (requestUrl r1 _) as [r2 status2] eqn:E2. cbn [fst] in H2.
  apply (extends_trans _ _ _ H1).
  destruct (400 <=? status2)%N; [exact H2|].
  destruct (negb (status2 =? 200)%N && negb (status2 =? 201)%N); exact H2.
Qed.

Lemma processLocalImage_missing (r : Remote) (p : str) :
  findImageFile normalizePath v p = None ->
  processLocalImage normalizePath sha256_hex base64 v settings r p = (r, None).
Proof. intros H. unfold processLocalImage. rewrite H. reflexivity. Qed.

Lemma push_one_step (r : Remote) (acc : push_result) (m : image_match) :
  let st := push (r, acc) m in
  (uploadedCount (snd st) + skippedCount (snd st)
   = S (uploadedCount acc + skippedCount acc))%nat /\
  (uploadedCount acc <= uploadedCount (snd st))%nat /\
  (uploadedCount (snd st) = uploadedCount acc -> pushed (snd st) = pushed acc) /\
  extends r (fst st).
Proof.
  unfold push, push_one.
  pose proof (processLocalImage_extends r (img_path m)) as He.
  destruct (processLocalImage normalizePath sha256_hex base64 v settings r
              (img_path m)) as [r' [rawUrl|]]; cbn [fst] in He;
    cbv zeta; cbn [fst snd uploadedCount skippedCount pushed].
  - split; [lia|]. split; [lia|]. split; [lia|exact He].
  - split; [lia|]. split; [lia|]. split; [reflexivity|exact He].
Qed.

Lemma push_loop (ms : list image_match) (r : Remote) (acc : push_result) :
  let st := fold_left push ms (r, acc) in
  (uploadedCount (snd st) + skippedCount (snd st)
   = uploadedCount acc + skippedCount acc + length ms)%nat /\
  (uploadedCount acc <= uploadedCount (snd st))%nat /\
  (uploadedCount (snd st) = uploadedCount acc -> pushed (snd st) = pushed acc) /\
  extends r (fst st).
Proof.
  revert r acc. induction ms as [|m ms IH]; intros r acc; cbn [fold_left].
  - cbn [fst snd length]. split; [lia|]. split; [lia|].
    split; [reflexivity|apply extends_refl].
  - pose proof (push_one_step r acc m) as Hs. cbv zeta in Hs.
    destruct (push (r, acc) m) as [r' acc']. cbn [fst snd] in Hs.
    destruct Hs as (S1 & S2 & S3 & S4).
    specialize (IH r' acc'). cbv zeta in IH. destruct IH as (H1 & H2 & H3 & H4).
    cbv zeta. cbn [length].
    split; [lia|]. split; [lia|]. split.
    + intros H. rewrite H3 by lia. apply S3. lia.
    + exact (extends_trans _ _ _ S4 H4).
Qed.

Lemma push_loop_missing (ms : list image_match) (r : Remote)
    (acc : push_result) :
  (forall m, In m ms -> findImageFile normalizePath v (img_path m) = None) ->
  fold_left push ms (r, acc)
  = (r, {| pushed := pushed acc; uploadedCount := uploadedCount acc;
           skippedCount := skippedCount acc + length ms |}).
Proof.
  revert acc. induction ms as [|m ms IH]; intros acc H; cbn [fold_left length].
  - rewrite Nat.add_0_r. destruct acc; reflexivity.
  - unfold push at 2. unfold push_one.
    rewrite processLocalImage_missing by (apply H; left; reflexivity).
    rewrite IH by (intros m' Hm; apply H; right; exact Hm).
    cbn [pushed uploadedCount skippedCount]. do 2 f_equal. lia.
Qed.

Lemma push_unfold (r : Remote) (content : str) :
  imageHostingRepo settings <> [] ->
  processImagesOnPush normalizePath sha256_hex base64 v settings r content
  = fold_left push (local_references content)
      (r, {| pushed := content; uploadedCount := 0; skippedCount := 0 |}).
Proof.
  intros H. unfold processImagesOnPush, local_references.
  destruct (imageHostingRepo settings); [contradiction|].
  cbv zeta. rewrite List.fold_left_app. reflexivity.
Qed.

Lemma push_nothing (r : Remote) (content : str) :
  local_references content = [] ->
  processImagesOnPush normalizePath sha256_hex base64 v settings r content
  = (r, {| pushed := content; uploadedCount := 0; skippedCount := 0 |}).
Proof.
  intros H. destruct (imageHostingRepo settings) eqn:E.
  - unfold processImagesOnPush. rewrite E. reflexivity.
  - rewrite push_unfold by (rewrite E; discriminate). rewrite H. reflexivity.
Qed.

End Pushing.

Lemma hasLocalImages_references (content : str) :
  hasLocalImages content = false <-> local_references content = [].
Proof.
  unfold hasLocalImages, local_references. split.
  - destruct (Re.search wikilink_at content) eqn:E; [discriminate|].
    intros H. apply wiki_scan_search in E. rewrite E.
    apply filter_nil_existsb. exact H.
  - intros H. apply List.app_eq_nil in H as [H1 H2].
    apply wiki_scan_search in H1. rewrite H1.
    apply filter_nil_existsb. exact H2.
Qed.

(** X15.  [hasLocalImages] is false exactly when a push finds no reference to
    work on.  So the check that [pushCurrentIssue] makes before it calls
    [processImagesOnPush] never changes what is sent: when the check fails,
    the call would have returned the body as it is, without a request. *)
Theorem hasLocalImages_guard (normalizePath sha256_hex base64 : str -> str)
    (v : Vault) (settings : PluginSettings) (r : Remote) (content : str) :
  (hasLocalImages content = false <-> local_references content = []) /\
  (hasLocalImages content = false ->
   processImagesOnPush normalizePath sha256_hex base64 v settings r content
   = (r, {| pushed := content; uploadedCount := 0; skippedCount := 0 |})) /\
  bodyForGitHub normalizePath sha256_hex base64 v settings r content
  = (fst (processImagesOnPush normalizePath sha256_hex base64 v settings r content),
     pushed (snd (processImagesOnPush normalizePath sha256_hex base64 v settings r
                    content))).
Proof.
  split; [apply hasLocalImages_references|]. split.
  - intros H. apply push_nothing. apply hasLocalImages_references. exact H.
  - unfold bodyForGitHub. destruct (hasLocalImages content) eqn:E.
    + destruct (imageHostingRepo settings) eqn:Er; [|reflexivity].
      unfold processImagesOnPush. rewrite Er. reflexivity.
    + rewrite push_nothing by (apply hasLocalImages_references; exact E).
      reflexivity.
Qed.

(** X16.  With a hosting repository set, every reference that the push looks at
    is counted once, as uploaded or as skipped; the body changes only if
    something was uploaded; and the host is only extended: its record of
    requests is kept, nothing hosted is lost, and a token that cannot
    write adds nothing. *)
Theorem push_accounts (normalizePath sha256_hex base64 : str -> str)
    (v : Vault) (settings : PluginSettings) (r : Remote) (content : str) :
  imageHostingRepo settings <> [] ->
  let result :=
    processImagesOnPush normalizePath sha256_hex base64 v settings r content in
  (uploadedCount (snd result) + skippedCount (snd result)
   = length (local_references content))%nat /\
  (uploadedCount (snd result) = 0%nat -> pushed (snd result) = content) /\
  extends r (fst result).
Proof.
  intros H result. unfold result. rewrite push_unfold by exact H.
  destruct (push_loop normalizePath sha256_hex base64 v settings
              (local_references content) r
              {| pushed := content; uploadedCount := 0; skippedCount := 0 |})
    as (H1 & H2 & H3 & H4).
  cbn [uploadedCount skippedCount pushed] in *.
  split; [rewrite H1; reflexivity|]. split; [exact H3|exact H4].
Qed.

Lemma push_accounts_witness :
  let result :=
    processImagesOnPush plain_path toy_digest plain_path two_pictures
      hosting_settings empty_host mixed_image_body in
  (uploadedCount (snd result) + skippedCount (snd result)
   = length (local_references mixed_image_body))%nat /\
  (uploadedCount (snd result) = 0%nat ->
   pushed (snd result) = mixed_image_body) /\
  extends empty_host (fst result).
Proof.
  apply (push_accounts plain_path toy_digest plain_path two_pictures
           hosting_settings empty_host mixed_image_body).
  vm_compute. discriminate.
Defined.

(** X17.  When none of the referenced images is found in the vault, the push
    asks nothing of the host and leaves the body as it is; every reference
    is counted as skipped. *)
Theorem push_of_missing_images (normalizePath sha256_hex base64 : str -> str)
    (v : Vault) (settings : PluginSettings) (r : Remote) (content : str) :
  imageHostingRepo settings <> [] ->
  (forall m, In m (local_references content) ->
     findImageFile normalizePath v (img_path m) = None) ->
  processImagesOnPush normalizePath sha256_hex base64 v settings r content
  = (r, {| pushed := content; uploadedCount := 0;
           skippedCount := length (local_references content) |}).
Proof.
  intros H Hm. rewrite push_unfold by exact H.
  rewrite push_loop_missing by exact Hm. reflexivity.
Qed.

Lemma push_of_missing_images_witness :
  processImagesOnPush plain_path toy_digest plain_path two_pictures
    hosting_settings empty_host missing_image_body
  = (empty_host, {| pushed := missing_image_body; uploadedCount := 0;
                    skippedCount := 2 |}).
Proof.
  apply (push_of_missing_images plain_path toy_digest plain_path two_pictures
           hosting_settings empty_host missing_image_body).
  - vm_compute. discriminate.
  - intros m Hm. vm_compute in Hm.
    destruct Hm as [<-|[<-|[]]]; vm_compute; reflexivity.
Defined.

Lemma local_comment_at_prefix (s : str) (x : str * str) :
  local_comment_at s = Some x ->
  exists rest, s = lit "<!-- obsidian-local: " ++ rest.
Proof.
  unfold local_comment_at. intros H.
  apply exact_sound in H as (rest & -> & _). exists rest. reflexivity.
Qed.

(** X18.  A body without the opening of a marker is restored to itself: a pull
    changes nothing in it. *)
Theorem restoreLocalImages_without_marker (content : str) :
  includes content (lit "<!-- obsidian-local: ") = false ->
  restoreLocalImages content = content.
Proof.
  intros H. unfold restoreLocalImages.
  rewrite <- (app_nil_r content) at 1.
  rewrite RoundTripFacts.replace_all_none; [apply app_nil_r|].
  intros a b -> Hb. rewrite app_nil_r.
  destruct (local_comment_at b) as [[localPath rest]|] eqn:E; [|reflexivity].
  apply local_comment_at_prefix in E as (rest' & ->).
  rewrite (CodecFacts.includes_here (lit "<!-- obsidian-local: ") a rest') in H.
  discriminate.
Qed.

Lemma restoreLocalImages_without_marker_witness :
  restoreLocalImages mixed_image_body = mixed_image_body.
Proof.
  apply (restoreLocalImages_without_marker mixed_image_body).
  vm_compute. reflexivity.
Defined.

End PushFacts.

Module PullFacts.
Import IssueFiles Pull.

Lemma find_app_some {A : Type} (P : A -> bool) (a b : list A) (x : A) :
  List.find P a = Some x -> List.find P (a ++ b) = Some x.
Proof.
  induction a as [|y a IH]; cbn [List.find app]; [discriminate|].
  destruct (P y); [auto|exact IH].
Qed.

Lemma find_app_none {A : Type} (P : A -> bool) (a b : list A) :
  List.find P a = None -> List.find P (a ++ b) = List.find P b.
Proof.
  induction a as [|y a IH]; cbn [List.find app]; [reflexivity|].
  destruct (P y); [discriminate|exact IH].
Qed.

Lemma find_map_keep {A : Type} (P : A -> bool) (g : A -> A) (l : list A) :
  (forall x, P (g x) = P x) ->
  List.find P (List.map g l) = option_map g (List.find P l).
Proof.
  intros H. induction l as [|y l IH]; cbn [List.find List.map]; [reflexivity|].
  rewrite H. destruct (P y); [reflexivity|exact IH].
Qed.

Lemma lookup_find (v : Vault) (p : str) :
  Store.getFileByPath v p
  = match List.find (at_path p) v with Some (File f) => Some f | _ => None end.
Proof. reflexivity. Qed.

Lemma isFolder_find (v : Vault) (p : str) :
  Store.isFolder v p
  = match List.find (at_path p) v with Some (Folder _) => true | _ => false end.
Proof. reflexivity. Qed.

Lemma path_eqb_ne (a b : str) : a <> b -> str_eqb a b = false.
Proof. apply bool_decide_eq_false_2. Qed.

Lemma path_eqb_eq (a b : str) : str_eqb a b = true -> a = b.
Proof. apply bool_decide_eq_true_1. Qed.

Lemma at_path_set_content (q c : str) (e : TFile) (n : TAbstractFile) :
  at_path q (set_content e c n) = at_path q n.
Proof.
  destruct n as [f|p]; [|reflexivity]. cbn [set_content].
  destruct (bool_decide (f = e)) eqn:E; [|reflexivity].
  apply bool_decide_eq_true_1 in E. subst f. reflexivity.
Qed.

Lemma find_ensure (v : Vault) (p q : str) :
  q <> p ->
  List.find (at_path q) (Store.ensureFolder v p) = List.find (at_path q) v.
Proof.
  intros Hq. unfold Store.ensureFolder, Store.createFolder.
  destruct (Store.isFolder v p); [reflexivity|].
  destruct (List.find (at_path q) v) as [x|] eqn:E.
  - apply find_app_some. exact E.
  - rewrite find_app_none by exact E. cbn [List.find at_path].
    rewrite path_eqb_ne by congruence. reflexivity.
Qed.

Lemma isFolder_ensure (v : Vault) (p : str) :
  Store.getFileByPath v p = None ->
  Store.isFolder (Store.ensureFolder v p) p = true.
Proof.
  intros H. unfold Store.ensureFolder, Store.createFolder.
  destruct (Store.isFolder v p) eqn:E; [exact E|].
  rewrite lookup_find in H. rewrite isFolder_find in E. rewrite isFolder_find.
  destruct (List.find (at_path p) v) as [[f|q]|] eqn:Ef; try discriminate.
  rewrite find_app_none by exact Ef. cbn [List.find at_path].
  rewrite str_eqb_refl. reflexivity.
Qed.

Lemma getFiles_In (v : Vault) (f : TFile) :
  In f (Store.getFiles v) <-> In (File f) v.
Proof.
  induction v as [|[g|q] v IH]; cbn [Store.getFiles In]; [tauto| |].
  - rewrite IH. split; intros [H|H]; auto; left; congruence.
  - rewrite IH. split; [auto|]. intros [H|H]; [discriminate|exact H].
Qed.

Lemma getFiles_set_content (e : TFile) (c : str) (v : Vault) :
  Store.getFiles (List.map (set_content e c) v)
  = List.map (fun f => if bool_decide (f = e)
                       then {| parent := parent e; name := name e; content := c |}
                       else f) (Store.getFiles v).
Proof.
  induction v as [|[g|q] v IH]; cbn [Store.getFiles List.map set_content];
    [reflexivity| |exact IH].
  destruct (bool_decide (g = e)); cbn [Store.getFiles]; rewrite IH; reflexivity.
Qed.

Lemma app_longer {A : Type} (l r : list A) : r <> [] -> l ++ r <> l.
Proof.
  intros Hr H. apply (f_equal (@length A)) in H. rewrite length_app in H.
  destruct r; [contradiction|]. simpl in H. lia.
Qed.

Section Put.
Variable normalizePath : str -> str.

(** What [put_file] does, on a host that leaves the two paths as they are
    and when no folder lies at the path of the file. *)
Lemma put_file_spec (v : Vault) (folderPath filename c : str) :
  let filePath := normalizePath (folderPath ++ lit "/" ++ filename ++ lit ".md") in
  normalizePath folderPath = folderPath ->
  filePath = folderPath ++ lit "/" ++ filename ++ lit ".md" ->
  Store.isFolder v filePath = false ->
  let result := put_file normalizePath v folderPath filename c in
  Store.getFileByPath (fst result) filePath = Some (snd result) /\
  content (snd result) = c /\
  path (snd result) = filePath /\
  (forall f, In f (Store.getFiles v) -> path f <> filePath ->
     In f (Store.getFiles (fst result))) /\
  (forall f, In f (Store.getFiles (fst result)) ->
     f = snd result \/ In f (Store.getFiles v)) /\
  (forall q, q <> folderPath ->
     Store.isFolder (fst result) q = Store.isFolder v q) /\
  (Store.getFileByPath v folderPath = None ->
   Store.isFolder (fst result) folderPath = true).
Proof.
  intros filePath Hnp Hfp Hnf result. unfold result, put_file. cbv zeta.
  fold filePath. rewrite Hnp.
  assert (Hne : filePath <> folderPath).
  { rewrite Hfp. apply app_longer. discriminate. }
  assert (F1 : forall q, q <> folderPath ->
                 List.find (at_path q) (Store.ensureFolder v folderPath)
                 = List.find (at_path q) v)
    by (intros q Hq; apply find_ensure; exact Hq).
  assert (F2 : Store.getFiles (Store.ensureFolder v folderPath) = Store.getFiles v)
    by apply ArchiveFacts.getFiles_ensureFolder.
  assert (F3 : Store.getFileByPath v folderPath = None ->
               Store.isFolder (Store.ensureFolder v folderPath) folderPath = true)
    by apply isFolder_ensure.
  assert (Hpc : path (Store.file_at filePath c) = filePath).
  { apply PathFacts.path_file_at. rewrite Hfp.
    apply PathFacts.joined_has_slash. }
  set (v1 := Store.ensureFolder v folderPath) in *.
  destruct (Store.getFileByPath v1 filePath) as [e|] eqn:E.
  - unfold Store.modify. cbv zeta. rewrite lookup_find in E.
    destruct (List.find (at_path filePath) v1) as [[e'|q]|] eqn:Ef;
      try discriminate.
    injection E as ->.
    assert (Hpe : path e = filePath).
    { apply List.find_some in Ef as [_ Hp]. apply path_eqb_eq. exact Hp. }
    change (fun n : TAbstractFile => match n with
                                     | File f => if bool_decide (f = e)
                                                 then File _ else n
                                     | Folder _ => n
                                     end) with (set_content e c).
    cbn [fst snd].
    split; [|split; [|split; [|split; [|split; [|split]]]]].
    + rewrite lookup_find, find_map_keep by (intros x; apply at_path_set_content).
      rewrite Ef. cbn [option_map set_content].
      rewrite bool_decide_eq_true_2 by reflexivity. reflexivity.
    + reflexivity.
    + exact Hpe.
    + intros f Hf Hp. rewrite getFiles_set_content, F2.
      apply List.in_map_iff. exists f. split; [|exact Hf].
      rewrite bool_decide_eq_false_2; [reflexivity|]. intros ->. contradiction.
    + intros f Hf. rewrite getFiles_set_content, F2 in Hf.
      apply List.in_map_iff in Hf as (x & Hx & Hin).
      destruct (bool_decide (x = e)); [left|right]; congruence.
    + intros q Hq. rewrite !isFolder_find.
      rewrite find_map_keep by (intros x; apply at_path_set_content).
      rewrite (F1 q Hq).
      destruct (List.find (at_path q) v) as [[f|p]|]; cbn [option_map set_content];
        try reflexivity.
      destruct (bool_decide (f = e)); reflexivity.
    + intros Hv. specialize (F3 Hv). rewrite isFolder_find in F3.
      rewrite isFolder_find.
      rewrite find_map_keep by (intros x; apply at_path_set_content).
      destruct (List.find (at_path folderPath) v1) as [[f|p]|];
        try discriminate. reflexivity.
  - assert (Ef : List.find (at_path filePath) v1 = None).
    { rewrite lookup_find in E. rewrite isFolder_find in Hnf.
      rewrite <- (F1 filePath Hne) in Hnf.
      destruct (List.find (at_path filePath) v1) as [[f|p]|];
        try discriminate. reflexivity. }
    unfold Store.create. cbn [fst snd].
    split; [|split; [|split; [|split; [|split; [|split]]]]].
    + rewrite lookup_find, find_app_none by exact Ef.
      cbn [List.find at_path]. rewrite Hpc, str_eqb_refl. reflexivity.
    + reflexivity.
    + exact Hpc.
    + intros f Hf _. rewrite ArchiveFacts.getFiles_app, F2.
      apply List.in_or_app. left. exact Hf.
    + intros f Hf. rewrite ArchiveFacts.getFiles_app, F2 in Hf.
      apply List.in_app_or in Hf as [Hf|[Hf|[]]]; [right; exact Hf|left; congruence].
    + intros q Hq. rewrite !isFolder_find. rewrite <- (F1 q Hq).
      destruct (List.find (at_path q) v1) as [x|] eqn:Eq.
      * rewrite (find_app_some _ _ _ _ Eq). reflexivity.
      * rewrite find_app_none by exact Eq. cbn [List.find at_path].
        destruct (str_eqb _ q); reflexivity.
    + intros Hv. specialize (F3 Hv). rewrite isFolder_find in F3.
      rewrite isFolder_find.
      destruct (List.find (at_path folderPath) v1) as [x|] eqn:Eq;
        [|discriminate].
      rewrite (find_app_some _ _ _ _ Eq). exact F3.
Qed.

Lemma put_file_again (v : Vault) (folderPath filename c : str) :
  let filePath := normalizePath (folderPath ++ lit "/" ++ filename ++ lit ".md") in
  normalizePath folderPath = folderPath ->
  filePath = folderPath ++ lit "/" ++ filename ++ lit ".md" ->
  Store.isFolder v filePath = false ->
  Store.getFileByPath v folderPath = None ->
  put_file normalizePath (fst (put_file normalizePath v folderPath filename c))
    folderPath filename c
  = put_file normalizePath v folderPath filename c.
Proof.
  intros filePath Hnp Hfp Hnf Hv.
  destruct (put_file_spec v folderPath filename c Hnp Hfp Hnf)
    as (H1 & H2 & _ & _ & _ & _ & H7).
  specialize (H7 Hv). fold filePath in H1.
  destruct (put_file normalizePath v folderPath filename c) as [v' file].
  cbn [fst snd] in *. unfold put_file. cbv zeta. fold filePath. rewrite Hnp.
  unfold Store.ensureFolder. rewrite H7, H1. unfold Store.modify. cbv zeta.
  assert (Hfile : {| parent := parent file; name := name file; content := c |}
                  = file) by (destruct file; cbn in *; congruence).
  rewrite Hfile. f_equal.
  rewrite <- (List.map_id v') at 2. apply List.map_ext. intros [f|q]; [|reflexivity].
  destruct (bool_decide (f = file)) eqn:Ef; [|reflexivity].
  apply bool_decide_eq_true_1 in Ef. congruence.
Qed.

Lemma writeIssueFile_put (v : Vault) (settings : PluginSettings)
    (issue : GitHubIssue) :
  writeIssueFile normalizePath v settings issue
  = put_file normalizePath v (getIssuesFolderPath normalizePath settings)
      (Filenames.generateIssueFilename issue) (generateIssueContent issue).
Proof. reflexivity. Qed.

Lemma writeIndexFile_put (v : Vault) (settings : PluginSettings)
    (issues : list GitHubIssue) (statusOptions : list StatusOption)
    (projectTitle : str) (iterationTitle : option str) (localeNow : str) :
  writeIndexFile normalizePath v settings issues statusOptions projectTitle
    iterationTitle localeNow
  = put_file normalizePath v (normalizePath (syncFolder settings))
      (indexFileName settings)
      (generateIndexContent issues statusOptions projectTitle iterationTitle
         (issuesFolder settings) localeNow).
Proof. reflexivity. Qed.

End Put.

(** X19.  After [writeIssueFile], the file at the path of the issue is the one
    returned and holds the generated content; every other file of the vault
    is still there, and no file but the returned one is new.  This is
    on a host that leaves the paths as they are, with no folder at the path
    of the file. *)
Theorem writeIssueFile_stores (normalizePath : str -> str) (v : Vault)
    (settings : PluginSettings) (issue : GitHubIssue) :
  steady normalizePath v settings issue ->
  let result := writeIssueFile normalizePath v settings issue in
  Store.getFileByPath (fst result) (issue_path normalizePath settings issue)
  = Some (snd result) /\
  content (snd result) = generateIssueContent issue /\
  (forall f, In f (Store.getFiles v) ->
     path f <> issue_path normalizePath settings issue ->
     In f (Store.getFiles (fst result))) /\
  (forall f, In f (Store.getFiles (fst result)) ->
     f = snd result \/ In f (Store.getFiles v)).
Proof.
  intros (Hnp & Hfp & Hnf) result. unfold result.
  rewrite writeIssueFile_put.
  destruct (put_file_spec normalizePath v
              (getIssuesFolderPath normalizePath settings)
              (Filenames.generateIssueFilename issue)
              (generateIssueContent issue) Hnp Hfp Hnf)
    as (H1 & H2 & _ & H4 & H5 & _).
  auto.
Qed.

Lemma writeIssueFile_stores_witness :
  let result :=
    writeIssueFile plain_path old_vault DEFAULT_SETTINGS sample_issue in
  Store.getFileByPath (fst result)
    (issue_path plain_path DEFAULT_SETTINGS sample_issue)
  = Some (snd result) /\
  content (snd result) = generateIssueContent sample_issue /\
  (forall f, In f (Store.getFiles old_vault) ->
     path f <> issue_path plain_path DEFAULT_SETTINGS sample_issue ->
     In f (Store.getFiles (fst result))) /\
  (forall f, In f (Store.getFiles (fst result)) ->
     f = snd result \/ In f (Store.getFiles old_vault)).
Proof.
  apply (writeIssueFile_stores plain_path old_vault DEFAULT_SETTINGS sample_issue).
  split; [reflexivity|]. split; [reflexivity|]. vm_compute. reflexivity.
Defined.

(** X20.  Writing the file of an issue a second time changes nothing: the vault
    and the file returned are those of the first write. *)
Theorem writeIssueFile_twice (normalizePath : str -> str) (v : Vault)
    (settings : PluginSettings) (issue : GitHubIssue) :
  steady normalizePath v settings issue ->
  Store.getFileByPath v (getIssuesFolderPath normalizePath settings) = None ->
  writeIssueFile normalizePath
    (fst (writeIssueFile normalizePath v settings issue)) settings issue
  = writeIssueFile normalizePath v settings issue.
Proof.
  intros (Hnp & Hfp & Hnf) Hv. rewrite !writeIssueFile_put.
  apply put_file_again; assumption.
Qed.

Lemma writeIssueFile_twice_witness :
  writeIssueFile plain_path
    (fst (writeIssueFile plain_path old_vault DEFAULT_SETTINGS sample_issue))
    DEFAULT_SETTINGS sample_issue
  = writeIssueFile plain_path old_vault DEFAULT_SETTINGS sample_issue.
Proof.
  apply (writeIssueFile_twice plain_path old_vault DEFAULT_SETTINGS sample_issue).
  - split; [reflexivity|]. split; [reflexivity|]. vm_compute. reflexivity.
  - vm_compute. reflexivity.
Defined.

Lemma lookup_In (v : Vault) (p : str) (f : TFile) :
  Store.getFileByPath v p = Some f -> In f (Store.getFiles v).
Proof.
  rewrite lookup_find. intros H.
  destruct (List.find (at_path p) v) as [[g|q]|] eqn:E; try discriminate.
  injection H as ->. apply List.find_some in E as [E _].
  apply getFiles_In. exact E.
Qed.

(** The content of the file of an issue is read as the record of the
    issue, whatever its body. *)
Lemma pulled_record (issue : GitHubIssue) :
  canonical_issue issue ->
  option_map fm_issue_number (parseFrontmatter (generateIssueContent issue))
  = Some (number issue).
Proof.
  intros (scheme & host & owner & repo & Hu & Ht & Hs & Hh & Ho & Hr & Hone & Hrne).
  apply andb_true_iff in Ht as [Hq Hn].
  assert (Hline : free_of nl (lit "url: " ++ [dq] ++ url issue ++ [dq]) = true).
  { rewrite !free_of_app, Hn. reflexivity. }
  unfold generateIssueContent, generateFrontmatter.
  change (join [nl] [lit "---"; lit "url: " ++ [dq] ++ url issue ++ [dq]; lit "---"])
    with (lit "---" ++ [nl] ++ (lit "url: " ++ [dq] ++ url issue ++ [dq])
          ++ [nl] ++ lit "---").
  replace ((lit "---" ++ [nl] ++ (lit "url: " ++ [dq] ++ url issue ++ [dq])
            ++ [nl] ++ lit "---") ++ [nl; nl]
           ++ Images.restoreLocalImages (body issue))
    with (lit "---" ++ [nl] ++ (lit "url: " ++ [dq] ++ url issue ++ [dq])
          ++ [nl] ++ lit "---" ++ [nl; nl]
          ++ Images.restoreLocalImages (body issue))
    by (rewrite <- !app_assoc; reflexivity).
  unfold parseFrontmatter.
  rewrite (CodecFacts.match_frontmatter_first _ _
             (CodecFacts.free_first_fence _ Hline)).
  rewrite (split_free _ _ Hline).
  cbn [first_url]. rewrite (match_url_line_quoted _ Hq).
  destruct (url issue) as [|c u] eqn:Eu.
  { exfalso. unfold canonical_issue_url in Hu. symmetry in Hu.
    apply app_eq_nil in Hu as [_ Hu]. discriminate. }
  rewrite Hu.
  rewrite (match_issue_url_canonical scheme host owner repo (number issue));
    auto.
  rewrite parseInt_decimal. reflexivity.
Qed.

Lemma index_not_record (issues : list GitHubIssue)
    (statusOptions : list StatusOption) (projectTitle : str)
    (iterationTitle : option str) (folderName localeNow : str) :
  parseFrontmatter (generateIndexContent issues statusOptions projectTitle
                      iterationTitle folderName localeNow) = None.
Proof.
  unfold generateIndexContent, index_lines, header_lines.
  assert (H : forall rest : list str, rest <> [] -> forall t,
            parseFrontmatter (join [nl] ((lit "# " ++ t) :: rest)) = None).
  { intros rest Hr t. destruct rest as [|l rest]; [contradiction|].
    reflexivity. }
  cbn [app]. apply H.
  destruct iterationTitle as [[|c t]|]; discriminate.
Qed.

Section Sync.
Variable normalizePath : str -> str.
Variable settings : PluginSettings.

Let folder := getIssuesFolderPath normalizePath settings.

Lemma write_one (v : Vault) (i : GitHubIssue) :
  steady normalizePath v settings i ->
  let r := writeIssueFile normalizePath v settings i in
  In (snd r) (Store.getFiles (fst r)) /\
  content (snd r) = generateIssueContent i /\
  path (snd r) = issue_path normalizePath settings i /\
  (forall f, In f (Store.getFiles v) ->
     path f <> issue_path normalizePath settings i ->
     In f (Store.getFiles (fst r))) /\
  (forall f, In f (Store.getFiles (fst r)) ->
     f = snd r \/ In f (Store.getFiles v)) /\
  (forall q, q <> folder -> Store.isFolder (fst r) q = Store.isFolder v q).
Proof.
  intros (Hnp & Hfp & Hnf) r. unfold r. rewrite writeIssueFile_put.
  destruct (put_file_spec normalizePath v folder
              (Filenames.generateIssueFilename i)
              (generateIssueContent i) Hnp Hfp Hnf)
    as (H1 & H2 & H3 & H4 & H5 & H6 & _).
  split; [exact (lookup_In _ _ _ H1)|]. auto.
Qed.

Lemma steady_path (v : Vault) (i : GitHubIssue) :
  steady normalizePath v settings i ->
  issue_path normalizePath settings i <> folder.
Proof.
  intros (_ & Hfp & _). rewrite Hfp. apply app_longer. discriminate.
Qed.

Lemma steady_moves (v v' : Vault) (i : GitHubIssue) :
  steady normalizePath v settings i ->
  (forall q, q <> folder -> Store.isFolder v' q = Store.isFolder v q) ->
  steady normalizePath v' settings i.
Proof.
  intros Hs Hf. pose proof (steady_path v i Hs) as Hne.
  destruct Hs as (Hnp & Hfp & Hnf).
  split; [exact Hnp|]. split; [exact Hfp|]. rewrite (Hf _ Hne). exact Hnf.
Qed.

Lemma steady_same_name (v : Vault) (i j : GitHubIssue) :
  steady normalizePath v settings i -> steady normalizePath v settings j ->
  issue_path normalizePath settings j = issue_path normalizePath settings i ->
  Filenames.generateIssueFilename j = Filenames.generateIssueFilename i.
Proof.
  intros (_ & Hi & _) (_ & Hj & _) H. rewrite Hi, Hj in H.
  apply List.app_inv_head in H. apply List.app_inv_head in H.
  apply List.app_inv_tail in H. exact H.
Qed.

Lemma write_issues_cons (v : Vault) (i : GitHubIssue) (l : list GitHubIssue) :
  write_issues normalizePath v settings (i :: l)
  = write_issues normalizePath
      (fst (writeIssueFile normalizePath v settings i)) settings l.
Proof. reflexivity. Qed.

Lemma write_issues_app (v : Vault) (a b : list GitHubIssue) :
  write_issues normalizePath v settings (a ++ b)
  = write_issues normalizePath (write_issues normalizePath v settings a)
      settings b.
Proof. unfold write_issues. apply List.fold_left_app. Qed.

Lemma write_issues_folders (l : list GitHubIssue) (v : Vault) (q : str) :
  (forall i, In i l -> steady normalizePath v settings i) ->
  q <> folder ->
  Store.isFolder (write_issues normalizePath v settings l) q
  = Store.isFolder v q.
Proof.
  revert v. induction l as [|i l IH]; intros v Hs Hq; [reflexivity|].
  rewrite write_issues_cons.
  destruct (write_one v i (Hs i (or_introl eq_refl)))
    as (_ & _ & _ & _ & _ & H6).
  rewrite IH; [apply H6; exact Hq| |exact Hq].
  intros j Hj. apply (steady_moves v); [apply Hs; right; exact Hj|exact H6].
Qed.

Lemma write_issues_keeps (l : list GitHubIssue) (v : Vault) (f : TFile) :
  (forall i, In i l -> steady normalizePath v settings i) ->
  In f (Store.getFiles v) ->
  exists f', In f' (Store.getFiles (write_issues normalizePath v settings l)) /\
    path f' = path f /\
    (f' = f \/
     exists j, In j l /\ issue_path normalizePath settings j = path f /\
               content f' = generateIssueContent j).
Proof.
  revert v f. induction l as [|i l IH]; intros v f Hs Hf.
  - exists f. auto.
  - rewrite write_issues_cons.
    destruct (write_one v i (Hs i (or_introl eq_refl)))
      as (H1 & H2 & H3 & H4 & _ & H6).
    assert (Hs' : forall j, In j l ->
              steady normalizePath (fst (writeIssueFile normalizePath v settings i))
                settings j).
    { intros j Hj. apply (steady_moves v); [apply Hs; right; exact Hj|exact H6]. }
    destruct (decide (path f = issue_path normalizePath settings i))
      as [He|Hne].
    + destruct (IH _ _ Hs' H1) as (f' & Hin & Hp & Hc).
      exists f'. split; [exact Hin|]. split; [congruence|]. right.
      destruct Hc as [->|(j & Hj & Hpj & Hcj)].
      * exists i. split; [left; reflexivity|]. split; [congruence|exact H2].
      * exists j. split; [right; exact Hj|]. split; [congruence|exact Hcj].
    + destruct (IH _ _ Hs' (H4 f Hf Hne)) as (f' & Hin & Hp & Hc).
      exists f'. split; [exact Hin|]. split; [exact Hp|].
      destruct Hc as [->|(j & Hj & Hpj & Hcj)]; [left; reflexivity|].
      right. exists j. split; [right; exact Hj|]. auto.
Qed.

Lemma write_issues_origin (l : list GitHubIssue) (v : Vault) (f : TFile) :
  (forall i, In i l -> steady normalizePath v settings i) ->
  In f (Store.getFiles (write_issues normalizePath v settings l)) ->
  In f (Store.getFiles v) \/
  exists j, In j l /\ content f = generateIssueContent j.
Proof.
  revert v. induction l as [|i l IH]; intros v Hs Hf; [left; exact Hf|].
  rewrite write_issues_cons in Hf.
  destruct (write_one v i (Hs i (or_introl eq_refl)))
    as (_ & H2 & _ & _ & H5 & H6).
  apply IH in Hf.
  - destruct Hf as [Hf|(j & Hj & Hc)].
    + apply H5 in Hf as [->|Hf]; [|left; exact Hf].
      right. exists i. split; [left; reflexivity|exact H2].
    + right. exists j. split; [right; exact Hj|exact Hc].
  - intros j Hj. apply (steady_moves v); [apply Hs; right; exact Hj|exact H6].
Qed.

Lemma write_issues_all (l : list GitHubIssue) (v : Vault) (i : GitHubIssue) :
  (forall i, In i l -> steady normalizePath v settings i) ->
  In i l ->
  exists f j, In f (Store.getFiles (write_issues normalizePath v settings l)) /\
    path f = issue_path normalizePath settings i /\ In j l /\
    Filenames.generateIssueFilename j = Filenames.generateIssueFilename i /\
    content f = generateIssueContent j.
Proof.
  intros Hs Hi. destruct (List.in_split _ _ Hi) as (a & b & ->).
  rewrite write_issues_app, write_issues_cons.
  set (va := write_issues normalizePath v settings a).
  assert (Hfa : forall q, q <> folder -> Store.isFolder va q = Store.isFolder v q).
  { intros q Hq. apply write_issues_folders; [|exact Hq].
    intros j Hj. apply Hs. apply List.in_or_app. left. exact Hj. }
  assert (Hsa : forall j, In j (i :: b) -> steady normalizePath va settings j).
  { intros j Hj. apply (steady_moves v); [|exact Hfa].
    apply Hs. apply List.in_or_app. right. exact Hj. }
  destruct (write_one va i (Hsa i (or_introl eq_refl)))
    as (H1 & H2 & H3 & _ & _ & H6).
  assert (Hsb : forall j, In j b ->
            steady normalizePath (fst (writeIssueFile normalizePath va settings i))
              settings j).
  { intros j Hj. apply (steady_moves va); [apply Hsa; right; exact Hj|exact H6]. }
  destruct (write_issues_keeps b _ _ Hsb H1) as (f' & Hin & Hp & Hc).
  exists f'. destruct Hc as [->|(j & Hj & Hpj & Hcj)].
  - exists i. split; [exact Hin|]. split; [exact H3|].
    split; [apply List.in_or_app; right; left; reflexivity|]. auto.
  - exists j. split; [exact Hin|]. split; [congruence|].
    split; [apply List.in_or_app; right; right; exact Hj|].
    split; [|exact Hcj].
    apply (steady_same_name va); [apply Hsa; left; reflexivity| |congruence].
    apply Hsa. right. exact Hj.
Qed.

End Sync.

Lemma not_stale_pulled (issues : list GitHubIssue) (j : GitHubIssue) (f : TFile) :
  In j issues -> canonical_issue j -> content f = generateIssueContent j ->
  is_stale (list_to_set (List.map number issues)) f = false.
Proof.
  intros Hj Hc Hf. unfold is_stale. rewrite Hf.
  pose proof (pulled_record j Hc) as Hr.
  destruct (parseFrontmatter (generateIssueContent j)) as [fm|]; [|reflexivity].
  cbn [option_map] in Hr. injection Hr as Hr.
  rewrite bool_decide_eq_true_2; [reflexivity|].
  apply elem_of_list_to_set, list_elem_of_In, List.in_map_iff.
  exists j. auto.
Qed.

Lemma not_stale_index (S : gset N) (f : TFile) (issues : list GitHubIssue)
    (statusOptions : list StatusOption) (projectTitle : str)
    (iterationTitle : option str) (folderName localeNow : str) :
  content f = generateIndexContent issues statusOptions projectTitle
                iterationTitle folderName localeNow ->
  is_stale S f = false.
Proof.
  intros Hf. unfold is_stale. rewrite Hf, index_not_record. reflexivity.
Qed.

(** X21.  What a sync leaves in the vault.  Every issue has a file at its path,
    with the content generated for the issue, or for an issue of the list
    that has the same file name and was written over it; the index file is
    at its path;
    and every file of the vault afterwards is a file that was there before,
    such a file at its new path in the archive because its number is not
    synced, a file of an issue, or the index.  So a sync, with or without
    the archive, never archives what it has written, and this holds as well
    of the vault that is left when the archive throws because a rename is
    refused.  This is on a host that leaves the paths as they are, for
    issues with canonical URLs, when the index does not lie at the path of
    an issue or of the issues folder, and when no file lies or is written
    at the path of the archive folder. *)
Theorem sync_keeps_pulled_files (normalizePath : str -> str) (v : Vault)
    (settings : PluginSettings) (issues : list GitHubIssue)
    (statusOptions : list StatusOption) (projectTitle : str)
    (iterationTitle : option str) (localeNow : str) (archiveOld : bool) :
  (forall i, In i issues ->
     canonical_issue i /\ steady normalizePath v settings i /\
     issue_path normalizePath settings i <> index_path normalizePath settings /\
     issue_path normalizePath settings i
     <> normalizePath (archivePath normalizePath settings)) ->
  steady_index normalizePath v settings ->
  index_path normalizePath settings
  <> getIssuesFolderPath normalizePath settings ->
  index_path normalizePath settings
  <> normalizePath (archivePath normalizePath settings) ->
  Store.getFileByPath v (normalizePath (archivePath normalizePath settings))
  = None ->
  let result :=
    syncProject_files normalizePath v settings issues statusOptions
      projectTitle iterationTitle localeNow archiveOld in
  let index :=
    generateIndexContent issues statusOptions projectTitle iterationTitle
      (issuesFolder settings) localeNow in
  let synced : gset N := list_to_set (List.map number issues) in
  (forall i, In i issues ->
     exists f j, In f (Store.getFiles (fst result)) /\
       path f = issue_path normalizePath settings i /\ In j issues /\
       Filenames.generateIssueFilename j = Filenames.generateIssueFilename i /\
       content f = generateIssueContent j) /\
  (exists g, In g (Store.getFiles (fst result)) /\
     path g = index_path normalizePath settings /\ content g = index) /\
  (forall f, In f (Store.getFiles (fst result)) ->
     In f (Store.getFiles v) \/
     (exists g, In g (Store.getFiles v) /\ is_stale synced g = true /\
                f = Store.moved g (newPath normalizePath settings g)) \/
     (exists j, In j issues /\ content f = generateIssueContent j) \/
     content f = index) /\
  (archiveOld = false -> snd result = Some 0%nat).
Proof.
  intros Hall (Inp & Ifp & Inf) Hidx _ _ result index synced. subst synced.
  assert (Hs : forall i, In i issues -> steady normalizePath v settings i)
    by (intros i Hi; apply Hall; exact Hi).
  set (v1 := write_issues normalizePath v settings issues).
  assert (A : forall i, In i issues ->
            exists f j, In f (Store.getFiles v1) /\
              path f = issue_path normalizePath settings i /\ In j issues /\
              Filenames.generateIssueFilename j = Filenames.generateIssueFilename i /\
              content f = generateIssueContent j)
    by (intros i Hi; apply write_issues_all; assumption).
  assert (B : forall f, In f (Store.getFiles v1) ->
            In f (Store.getFiles v) \/
            exists j, In j issues /\ content f = generateIssueContent j)
    by (intros f Hf; apply (write_issues_origin normalizePath settings issues v);
        assumption).
  assert (C : Store.isFolder v1 (index_path normalizePath settings) = false).
  { unfold v1. rewrite write_issues_folders; assumption. }
  pose proof (put_file_spec normalizePath v1 (normalizePath (syncFolder settings))
                (indexFileName settings) index Inp Ifp C) as P.
  cbv zeta in P.
  change (put_file normalizePath v1 (normalizePath (syncFolder settings))
            (indexFileName settings) index)
    with (writeIndexFile normalizePath v1 settings issues statusOptions
            projectTitle iterationTitle localeNow) in P.
  fold (index_path normalizePath settings) in P.
  destruct P as (P1 & P2 & P3 & P4 & P5 & _).
  set (w := writeIndexFile normalizePath v1 settings issues statusOptions
              projectTitle iterationTitle localeNow) in *.
  apply lookup_In in P1.
  assert (A2 : forall i, In i issues ->
            exists f j, In f (Store.getFiles (fst w)) /\
              path f = issue_path normalizePath settings i /\ In j issues /\
              Filenames.generateIssueFilename j = Filenames.generateIssueFilename i /\
              content f = generateIssueContent j).
  { intros i Hi. destruct (A i Hi) as (f & j & Hf & Hp & Hj & Hn & Hc).
    exists f, j. split; [|auto]. apply P4; [exact Hf|].
    rewrite Hp. apply Hall. exact Hi. }
  assert (B2 : forall f, In f (Store.getFiles (fst w)) ->
            In f (Store.getFiles v) \/
            (exists j, In j issues /\ content f = generateIssueContent j) \/
            content f = index).
  { intros f Hf. apply P5 in Hf as [->|Hf]; [auto|].
    apply B in Hf as [Hf|Hf]; auto. }
  assert (Hresult : result
                    = if archiveOld
                      then archiveOldIssues normalizePath (fst w) settings
                             (list_to_set (List.map number issues))
                      else (fst w, Some 0%nat)) by reflexivity.
  destruct archiveOld; rewrite Hresult; cbn [fst snd].
  - destruct (ArchiveFacts.archive_frame normalizePath settings
                (list_to_set (List.map number issues)) (fst w))
      as (Keep & Origin & _).
    assert (Fresh : forall f, In f (Store.getFiles (fst w)) ->
              is_stale (list_to_set (List.map number issues)) f = false ->
              In f (Store.getFiles
                      (fst (archiveOldIssues normalizePath (fst w) settings
                              (list_to_set (List.map number issues)))))).
    { intros f Hf Hst. apply Keep; [exact Hf|]. unfold to_archive.
      rewrite Hst. apply andb_false_r. }
    split; [|split; [|split; [|discriminate]]].
    + intros i Hi. destruct (A2 i Hi) as (f & j & Hf & Hp & Hj & Hn & Hc).
      exists f, j. split; [|auto]. apply Fresh; [exact Hf|].
      exact (not_stale_pulled issues j f Hj (proj1 (Hall j Hj)) Hc).
    + exists (snd w). split; [|auto]. apply Fresh; [exact P1|].
      exact (not_stale_index _ (snd w) _ _ _ _ _ _ P2).
    + intros f Hf. apply Origin in Hf as [Hf|(g & Hg & Ht & ->)].
      * destruct (B2 f Hf) as [Hv|[Hw|Hc]]; auto.
      * unfold to_archive in Ht. apply andb_true_iff in Ht as [_ Ht].
        destruct (B2 g Hg) as [Hv|[(j & Hj & Hc)|Hc]].
        -- right. left. exists g. auto.
        -- rewrite (not_stale_pulled issues j g Hj (proj1 (Hall j Hj)) Hc) in Ht.
           discriminate.
        -- rewrite (not_stale_index _ g _ _ _ _ _ _ Hc) in Ht.
           discriminate.
  - split; [exact A2|]. split; [exists (snd w); auto|]. split; [|reflexivity].
    intros f Hf. destruct (B2 f Hf) as [Hv|[Hw|Hc]]; auto.
Qed.

Lemma sync_keeps_pulled_files_witness :
  let result :=
    syncProject_files plain_path old_vault DEFAULT_SETTINGS [sample_issue]
      [status_option "Todo"] (lit "Project") None (lit "now") true in
  let index :=
    generateIndexContent [sample_issue] [status_option "Todo"] (lit "Project")
      None (issuesFolder DEFAULT_SETTINGS) (lit "now") in
  let synced : gset N := list_to_set (List.map number [sample_issue]) in
  (forall i, In i [sample_issue] ->
     exists f j, In f (Store.getFiles (fst result)) /\
       path f = issue_path plain_path DEFAULT_SETTINGS i /\
       In j [sample_issue] /\
       Filenames.generateIssueFilename j = Filenames.generateIssueFilename i /\
       content f = generateIssueContent j) /\
  (exists g, In g (Store.getFiles (fst result)) /\
     path g = index_path plain_path DEFAULT_SETTINGS /\ content g = index) /\
  (forall f, In f (Store.getFiles (fst result)) ->
     In f (Store.getFiles old_vault) \/
     (exists g, In g (Store.getFiles old_vault) /\ is_stale synced g = true /\
                f = Store.moved g (newPath plain_path DEFAULT_SETTINGS g)) \/
     (exists j, In j [sample_issue] /\ content f = generateIssueContent j) \/
     content f = index) /\
  (true = false -> snd result = Some 0%nat).
Proof.
  apply (sync_keeps_pulled_files plain_path old_vault DEFAULT_SETTINGS
           [sample_issue] [status_option "Todo"] (lit "Project") None
           (lit "now") true).
  - intros i [<-|[]]. split; [|split; [|split]].
    + exists (lit "https"), (lit "github.com"), (lit "octo"), (lit "repo").
      repeat split; try reflexivity; discriminate.
    + split; [reflexivity|]. split; [reflexivity|]. vm_compute. reflexivity.
    + vm_compute. discriminate.
    + vm_compute. discriminate.
  - split; [reflexivity|]. split; [reflexivity|]. vm_compute. reflexivity.
  - vm_compute. discriminate.
  - vm_compute. discriminate.
  - vm_compute. reflexivity.
Defined.

(** X22.  When the way to the archive is clear and no new path lies
    directly in the issues folder, the archive returns, and archiving a
    second time with the same numbers moves nothing: it returns the count 0
    and the vault is as the first run left it.  No file lies at the path of
    the archive folder. *)
Theorem archiveOldIssues_twice (normalizePath : str -> str) (v : Vault)
    (settings : PluginSettings) (currentIssueNumbers : gset N) :
  Store.getFileByPath v (normalizePath (archivePath normalizePath settings))
  = None ->
  archive_clear normalizePath v settings currentIssueNumbers ->
  (forall f, In f (Store.getFiles v) ->
     to_archive normalizePath v settings currentIssueNumbers f = true ->
     Store.folder_of (newPath normalizePath settings f)
     <> getIssuesFolderPath normalizePath settings) ->
  let first := archiveOldIssues normalizePath v settings currentIssueNumbers in
  snd first
  = Some (length (List.filter
                    (to_archive normalizePath v settings currentIssueNumbers)
                    (Store.getFiles v))) /\
  archiveOldIssues normalizePath (fst first) settings currentIssueNumbers
  = (fst first, Some 0%nat).
Proof.
  intros _ Hclear Hout first.
  destruct (ArchiveFacts.archive_exact normalizePath settings
              currentIssueNumbers v Hclear) as [H1 H2].
  fold first in H1, H2. split; [exact H1|].
  destruct (Store.isFolder v (getIssuesFolderPath normalizePath settings)) eqn:Ef.
  - unfold archiveOldIssues at 1. apply ArchiveFacts.loop_idle. intros f Hf.
    rewrite ArchiveFacts.issue_files in Hf.
    destruct (Store.isFolder (fst first) _); [|destruct Hf].
    apply List.filter_In in Hf as [Hin Hi].
    rewrite H2 in Hin.
    apply List.in_map_iff in Hin as (g & Hg & Hin).
    destruct (to_archive normalizePath v settings currentIssueNumbers g) eqn:Et.
    + exfalso. subst f. unfold is_issue_file in Hi.
      apply andb_true_iff in Hi as [Hi _]. apply andb_true_iff in Hi as [Hi _].
      apply andb_true_iff in Hi as [Hi _].
      apply bool_decide_eq_true_1 in Hi.
      cbn [Store.moved Store.file_at parent] in Hi.
      exact (Hout g Hin Et Hi).
    + subst g. unfold to_archive in Et. rewrite Ef, Hi in Et. exact Et.
  - assert (Hfirst : first = (v, Some 0%nat)).
    { unfold first, archiveOldIssues, getIssueFiles. rewrite Ef. reflexivity. }
    rewrite Hfirst. cbn [fst]. fold first. exact Hfirst.
Qed.

Lemma archiveOldIssues_twice_witness :
  let first :=
    archiveOldIssues plain_path three_issues DEFAULT_SETTINGS {[1%N; 3%N]} in
  snd first
  = Some (length (List.filter
                    (to_archive plain_path three_issues DEFAULT_SETTINGS
                       {[1%N; 3%N]})
                    (Store.getFiles three_issues))) /\
  archiveOldIssues plain_path (fst first) DEFAULT_SETTINGS {[1%N; 3%N]}
  = (fst first, Some 0%nat).
Proof.
  apply (archiveOldIssues_twice plain_path three_issues DEFAULT_SETTINGS
           {[1%N; 3%N]}).
  - vm_compute. reflexivity.
  - split.
    + vm_compute. constructor; [intros []|constructor].
    + intros f Hf. vm_compute in Hf. destruct Hf as [<-|[]].
      vm_compute. repeat split; discriminate.
  - intros f Hf Ht.
    vm_compute in Hf. destruct Hf as [<-|[<-|[<-|[<-|[]]]]];
      vm_compute; discriminate.
Defined.

End PullFacts.

(** ** The title sent after a pull *)

Module PushedTitleFacts.
Import Filenames Sync TitleFacts.

Lemma valid_no_slash (s : str) :
  forallb valid_name_char s = true -> free_of "/"%char s = true.
Proof.
  unfold free_of. induction s as [|c s IH]; [reflexivity|]. simpl.
  intros H. apply andb_true_iff in H as [Hc Hs]. rewrite (IH Hs), andb_true_r.
  apply is_not_true. intros ->. discriminate.
Qed.

Lemma digits_no_slash (s : str) :
  forallb is_digit s = true -> free_of "/"%char s = true.
Proof.
  unfold free_of. induction s as [|c s IH]; [reflexivity|]. simpl.
  intros H. apply andb_true_iff in H as [Hc Hs]. rewrite (IH Hs), andb_true_r.
  apply is_not_true. intros ->. discriminate.
Qed.

(** The name that a pull gives to the file of an issue holds no slash. *)
Lemma generated_name_no_slash (issue : GitHubIssue) :
  free_of "/"%char (generateIssueFilename issue ++ lit ".md") = true.
Proof.
  unfold generateIssueFilename. rewrite !free_of_app.
  rewrite (valid_no_slash _ (NameFacts.sanitizeFilename_chars (title issue))).
  rewrite (digits_no_slash _ (decimal_digits (number issue))). reflexivity.
Qed.

(** The name of the file that a pull writes, on a host that leaves the
    path of the issue as it is. *)
Lemma writeIssueFile_name (normalizePath : str -> str) (v : Vault)
    (settings : PluginSettings) (issue : GitHubIssue) :
  Pull.steady normalizePath v settings issue ->
  proper_names v ->
  name (snd (IssueFiles.writeIssueFile normalizePath v settings issue))
  = generateIssueFilename issue ++ lit ".md".
Proof.
  intros (Hnp & Hfp & _) Hnames. unfold Pull.issue_path in Hfp.
  unfold IssueFiles.writeIssueFile. cbv zeta. rewrite Hfp.
  destruct (Store.getFileByPath _ _) as [e|] eqn:E.
  - cbn [Store.modify snd name].
    assert (He : In e (Store.getFiles v)).
    { apply PullFacts.lookup_In in E.
      rewrite ArchiveFacts.getFiles_ensureFolder in E. exact E. }
    rewrite PullFacts.lookup_find in E.
    destruct (List.find _ _) as [[e'|q]|] eqn:Ef; try discriminate.
    injection E as ->. apply List.find_some in Ef as [_ Hp].
    apply PullFacts.path_eqb_eq in Hp. unfold path in Hp.
    apply (f_equal Store.name_of) in Hp.
    rewrite (PathFacts.name_of_join _ _ (Hnames e He)) in Hp.
    rewrite (PathFacts.name_of_join _ _ (generated_name_no_slash issue)) in Hp.
    exact Hp.
  - cbn [Store.create snd].
    rewrite (PathFacts.file_at_join _ _ _ (generated_name_no_slash issue)).
    reflexivity.
Qed.

(** C10, as stated, fails: the title that a push sends for a freshly pulled
    file is not always the original title followed by the number.  The
    issue [Fix: crash] (42) is written to [Fix- crash (42).md], and the
    push sends [Fix- crash (42)]. *)
Lemma pushed_title_is_not_the_original_one :
  newTitle (snd (IssueFiles.writeIssueFile plain_path [] DEFAULT_SETTINGS
                   sample_issue))
  <> title sample_issue ++ lit " (" ++ decimal (number sample_issue) ++ lit ")".
Proof. vm_compute. discriminate. Qed.

(** C10, amended.  A pull writes the file of an issue at the path that
    [normalizePath] gives for [<sanitized title> (<number>).md] in the
    issues folder, the number being a suffix; a push sends as title the
    base name of the file, less a leading parenthesised number only.  So
    for a file written by a pull, be it new or written over, and pushed as
    it is, on a host whose [normalizePath] leaves that path as it is, the
    file lies at that path, its base name is the generated name, and the
    title sent is the sanitized title followed by [ (<number>)], provided
    the sanitized title does not itself start with a parenthesised number:
    the suffix is kept.  The title sent is the original title followed by
    [ (<number>)] when sanitizing leaves the title as it is. *)
Theorem pushed_title_after_pull (normalizePath : str -> str) (v : Vault)
    (settings : PluginSettings) (issue : GitHubIssue) :
  Pull.steady normalizePath v settings issue ->
  proper_names v ->
  has_number_prefix (sanitizeFilename (title issue)) = false ->
  let result := IssueFiles.writeIssueFile normalizePath v settings issue in
  let file := snd result in
  Store.getFileByPath (fst result) (Pull.issue_path normalizePath settings issue)
  = Some file /\
  path file = Pull.issue_path normalizePath settings issue /\
  basename file = generateIssueFilename issue /\
  newTitle file
  = sanitizeFilename (title issue) ++ lit " (" ++ decimal (number issue)
    ++ lit ")" /\
  (sanitizeFilename (title issue) = title issue ->
   newTitle file
   = title issue ++ lit " (" ++ decimal (number issue) ++ lit ")").
Proof.
  intros Hsteady Hnames Hprefix result file.
  assert (Hb : basename file = generateIssueFilename issue).
  { apply basename_md. unfold file, result.
    apply writeIssueFile_name; assumption. }
  assert (Ht : newTitle file
               = sanitizeFilename (title issue) ++ lit " ("
                 ++ decimal (number issue) ++ lit ")").
  { unfold newTitle. rewrite Hb. unfold generateIssueFilename at 1.
    change (lit " (" ++ decimal (number issue) ++ lit ")")
      with (" "%char :: lit "(" ++ decimal (number issue) ++ lit ")").
    rewrite (strip_number_prefix_keeps _ _ Hprefix).
    apply (generated_name_trim issue). }
  destruct Hsteady as (Hnp & Hfp & Hnf).
  destruct (PullFacts.put_file_spec normalizePath v
              (IssueFiles.getIssuesFolderPath normalizePath settings)
              (generateIssueFilename issue)
              (IssueFiles.generateIssueContent issue) Hnp Hfp Hnf)
    as (H1 & _ & H3 & _).
  split; [exact H1|]. split; [exact H3|].
  split; [exact Hb|]. split; [exact Ht|].
  intros Hsame. rewrite Ht, Hsame. reflexivity.
Qed.

Lemma pushed_title_after_pull_witness :
  let result :=
    IssueFiles.writeIssueFile plain_path old_vault DEFAULT_SETTINGS
      sample_issue in
  let file := snd result in
  Store.getFileByPath (fst result)
    (Pull.issue_path plain_path DEFAULT_SETTINGS sample_issue) = Some file /\
  path file = Pull.issue_path plain_path DEFAULT_SETTINGS sample_issue /\
  basename file = generateIssueFilename sample_issue /\
  newTitle file
  = sanitizeFilename (title sample_issue) ++ lit " ("
    ++ decimal (number sample_issue) ++ lit ")" /\
  (sanitizeFilename (title sample_issue) = title sample_issue ->
   newTitle file
   = title sample_issue ++ lit " (" ++ decimal (number sample_issue) ++ lit ")").
Proof.
  apply (pushed_title_after_pull plain_path old_vault DEFAULT_SETTINGS
           sample_issue).
  - split; [reflexivity|]. split; [reflexivity|]. vm_compute. reflexivity.
  - intros f Hf. vm_compute in Hf. destruct Hf as [<-|[<-|[]]]; reflexivity.
  - reflexivity.
Defined.

(** On a host whose [normalizePath] changes the path, the file lies at
    the path that the host gives, and the title sent follows that path:
    with a no-break space in the title, the name of the file and the title
    sent hold a space in its place. *)
Example pull_on_a_host_that_changes_the_path :
  let result :=
    IssueFiles.writeIssueFile spaced_path [] DEFAULT_SETTINGS nbsp_issue in
  let file := snd result in
  Store.getFileByPath (fst result)
    (Pull.issue_path spaced_path DEFAULT_SETTINGS nbsp_issue) = Some file /\
  name file = lit "Fix crash (7).md" /\
  newTitle file = lit "Fix crash (7)" /\
  newTitle file <> generateIssueFilename nbsp_issue.
Proof. vm_compute. repeat split; discriminate. Qed.

End PushedTitleFacts.

Module BoardFacts.
Import IssueFiles IndexFacts.

Lemma concat_has_entries (l : StatusMap) :
  List.concat (List.map snd (List.filter has_entries l))
  = List.concat (List.map snd l).
Proof.
  induction l as [|[k g] l IH]; [reflexivity|].
  cbn [List.filter]. unfold has_entries at 1. cbn [snd].
  destruct g as [|i g]; cbn [length Nat.eqb negb List.map List.concat snd app].
  - exact IH.
  - rewrite IH. reflexivity.
Qed.

Lemma filter_split (p q : GitHubIssue -> bool) (l : list GitHubIssue) :
  (forall i, p i = true -> q i = false) ->
  List.filter p l ++ List.filter q l ≡ₚ List.filter (fun i => p i || q i) l.
Proof.
  intros H. induction l as [|i l IH]; [reflexivity|].
  cbn [List.filter]. destruct (p i) eqn:Ep.
  - rewrite (H i Ep). cbn [orb app]. constructor. exact IH.
  - cbn [orb]. destruct (q i).
    + rewrite <- IH. symmetry. apply Permutation_middle.
    + exact IH.
Qed.

Lemma groups_cover (issues : list GitHubIssue) (K : list str) :
  List.NoDup K ->
  List.concat (List.map snd (List.map (with_status issues) K))
  ≡ₚ List.filter (fun i => existsb (str_eqb (status i)) K) issues.
Proof.
  induction K as [|k K IH]; intros Hnd.
  - cbn. induction issues; [reflexivity|assumption].
  - inversion Hnd as [|? ? Hk Hnd']; subst.
    cbn [List.map List.concat with_status snd existsb].
    rewrite (IH Hnd'). apply filter_split.
    intros i Hi. apply str_eqb_true in Hi. rewrite Hi.
    apply existsb_str_false. exact Hk.
Qed.

Lemma filter_all {A : Type} (p : A -> bool) (l : list A) :
  (forall x, In x l -> p x = true) -> List.filter p l = l.
Proof.
  induction l as [|x l IH]; intros H; [reflexivity|].
  cbn [List.filter]. rewrite (H x (or_introl eq_refl)).
  f_equal. apply IH. intros y Hy. apply H. right. exact Hy.
Qed.

(** X23.  The index lists every issue once, under its own status: the issues of
    the sections, section after section, are a rearrangement of the issues
    given, and each section holds issues of its status only.  No issue is
    left out, whatever its status, and none is listed twice. *)
Theorem index_lists_every_issue (issues : list GitHubIssue)
    (statusOptions : list StatusOption) (issuesFolder : str) :
  listed issues statusOptions ≡ₚ issues /\
  (forall g i, In g (sections issues statusOptions) -> In i (snd g) ->
     status i = fst g /\ In i issues) /\
  length (List.concat
            (List.map (fun g => List.map (entry_line issuesFolder) (snd g))
               (sections issues statusOptions)))
  = length issues.
Proof.
  assert (P : listed issues statusOptions ≡ₚ issues).
  { unfold listed, sections. fold has_entries.
    rewrite concat_has_entries, issuesByStatus_keys.
    rewrite groups_cover by apply keys_of_NoDup.
    rewrite filter_all; [reflexivity|].
    intros i Hi. apply existsb_str. apply keys_of_In.
    apply List.in_or_app. right. apply List.in_or_app. right.
    apply List.in_map. exact Hi. }
  split; [exact P|]. split.
  - intros g i Hg Hi. unfold sections in Hg.
    apply List.filter_In in Hg as [Hg _]. rewrite issuesByStatus_keys in Hg.
    apply List.in_map_iff in Hg as (k & <- & _).
    unfold with_status in Hi |- *. cbn [fst snd] in *.
    apply List.filter_In in Hi as [Hin Hs]. apply str_eqb_true in Hs. auto.
  - rewrite <- (Permutation_length P). unfold listed.
    induction (sections issues statusOptions) as [|g l IH]; [reflexivity|].
    cbn [List.map List.concat]. rewrite !length_app, length_map, IH.
    reflexivity.
Qed.

Lemma includes_inv (s p : str) :
  includes s p = true -> exists a b, s = a ++ p ++ b.
Proof.
  induction s as [|c s IH]; cbn [includes]; intros H.
  - rewrite orb_false_r in H. unfold startsWith in H.
    destruct (strip_prefix p []) as [r|] eqn:E; [|discriminate].
    apply strip_prefix_Some in E. exists [], r. exact E.
  - apply orb_true_iff in H as [H|H].
    + unfold startsWith in H.
      destruct (strip_prefix p (c :: s)) as [r|] eqn:E; [|discriminate].
      apply strip_prefix_Some in E. exists [], r. exact E.
    + destruct (IH H) as (a & b & ->). exists (c :: a), b. reflexivity.
Qed.

Lemma free_prefix (c : ascii) (p b l t : str) :
  free_of c p = true -> p ++ b = l ++ c :: t -> exists l', l = p ++ l'.
Proof.
  revert l. induction p as [|d p IH]; intros l Hf H; [exists l; reflexivity|].
  cbn [free_of forallb] in Hf. apply andb_true_iff in Hf as [Hd Hf].
  destruct l as [|d' l].
  - cbn [app] in H. injection H as -> _. unfold is_not in Hd.
    rewrite ch_refl in Hd. discriminate.
  - cbn [app] in H. injection H as <- H.
    destruct (IH l Hf H) as (l' & ->). exists l'. reflexivity.
Qed.

Lemma enterprise_api_url (h : str) :
  includes h (lit "api.github.com") = false ->
  includes (lit "https://" ++ h ++ lit "/api/v3") (lit "api.github.com") = false.
Proof.
  intros H.
  destruct (includes (lit "https://" ++ h ++ lit "/api/v3") (lit "api.github.com"))
    eqn:E; [|reflexivity].
  exfalso. apply includes_inv in E as (a & b & E).
  do 8 (destruct a as [|? a]; [discriminate E|injection E as _ E]).
  apply List.app_eq_app in E as (l & [[E1 E2]|[E1 E2]]).
  - apply (free_prefix "/"%char (lit "api.github.com") b l (lit "api/v3")) in E2
      as (l' & ->); [|reflexivity].
    rewrite E1, CodecFacts.includes_here in H. discriminate.
  - apply (f_equal (@length ascii)) in E2. rewrite !length_app in E2.
    cbn [length lit list_ascii_of_string] in E2. lia.
Qed.

(** X24.  The image requests and the queries are sent to the same API base,
    except when the base URL of the settings is [github.com] itself: then
    the queries go to [api.github.com] and the image requests to
    [github.com/api/v3]. *)
Theorem api_base_agrees (settings : PluginSettings) :
  (githubBaseUrl settings <> lit "github.com" ->
   Images.api_base settings = getGitHubApiUrl (githubBaseUrl settings)) /\
  (githubBaseUrl settings = lit "github.com" ->
   getGitHubApiUrl (githubBaseUrl settings) = lit "https://api.github.com" /\
   Images.api_base settings = lit "https://github.com/api/v3") /\
  (includes (githubBaseUrl settings) (lit "api.github.com") = false ->
   graphqlUrl (githubBaseUrl settings)
   = getGitHubApiUrl (githubBaseUrl settings) ++ lit "/graphql").
Proof.
  unfold Images.api_base, getGitHubApiUrl, graphqlUrl.
  split; [|split].
  - intros H. destruct (githubBaseUrl settings) as [|c h]; [reflexivity|].
    cbn [orb]. rewrite (proj2 (str_eqb_false _ _) H). reflexivity.
  - intros ->. split; reflexivity.
  - intros H. cbv zeta. unfold getGitHubApiUrl.
    destruct (githubBaseUrl settings) as [|c h] eqn:Eh; [reflexivity|].
    cbn [orb]. destruct (str_eqb (c :: h) (lit "github.com")); [reflexivity|].
    rewrite (enterprise_api_url (c :: h) H). reflexivity.
Qed.

End BoardFacts.

Module ResolveFacts.
Import Images.

Section Resolve.
Variable normalizePath : str -> str.

Lemma first_with_ext_sound (v : Vault) (p : str) (exts : list str) (f : TFile) :
  first_with_ext normalizePath v p exts = Some f ->
  exists ext, In ext exts /\
    Store.getFileByPath v (normalizePath (p ++ lit "." ++ ext)) = Some f.
Proof.
  induction exts as [|e exts IH]; cbn [first_with_ext]; [discriminate|].
  destruct (Store.getFileByPath v (normalizePath (p ++ lit "." ++ e))) as [g|] eqn:E.
  - intros H. injection H as <-. exists e. split; [left; reflexivity|exact E].
  - intros H. destruct (IH H) as (ext & Hin & Hx). exists ext.
    split; [right; exact Hin|exact Hx].
Qed.

Lemma lookup_path (v : Vault) (p : str) (f : TFile) :
  Store.getFileByPath v p = Some f -> In f (Store.getFiles v) /\ path f = p.
Proof.
  intros H. split; [exact (PullFacts.lookup_In _ _ _ H)|].
  rewrite PullFacts.lookup_find in H.
  destruct (List.find (at_path p) v) as [[g|q]|] eqn:E; try discriminate.
  injection H as ->. apply List.find_some in E as [_ E].
  apply str_eqb_true. exact E.
Qed.

Lemma find_named (v : Vault) (s : str) :
  (exists f, In f (Store.getFiles v) /\ (name f = s \/ basename f = s)) ->
  List.find (fun file => str_eqb (name file) s || str_eqb (basename file) s)
    (Store.getFiles v) <> None.
Proof.
  intros (f & Hin & Hn) H.
  apply (List.find_none _ _ H) in Hin. apply orb_false_iff in Hin as [H1 H2].
  destruct Hn as [Hn|Hn]; [rewrite Hn, str_eqb_refl in H1|
                           rewrite Hn, str_eqb_refl in H2]; discriminate.
Qed.

End Resolve.

(** X25.  How a reference is resolved.  The file found is a file of the vault,
    and it lies at the path of the reference, or, for a path without a dot,
    at that path with one of the six image extensions, or it bears the last
    segment of the path as its name or as its name less the extension.
    Conversely, a reference is resolved whenever the vault holds a file
    with that name. *)
Theorem findImageFile_resolves (normalizePath : str -> str) (v : Vault)
    (imagePath : str) :
  (forall f, findImageFile normalizePath v imagePath = Some f ->
     In f (Store.getFiles v) /\
     (path f = normalizePath imagePath \/
      (includes imagePath (lit ".") = false /\
       exists ext, In ext image_extensions /\
         path f = normalizePath (imagePath ++ lit "." ++ ext)) \/
      name f = searched_name imagePath \/
      basename f = searched_name imagePath)) /\
  ((exists f, In f (Store.getFiles v) /\
      (name f = searched_name imagePath \/
       basename f = searched_name imagePath)) ->
   findImageFile normalizePath v imagePath <> None).
Proof.
  unfold findImageFile. split.
  - intros f.
    destruct (Store.getFileByPath v (normalizePath imagePath)) as [g|] eqn:E.
    { intros H. injection H as <-. apply lookup_path in E as [E1 E2]. auto. }
    destruct (includes imagePath (lit ".")) eqn:Ed; cbn [negb].
    + intros H. apply List.find_some in H as [Hin Hn].
      split; [exact Hin|]. right. right.
      apply orb_true_iff in Hn as [Hn|Hn]; apply str_eqb_true in Hn; auto.
    + destruct (first_with_ext normalizePath v imagePath _) as [g|] eqn:Ex.
      * intros H. injection H as <-.
        apply first_with_ext_sound in Ex as (ext & Hin & Hx).
        apply lookup_path in Hx as [H1 H2].
        split; [exact H1|]. right. left. split; [reflexivity|].
        exists ext. auto.
      * intros H. apply List.find_some in H as [Hin Hn].
        split; [exact Hin|]. right. right.
        apply orb_true_iff in Hn as [Hn|Hn]; apply str_eqb_true in Hn; auto.
  - intros Hex.
    destruct (Store.getFileByPath v (normalizePath imagePath)); [discriminate|].
    destruct (if negb (includes imagePath (lit "."))
              then first_with_ext normalizePath v imagePath _ else None);
      [discriminate|].
    apply find_named. exact Hex.
Qed.

End ResolveFacts.
